(** * ground-zero: template dependency and incremental-rebuild engine

    A shallow embedding of [scripts/compile-ejs.js], of the change scheduler
    of [vite.config.js] and of the sprite assembly of [scripts/svg-sprite.js],
    with the properties of the specification proved about them.  The later
    modules ([ScannerLaws] to [FsWalk]) add laws of the same functions, and
    models of the debounce of [scripts/watch-icons.js], of the file
    written by [generateSvgSprite] and of the directory walks [walkDir] and
    [findCssFiles].

    JavaScript strings are modelled as [string]; where the source indexes
    into a string ([str[i]], [str.startsWith(p, i)]) the string is viewed as
    its [list ascii] of code units.  The delimiters and the newline that the
    code looks for are ASCII, so nothing depends on how other characters are
    encoded.

    A [Map] is a [gmap] and a [Set] is a [gset]: the order in which
    JavaScript iterates over a [Set] (insertion order) is not recorded.
    Where the source iterates over a [Set] the model iterates over
    [elements], and no statement below depends on that order; where the
    order decides what is done, in the loop of [flush] over the impacted
    pages, it is a parameter ([page_order]) that may be any enumeration of
    the set.

    Loops are written with an iteration budget and return [None] when it is
    not enough; for each of them a lemma shows that the budget used is
    enough on every input, so that the functions are total.

    Node and the file system are parameters: [path.resolve], [fs.existsSync],
    the directory listings and the matches of regular expressions are fields
    of an environment record, and every theorem holds for all of them.

    The recursive directory walks follow the file system, which is a
    parameter too: they are written with a budget of nested calls, and end
    for every budget above the depth to which the directories are nested
    ([FsWalk.nested]). *)

From Stdlib Require Import Ascii String.
From Stdlib Require OrdersEx.
From stdpp Require Import base option list gmap strings sorting relations.

Local Open Scope nat_scope.
Set Default Proof Using "Type".
Set Warnings "-clear-no-such-hyp".

(** A decidable proposition, settled by evaluating its decision procedure. *)
Ltac by_evaluation := apply (bool_decide_unpack _); vm_compute; exact I.

(** ** Strings as arrays of code units *)
Module JsString.

Abbreviation chars := list_ascii_of_string (only parsing).

(** [str.startsWith(pat, i)] *)
Definition startsWith (str pat : list ascii) (i : nat) : bool :=
  bool_decide (take (length pat) (drop i str) = pat).

(** [out += str[i]]: an index past the end reads [undefined], which [+=]
    would append as text. *)
Definition append_at (out str : list ascii) (i : nat) : list ascii :=
  match str !! i with
  | Some c => out ++ [c]
  | None => out ++ chars "undefined"
  end.

Definition LF : ascii := "010"%char.

(** Number of ['\n'] code units. *)
Definition newlines (s : list ascii) : nat :=
  length (filter (λ c, c = LF) s).

(** [s] has the text [pat] at some index. *)
Definition occurs (pat s : list ascii) : Prop :=
  ∃ p, startsWith s pat p = true.

Lemma startsWith_spec str pat i :
  startsWith str pat i = true ↔ take (length pat) (drop i str) = pat.
Proof. unfold startsWith. apply bool_decide_eq_true. Qed.

Lemma startsWith_bound str pat i :
  0 < length pat →
  startsWith str pat i = true → i + length pat ≤ length str.
Proof.
  rewrite startsWith_spec. intros Hpat H.
  apply (f_equal length) in H.
  rewrite length_take, length_drop in H. lia.
Qed.

Lemma startsWith_drop str pat i :
  startsWith str pat i = true → drop i str = pat ++ drop (i + length pat) str.
Proof.
  rewrite startsWith_spec. intros H.
  rewrite <- (take_drop (length pat) (drop i str)) at 1.
  rewrite H, drop_drop. done.
Qed.

Lemma newlines_app s t : newlines (s ++ t) = newlines s + newlines t.
Proof. unfold newlines. by rewrite filter_app, length_app. Qed.

Lemma drop_lookup_cons (str : list ascii) i c :
  str !! i = Some c → drop i str = c :: drop (S i) str.
Proof. intros H. by rewrite (drop_S _ _ _ H). Qed.

End JsString.

(** ** [scripts/compile-ejs.js]: the comment scanner *)
Module Scanner.
Import JsString.

(** State of the inner [while]: the index [i], the nesting [depth] and the
    output built so far. *)
Definition inner_state : Type := nat * nat * list ascii.

(** Body of the inner [while (i < len && depth > 0)]. *)
Definition inner_body (str : list ascii) (st : inner_state) : inner_state :=
  let '(i, depth, out) := st in
  if startsWith str (chars "<%%") i then (i + 3, depth, out)
  else if startsWith str (chars "<%") i then (i + 2, depth + 1, out)
  else if startsWith str (chars "%>") i then (i + 2, depth - 1, out)
  else (i + 1, depth,
        if bool_decide (str !! i = Some LF) then out ++ [LF] else out).

Definition inner_guard (str : list ascii) (st : inner_state) : bool :=
  let '(i, depth, _) := st in
  bool_decide (i < length str) && bool_decide (0 < depth).

(** The inner [while]; [None] when [fuel] iterations were not enough. *)
Fixpoint inner_loop (fuel : nat) (str : list ascii) (st : inner_state)
  : option inner_state :=
  if inner_guard str st then
    match fuel with
    | 0 => None
    | S fuel' => inner_loop fuel' str (inner_body str st)
    end
  else Some st.

(** Body of the outer [while (i < len)] on the state [(i, out)]. *)
Definition outer_body (str : list ascii) (st : nat * list ascii)
  : option (nat * list ascii) :=
  let '(i, out) := st in
  if startsWith str (chars "<%#") i then
    '(i', _, out') ← inner_loop (length str) str (i + 3, 1, out);
    Some (i', out')
  else Some (i + 1, append_at out str i).

Fixpoint outer_loop (fuel : nat) (str : list ascii) (st : nat * list ascii)
  : option (list ascii) :=
  if bool_decide (st.1 < length str) then
    match fuel with
    | 0 => None
    | S fuel' => st' ← outer_body str st; outer_loop fuel' str st'
    end
  else Some st.2.

(** One run of the function on the code units of [str]; every iteration of
    either loop advances [i], so [length str] iterations are enough
    ([strip_run_returns] below). *)
Definition strip_run (str : list ascii) : option (list ascii) :=
  outer_loop (length str) str (0, []).

Definition strip (str : list ascii) : list ascii :=
  default [] (strip_run str).

(** [stripEjsComments(str)] *)
Definition stripEjsComments (str : string) : string :=
  string_of_list_ascii (strip (chars str)).

(** Number of newline characters of a string. *)
Definition count_newlines (s : string) : nat := newlines (chars s).

(** [s.includes(pat)] *)
Definition includes (s pat : string) : Prop := occurs (chars pat) (chars s).

(** *** Properties of the scanner *)

Lemma inner_body_advance str i depth out :
  inner_guard str (i, depth, out) = true →
  ∃ i' depth' out', inner_body str (i, depth, out) = (i', depth', out')
    ∧ i < i' ≤ length str.
Proof.
  unfold inner_guard, inner_body. intros [Hi _]%andb_prop.
  apply bool_decide_eq_true in Hi.
  destruct (startsWith str (chars "<%%") i) eqn:E1.
  { apply startsWith_bound in E1; simpl in *; [|lia]. eexists _, _, _. split; [done|lia]. }
  destruct (startsWith str (chars "<%") i) eqn:E2.
  { apply startsWith_bound in E2; simpl in *; [|lia]. eexists _, _, _. split; [done|lia]. }
  destruct (startsWith str (chars "%>") i) eqn:E3.
  { apply startsWith_bound in E3; simpl in *; [|lia]. eexists _, _, _. split; [done|lia]. }
  eexists _, _, _. split; [done|lia].
Qed.

(** Hoare-style rule for the inner loop. *)
Lemma inner_loop_inv (P : inner_state → Prop) str fuel st st' :
  (∀ s, inner_guard str s = true → P s → P (inner_body str s)) →
  P st → inner_loop fuel str st = Some st' →
  P st' ∧ inner_guard str st' = false.
Proof.
  intros Hstep. revert st. induction fuel as [|fuel IH]; intros st HP; cbn [inner_loop].
  - destruct (inner_guard str st) eqn:G; [done|]. intros [= <-]. done.
  - destruct (inner_guard str st) eqn:G.
    + intros H. eapply IH; [|done]. by apply Hstep.
    + intros [= <-]. done.
Qed.

Lemma inner_loop_returns str fuel i depth out :
  length str - i ≤ fuel → is_Some (inner_loop fuel str (i, depth, out)).
Proof.
  revert i depth out. induction fuel as [|fuel IH]; intros i depth out Hf; cbn [inner_loop].
  - destruct (inner_guard str (i, depth, out)) eqn:G; [|done].
    apply andb_prop in G as [G _]. apply bool_decide_eq_true in G. lia.
  - destruct (inner_guard str (i, depth, out)) eqn:G; [|done].
    destruct (inner_body_advance _ _ _ _ G) as (i' & d' & o' & -> & Hi).
    apply IH. lia.
Qed.

Lemma inner_loop_bounds str fuel i depth out i' depth' out' :
  i ≤ length str →
  inner_loop fuel str (i, depth, out) = Some (i', depth', out') →
  i ≤ i' ≤ length str.
Proof.
  intros Hi H.
  apply (inner_loop_inv (λ '(j, _, _), i ≤ j ≤ length str)) in H as [H _];
    [simpl in H; lia| |simpl; lia].
  intros [[j d] o] G Hj.
  destruct (inner_body_advance _ _ _ _ G) as (j' & d' & o' & -> & Hj').
  simpl in *. lia.
Qed.

Lemma outer_body_advance str i out :
  i < length str →
  ∃ i' out', outer_body str (i, out) = Some (i', out') ∧ i < i' ≤ length str.
Proof.
  intros Hi. unfold outer_body.
  destruct (startsWith str (chars "<%#") i) eqn:E.
  - apply startsWith_bound in E; [|simpl; lia]. simpl in E.
    destruct (inner_loop_returns str (length str) (i + 3) 1 out) as [[[i' d'] o'] H];
      [lia|].
    rewrite H. simpl. eexists _, _. split; [done|].
    apply inner_loop_bounds in H; lia.
  - eexists _, _. split; [done|lia].
Qed.

(** Hoare-style rule for the outer loop. *)
Lemma outer_loop_inv (P : nat * list ascii → Prop) str fuel st out :
  (∀ s s', s.1 < length str → P s → outer_body str s = Some s' → P s') →
  P st → outer_loop fuel str st = Some out →
  ∃ i, P (i, out) ∧ length str ≤ i.
Proof.
  intros Hstep. revert st. induction fuel as [|fuel IH]; intros [i o] HP;
    cbn [outer_loop]; case_bool_decide as G; simpl in G.
  - done.
  - intros [= <-]. exists i. split; [done|lia].
  - destruct (outer_body str (i, o)) as [s'|] eqn:B; [|done]. simpl.
    intros H. eapply IH; [|done]. eapply Hstep; [|done..]. done.
  - intros [= <-]. exists i. split; [done|lia].
Qed.

Lemma outer_loop_returns str fuel i out :
  length str - i ≤ fuel → is_Some (outer_loop fuel str (i, out)).
Proof.
  revert i out. induction fuel as [|fuel IH]; intros i out Hf;
    cbn [outer_loop]; case_bool_decide as G; simpl in G; try done.
  - lia.
  - destruct (outer_body_advance str i out G) as (i' & o' & -> & Hi). simpl.
    apply IH. lia.
Qed.

(** A larger budget does not change the result of the inner loop. *)
Lemma inner_loop_more_fuel str fuel fuel' st st' :
  fuel ≤ fuel' → inner_loop fuel str st = Some st' →
  inner_loop fuel' str st = Some st'.
Proof.
  revert fuel' st. induction fuel as [|fuel IH]; intros fuel' st Hle;
    cbn [inner_loop]; destruct (inner_guard str st) eqn:G; try done.
  - destruct fuel'; cbn [inner_loop]; rewrite G; done.
  - destruct fuel' as [|fuel']; [lia|]. cbn [inner_loop]. rewrite G.
    apply IH. lia.
  - destruct fuel'; cbn [inner_loop]; rewrite G; done.
Qed.

(** A larger budget does not change the result of the outer loop. *)
Lemma outer_loop_more_fuel str fuel fuel' st out :
  fuel ≤ fuel' → outer_loop fuel str st = Some out →
  outer_loop fuel' str st = Some out.
Proof.
  revert fuel' st. induction fuel as [|fuel IH]; intros fuel' st Hle;
    cbn [outer_loop]; case_bool_decide as G; try done.
  - destruct fuel'; cbn [outer_loop]; rewrite bool_decide_eq_false_2; done.
  - destruct fuel' as [|fuel']; [lia|]. cbn [outer_loop].
    rewrite bool_decide_eq_true_2 by done.
    destruct (outer_body str st) as [st1|]; [|done]. simpl.
    apply IH. lia.
  - destruct fuel'; cbn [outer_loop]; rewrite bool_decide_eq_false_2; done.
Qed.

(** The loops never run out of iterations: the function returns. *)
Lemma strip_run_returns str : strip_run str = Some (strip str).
Proof.
  unfold strip. destruct (outer_loop_returns str (length str) 0 []) as [o H];
    [lia|].
  unfold strip_run. by rewrite H.
Qed.

Lemma inner_body_newlines str st :
  inner_guard str st = true →
  let '(i, _, out) := st in
  let '(i', _, out') := inner_body str st in
  newlines out' + newlines (drop i' str) = newlines out + newlines (drop i str).
Proof.
  destruct st as [[i depth] out]. unfold inner_guard, inner_body.
  intros [Hi _]%andb_prop. apply bool_decide_eq_true in Hi.
  destruct (startsWith str (chars "<%%") i) eqn:E1.
  { apply startsWith_drop in E1. rewrite E1, newlines_app. done. }
  destruct (startsWith str (chars "<%") i) eqn:E2.
  { apply startsWith_drop in E2. rewrite E2, newlines_app. done. }
  destruct (startsWith str (chars "%>") i) eqn:E3.
  { apply startsWith_drop in E3. rewrite E3, newlines_app. done. }
  destruct (lookup_lt_is_Some_2 str i Hi) as [c Hc].
  rewrite (drop_lookup_cons _ _ _ Hc), Hc, Nat.add_1_r.
  case_bool_decide as Hnl.
  - injection Hnl as ->. rewrite newlines_app.
    change (LF :: drop (S i) str) with ([LF] ++ drop (S i) str).
    rewrite newlines_app. lia.
  - change (c :: drop (S i) str) with ([c] ++ drop (S i) str).
    rewrite newlines_app.
    assert (newlines [c] = 0) as ->; [|done].
    unfold newlines. rewrite filter_cons_False; [done|]. congruence.
Qed.

Lemma strip_newlines str : newlines (strip str) = newlines str.
Proof.
  pose proof (strip_run_returns str) as H. unfold strip_run in H.
  apply (outer_loop_inv
    (λ '(i, out), newlines out + newlines (drop i str) = newlines str)) in H.
  - destruct H as (i & H & Hi). rewrite drop_ge in H by done.
    unfold newlines at 2 in H. simpl in H. lia.
  - intros [i out] [i' out'] Hi HP. unfold outer_body. simpl in Hi.
    destruct (startsWith str (chars "<%#") i) eqn:E.
    + destruct (inner_loop _ _ _) as [[[j d] o]|] eqn:L; [|done].
      simpl. intros [= <- <-].
      apply (inner_loop_inv
        (λ '(j, _, o), newlines o + newlines (drop j str) = newlines str))
        in L as [L _]; [done| |].
      * intros [[j0 d0] o0] G HQ.
        pose proof (inner_body_newlines str _ G) as Hb.
        destruct (inner_body str (j0, d0, o0)) as [[j1 d1] o1]. simpl in *. lia.
      * apply startsWith_drop in E. rewrite E, newlines_app in HP. done.
    + intros [= <- <-]. unfold append_at.
      destruct (lookup_lt_is_Some_2 str i Hi) as [c Hc]. rewrite Hc.
      rewrite (drop_lookup_cons _ _ _ Hc) in HP.
      change (c :: drop (S i) str) with ([c] ++ drop (S i) str) in HP.
      rewrite newlines_app in *. rewrite Nat.add_1_r. lia.
  - done.
Qed.

Lemma inner_body_length str st :
  inner_guard str st = true →
  let '(i, _, out) := st in
  let '(i', _, out') := inner_body str st in
  length out' + i ≤ length out + i'.
Proof.
  destruct st as [[i depth] out]. unfold inner_body. intros _.
  repeat case_match; simplify_eq; rewrite ?length_app; simpl; lia.
Qed.

(** A comment opened at [i] removes at least its three-unit marker. *)
Lemma outer_body_length str i out i' out' :
  i < length str →
  outer_body str (i, out) = Some (i', out') →
  length out' + i ≤ length out + i'
  ∧ (startsWith str (chars "<%#") i = true → length out' + i + 3 ≤ length out + i')
  ∧ (startsWith str (chars "<%#") i = false → out' = out ++ take 1 (drop i str)).
Proof.
  intros Hi. unfold outer_body.
  destruct (startsWith str (chars "<%#") i) eqn:E.
  - destruct (inner_loop _ _ _) as [[[j d] o]|] eqn:L; [|done].
    simpl. intros [= <- <-].
    apply (inner_loop_inv (λ '(j, _, o), length o + i + 3 ≤ length out + j))
      in L as [L _]; [simpl in L| |simpl; lia].
    + split; [lia|]. split; [done|]. done.
    + intros [[j0 d0] o0] G HQ.
      pose proof (inner_body_length str _ G) as Hb.
      destruct (inner_body str (j0, d0, o0)) as [[j1 d1] o1]. simpl in *. lia.
  - intros [= <- <-]. unfold append_at.
    destruct (lookup_lt_is_Some_2 str i Hi) as [c Hc]. rewrite Hc.
    rewrite (drop_lookup_cons _ _ _ Hc). simpl. rewrite take_0, length_app.
    simpl. split; [lia|]. split; [done|]. done.
Qed.

(** Text without a comment marker is returned unchanged. *)
Lemma strip_no_marker str : ¬ occurs (chars "<%#") str → strip str = str.
Proof.
  intros Hno. pose proof (strip_run_returns str) as H. unfold strip_run in H.
  apply (outer_loop_inv (λ '(i, out), out = take i str)) in H.
  - destruct H as (i & -> & Hi). by rewrite take_ge.
  - intros [i out] [i' out'] Hi -> B. simpl in Hi.
    destruct (outer_body_advance str i (take i str) Hi) as (j & o & B' & Hj).
    destruct (outer_body_length _ _ _ _ _ Hi B) as (_ & _ & Hcopy).
    destruct (startsWith str (chars "<%#") i) eqn:E.
    { exfalso. apply Hno. by exists i. }
    rewrite Hcopy by done. unfold outer_body in B. rewrite E in B.
    injection B as <- _. rewrite Nat.add_1_r.
    destruct (lookup_lt_is_Some_2 str i Hi) as [c Hc].
    rewrite (take_S_r _ _ _ Hc), (drop_lookup_cons _ _ _ Hc). simpl.
    by rewrite take_0.
  - done.
Qed.

(** Text with a comment marker loses at least the marker. *)
Lemma strip_marker_shrinks str :
  occurs (chars "<%#") str → length (strip str) + 3 ≤ length str.
Proof.
  intros [p Hp]. pose proof (strip_run_returns str) as H. unfold strip_run in H.
  apply (outer_loop_inv (λ '(i, out), i ≤ length str ∧
    (length out + 3 ≤ i
     ∨ (length out = i ∧ ∀ q, q < i → startsWith str (chars "<%#") q = false))))
    in H.
  - destruct H as (i & H & Hi). simpl in H.
    destruct H as [Hle [H|[_ H]]]; [lia|].
    pose proof (λ h, startsWith_bound str (chars "<%#") p h Hp) as Hb.
    simpl in Hb. specialize (Hb ltac:(lia)).
    rewrite H in Hp by lia. done.
  - intros [i out] [i' out'] Hi [Hle HP] B. simpl in Hi.
    destruct (outer_body_advance str i out Hi) as (j & o & B' & Hj).
    rewrite B in B'. injection B' as <- <-.
    destruct (outer_body_length _ _ _ _ _ Hi B) as (Hlen & Hc & Hcopy).
    split; [lia|].
    destruct (startsWith str (chars "<%#") i) eqn:E.
    + left. specialize (Hc eq_refl). lia.
    + destruct HP as [HP|[HP Hq]]; [left; lia|].
      unfold outer_body in B. rewrite E in B. injection B as <- <-.
      right. split.
      * unfold append_at. destruct (lookup_lt_is_Some_2 str i Hi) as [c ->].
        rewrite length_app. simpl. lia.
      * intros q Hq'. destruct (decide (q = i)) as [->|]; [done|].
        apply Hq. lia.
  - simpl. split; [lia|]. right. split; [done|]. intros q Hq. lia.
Qed.

Lemma chars_stripEjsComments s : chars (stripEjsComments s) = strip (chars s).
Proof. unfold stripEjsComments. apply list_ascii_of_string_of_list_ascii. Qed.

Lemma chars_inj s t : chars s = chars t → s = t.
Proof.
  intros H. rewrite <- (string_of_list_ascii_of_string s),
    <- (string_of_list_ascii_of_string t). by rewrite H.
Qed.

Example strip_nested_include :
  stripEjsComments "a<%# x <%- include('y') %> z %>b" = "ab"%string.
Proof. reflexivity. Qed.

Example strip_unterminated :
  stripEjsComments (String "a" (String LF "<%# x" ++ String LF "y"))
  = String "a" (String LF (String LF "")).
Proof. reflexivity. Qed.

(** C4. For every input string, the output of [stripEjsComments] has exactly
    as many newline characters as the input; this includes inputs that end
    inside an unterminated comment, since the statement is for all inputs and
    the function returns on all of them ([strip_run_returns]). *)
Theorem stripEjsComments_preserves_newlines (s : string) :
  count_newlines (stripEjsComments s) = count_newlines s.
Proof.
  unfold count_newlines. rewrite chars_stripEjsComments. apply strip_newlines.
Qed.

(** C5, as stated, fails: removing a comment can splice the text around it
    into a new comment marker, which a second pass then removes.
    [stripEjsComments("<<%#%>%#x")] is ["<%#x"], and stripping that gives
    the empty string. *)
Lemma stripEjsComments_not_idempotent :
  stripEjsComments "<<%#%>%#x" = "<%#x"%string
  ∧ stripEjsComments (stripEjsComments "<<%#%>%#x") = ""%string
  ∧ ¬ (∀ s, stripEjsComments (stripEjsComments s) = stripEjsComments s).
Proof.
  split; [reflexivity|]. split; [reflexivity|].
  intros H. specialize (H "<<%#%>%#x"%string). vm_compute in H. discriminate H.
Qed.

(** C5, amended. Stripping a second time changes nothing exactly when the
    output of the first pass contains no comment marker [<%#]. *)
Theorem stripEjsComments_idempotent_iff (s : string) :
  stripEjsComments (stripEjsComments s) = stripEjsComments s
  ↔ ¬ includes (stripEjsComments s) "<%#".
Proof.
  unfold includes. split.
  - intros Heq Hocc. apply strip_marker_shrinks in Hocc.
    apply (f_equal chars) in Heq. rewrite chars_stripEjsComments in Heq.
    rewrite Heq in Hocc. lia.
  - intros Hno. apply chars_inj. rewrite chars_stripEjsComments.
    by apply strip_no_marker.
Qed.

(** C8, as stated, fails: inside a comment the escaped delimiter [<%%] is
    not copied to the output.  At index 5 of ["a<%# <%% %>b"], with depth 1
    and output ["a"], the scanner moves to index 8 and the output is still
    ["a"]; the whole text strips to ["ab"]. *)
Lemma escaped_delimiter_not_copied :
  let str := chars "a<%# <%% %>b" in
  startsWith str (chars "<%%") 5 = true
  ∧ inner_body str (5, 1, chars "a") = (8, 1, chars "a")
  ∧ inner_body str (5, 1, chars "a") ≠ (8, 1, chars "a" ++ chars "<%%")
  ∧ stripEjsComments "a<%# <%% %>b" = "ab"%string.
Proof. repeat split; try reflexivity. vm_compute. discriminate. Qed.

(** C8, amended. Inside a comment (depth at least 1), an escaped delimiter
    [<%%] at the current index is skipped: the index moves past its three
    code units, nothing is added to the output and the depth is unchanged;
    the scan goes on from there. *)
Theorem escaped_delimiter_skipped (str : list ascii) (i depth fuel : nat)
    (out : list ascii) :
  0 < depth →
  startsWith str (chars "<%%") i = true →
  inner_body str (i, depth, out) = (i + 3, depth, out)
  ∧ inner_loop (S fuel) str (i, depth, out)
    = inner_loop fuel str (i + 3, depth, out).
Proof.
  intros Hd E.
  assert (inner_body str (i, depth, out) = (i + 3, depth, out)) as Hb.
  { unfold inner_body. by rewrite E. }
  split; [done|].
  apply startsWith_bound in E; [|simpl; lia]. simpl in E.
  cbn [inner_loop]. rewrite Hb.
  assert (inner_guard str (i, depth, out) = true) as ->; [|done].
  unfold inner_guard. rewrite !bool_decide_eq_true_2 by lia. done.
Qed.

Lemma escaped_delimiter_skipped_witness :
  let str := chars "a<%# <%% %>b" in
  0 < 1 ∧ startsWith str (chars "<%%") 5 = true
  ∧ inner_body str (5, 1, chars "a") = (5 + 3, 1, chars "a")
  ∧ inner_loop (S 12) str (5, 1, chars "a")
    = inner_loop 12 str (5 + 3, 1, chars "a").
Proof.
  split; [lia|]. split; [reflexivity|].
  apply (escaped_delimiter_skipped (chars "a<%# <%% %>b") 5 1 12 (chars "a"));
    [lia|reflexivity].
Defined.

End Scanner.

(** ** [scripts/compile-ejs.js]: include resolution, dependency graph and
    impact analysis *)
Module CompileEjs.
Import JsString.

(** The graph returned by [buildDependencyGraph]. *)
Record Graph : Type := {
  pages : gset string;
  partials : gset string;
  includes : gmap string (gset string);
  dependents : gmap string (gset string)
}.

(** [m.get(k)] is a set that has [x]. *)
Definition map_has (m : gmap string (gset string)) (k x : string) : Prop :=
  ∃ s, m !! k = Some s ∧ x ∈ s.

(** [includes.get(a)] has [b]: a forward edge from [a] to [b]. *)
Definition includes_edge (g : Graph) (a b : string) : Prop :=
  map_has (includes g) a b.

(** [dependents.get(b)] has [a]: a reverse edge from [b] to [a]. *)
Definition dependents_edge (g : Graph) (b a : string) : Prop :=
  map_has (dependents g) b a.

(** The two maps are transposes of one another. *)
Definition transposed (g : Graph) : Prop :=
  ∀ a b, includes_edge g a b ↔ dependents_edge g b a.

(** State of the traversal of [getImpactedPages]; the head of [stack] is
    the element [stack.pop()] returns. *)
Record Walk : Type := {
  result : gset string;
  seen : gset string;
  stack : list string
}.

(** Body of [for (const u of ups)]; [seen] is not changed by this loop. *)
Definition visit_dependent (g : Graph) (seen : gset string)
    (acc : gset string * list string) (u : string) : gset string * list string :=
  (if bool_decide (u ∈ pages g) then acc.1 ∪ {[u]} else acc.1,
   if bool_decide (u ∈ seen) then acc.2 else u :: acc.2).

(** One iteration of [while (stack.length)], after [cur = stack.pop()] left
    [rest] on the stack.  [!cur] holds for the empty string. *)
Definition visit (g : Graph) (cur : string) (w : Walk) (rest : list string) : Walk :=
  if bool_decide (cur = ""%string) || bool_decide (cur ∈ seen w) then
    {| result := result w; seen := seen w; stack := rest |}
  else
    let seen' := seen w ∪ {[cur]} in
    let result' := if bool_decide (cur ∈ pages g) then result w ∪ {[cur]}
                   else result w in
    match dependents g !! cur with
    | Some ups =>
        let acc := foldl (visit_dependent g seen') (result', rest) (elements ups) in
        {| result := acc.1; seen := seen'; stack := acc.2 |}
    | None => {| result := result'; seen := seen'; stack := rest |}
    end.

(** The [while] loop; [None] when [fuel] iterations were not enough. *)
Fixpoint walk (fuel : nat) (g : Graph) (w : Walk) : option (gset string) :=
  match stack w with
  | [] => Some (result w)
  | cur :: rest =>
      match fuel with
      | 0 => None
      | S fuel' => walk fuel' g (visit g cur w rest)
      end
  end.

(** The paths that pass the [seen] test, in the order they are marked. *)
Fixpoint processed (fuel : nat) (g : Graph) (w : Walk) : list string :=
  match stack w, fuel with
  | cur :: rest, S fuel' =>
      (if bool_decide (cur = ""%string) || bool_decide (cur ∈ seen w) then []
       else [cur]) ++ processed fuel' g (visit g cur w rest)
  | _, _ => []
  end.

(** Number of reverse edges leaving paths that are not yet in [seen]. *)
Definition edge_weight (seen : gset string) (kv : string * gset string) : nat :=
  if bool_decide (kv.1 ∈ seen) then 0 else size kv.2.

Definition pending_edges (g : Graph) (seen : gset string) : nat :=
  sum_list (edge_weight seen <$> map_to_list (dependents g)).

(** What the module reads from Node during one synchronous call:
    [path.resolve], [path.dirname], [path.extname], [fs.existsSync], the
    file contents, the files found by the recursive directory walk
    [walkDir], the successive matches (first capture group) of the regular
    expression of [scanIncludes], and the module constants. *)
Record Env : Type := {
  pathResolve : string → string → string;
  dirname : string → string;
  extname : string → string;
  existsSync : string → bool;
  readFileSync : string → string;
  walkDir : string → list string;
  include_matches : string → list string;
  CWD : string;
  PAGES_DIR : string;
  PARTIALS_DIR : string
}.

(** [readEjsFile(filePath)] *)
Definition readEjsFile (env : Env) (filePath : string) : string :=
  Scanner.stripEjsComments (readFileSync env filePath).

(** [resolveInclude(fromFile, includePath)] *)
Definition resolveInclude (env : Env) (fromFile includePath : string) : string :=
  let base := pathResolve env (dirname env fromFile) includePath in
  if bool_decide (extname env base = ".ejs"%string) then base
  else
    let withExt := (base ++ ".ejs")%string in
    if existsSync env withExt then withExt
    else if existsSync env base then base
    else withExt.

(** [scanIncludes(filePath)] *)
Definition scanIncludes (env : Env) (filePath : string) : gset string :=
  let src := readEjsFile env filePath in
  foldl (λ (targets : gset string) inc,
           let resolved := resolveInclude env filePath inc in
           if existsSync env resolved then targets ∪ {[resolved]} else targets)
        ∅ (include_matches env src).

(** Body of [for (const t of incs)]: register [file] as a dependent of [t]. *)
Definition add_dependent (file : string) (dependents : gmap string (gset string))
    (t : string) : gmap string (gset string) :=
  let dependents :=
    match dependents !! t with
    | None => <[t := ∅]> dependents
    | Some _ => dependents
    end in
  match dependents !! t with
  | Some deps => <[t := deps ∪ {[file]}]> dependents
  | None => dependents
  end.

(** Body of [for (const file of universe)] on the pair of maps. *)
Definition scan_file (env : Env)
    (maps : gmap string (gset string) * gmap string (gset string))
    (file : string) : gmap string (gset string) * gmap string (gset string) :=
  let incs := scanIncludes env file in
  (<[file := incs]> maps.1, foldl (add_dependent file) maps.2 (elements incs)).

(** The loop of [buildDependencyGraph] over the files of the universe. *)
Definition scan_files (env : Env) (files : list string)
  : gmap string (gset string) * gmap string (gset string) :=
  foldl (scan_file env) (∅, ∅) files.

(** [buildDependencyGraph()].  A [Set] is iterated in insertion order, which
    a [gset] does not record; the loops run over [elements], and the maps
    built are the same for every order. *)
Definition buildDependencyGraph (env : Env) : Graph :=
  let pages : gset string := list_to_set (walkDir env (PAGES_DIR env)) in
  let partials : gset string := list_to_set (walkDir env (PARTIALS_DIR env)) in
  let universe := pages ∪ partials in
  let maps := scan_files env (elements universe) in
  {| pages := pages; partials := partials;
     includes := maps.1; dependents := maps.2 |}.

(** The paths of [changedPaths] after [pathResolve(CWD, p)]. *)
Definition normalized (env : Env) (changedPaths : list string) : list string :=
  pathResolve env (CWD env) <$> changedPaths.

(** The traversal state after the first loop pushed every normalised path. *)
Definition initial_walk (env : Env) (changedPaths : list string) : Walk :=
  {| result := ∅; seen := ∅; stack := reverse (normalized env changedPaths) |}.

(** Every iteration pops one path, and the dependents of a path are pushed
    at most once: [walk_budget] iterations are enough
    ([getImpactedPages_run_returns]). *)
Definition walk_budget (changedPaths : list string) (g : Graph) : nat :=
  length changedPaths + pending_edges g ∅.

Definition getImpactedPages_run (env : Env) (changedPaths : list string)
    (g : Graph) : option (gset string) :=
  walk (walk_budget changedPaths g) g (initial_walk env changedPaths).

(** [getImpactedPages(changedPaths, graph)] *)
Definition getImpactedPages (env : Env) (changedPaths : list string) (g : Graph)
  : gset string :=
  default ∅ (getImpactedPages_run env changedPaths g).

(** [x] is reached from one of [init] along reverse edges. *)
Definition reached (g : Graph) (init : list string) (x : string) : Prop :=
  ∃ c, c ∈ init ∧ rtc (dependents_edge g) c x.

(** Invariant of the [while] loop of [getImpactedPages]. *)
Record walk_inv (g : Graph) (init : list string) (w : Walk) : Prop := {
  inv_result : ∀ x, x ∈ result w → x ∈ pages g ∧ reached g init x;
  inv_seen : ∀ x, x ∈ seen w → reached g init x;
  inv_stack : ∀ x, x ∈ stack w → reached g init x ∧ x ≠ ""%string;
  inv_init : ∀ c, c ∈ init → c ∈ seen w ∨ c ∈ stack w;
  inv_closed : ∀ x u, x ∈ seen w → dependents_edge g x u →
                      u ∈ seen w ∨ u ∈ stack w;
  inv_pages : ∀ x, x ∈ seen w → x ∈ pages g → x ∈ result w
}.

(** No set of the reverse map holds the empty string (file paths are not
    empty). *)
Definition paths_nonempty (g : Graph) : Prop :=
  map_Forall (λ _ (deps : gset string), ""%string ∉ deps) (dependents g).

(** *** Properties of the graph builder and of the impact analysis *)

Lemma add_dependent_has file m t b a :
  map_has (add_dependent file m t) b a ↔ map_has m b a ∨ (b = t ∧ a = file).
Proof.
  unfold add_dependent, map_has.
  destruct (m !! t) as [deps|] eqn:E.
  - rewrite E. destruct (decide (b = t)) as [->|Hne].
    + rewrite lookup_insert_eq. split.
      * intros (s & [= <-] & Ha). apply elem_of_union in Ha as [Ha|Ha].
        -- left. eauto.
        -- right. split; [done|]. by apply elem_of_singleton in Ha.
      * intros [(s & Hs & Ha)|[_ ->]]; eexists; (split; [done|]).
        -- rewrite E in Hs. injection Hs as ->. set_solver.
        -- set_solver.
    + rewrite lookup_insert_ne by done. naive_solver.
  - rewrite lookup_insert_eq. destruct (decide (b = t)) as [->|Hne].
    + rewrite lookup_insert_eq. split.
      * intros (s & [= <-] & Ha). right. set_solver.
      * intros [(s & Hs & Ha)|[_ ->]]; [congruence|].
        eexists. split; [done|]. set_solver.
    + rewrite !lookup_insert_ne by done. naive_solver.
Qed.

Lemma foldl_add_dependent_has file ts m b a :
  map_has (foldl (add_dependent file) m ts) b a
  ↔ map_has m b a ∨ (b ∈ ts ∧ a = file).
Proof.
  revert m. induction ts as [|t ts IH]; intros m; simpl.
  - set_solver.
  - rewrite IH, add_dependent_has. set_solver.
Qed.

Lemma scan_files_spec env files :
  (∀ a b, map_has (scan_files env files).1 a b ↔ a ∈ files ∧ b ∈ scanIncludes env a)
  ∧ (∀ b a, map_has (scan_files env files).2 b a ↔ a ∈ files ∧ b ∈ scanIncludes env a).
Proof.
  unfold scan_files. induction files as [|file files [IH1 IH2]] using rev_ind.
  - simpl. unfold map_has. split; intros a b; rewrite lookup_empty; set_solver.
  - rewrite foldl_app. simpl. split; intros a b.
    + unfold map_has at 1. destruct (decide (a = file)) as [->|Hne].
      * rewrite lookup_insert_eq. set_solver.
      * rewrite lookup_insert_ne by done.
        fold (map_has (foldl (scan_file env) (∅, ∅) files).1 a b).
        rewrite IH1. set_solver.
    + rewrite foldl_add_dependent_has, IH2, elem_of_elements. set_solver.
Qed.

Lemma visit_dependents_spec g vis us res stk :
  let acc := foldl (visit_dependent g vis) (res, stk) us in
  (∀ x, x ∈ acc.1 ↔ x ∈ res ∨ (x ∈ us ∧ x ∈ pages g))
  ∧ (∀ x, x ∈ acc.2 ↔ x ∈ stk ∨ (x ∈ us ∧ x ∉ vis))
  ∧ length acc.2 ≤ length stk + length us.
Proof.
  revert res stk. induction us as [|u us IH]; intros res stk; simpl.
  - split; [set_solver|]. split; [set_solver|lia].
  - destruct (IH (visit_dependent g vis (res, stk) u).1
                 (visit_dependent g vis (res, stk) u).2) as (H1 & H2 & H3).
    rewrite <- surjective_pairing in H1, H2, H3.
    split; [|split].
    + intros x. rewrite H1. unfold visit_dependent. simpl.
      case_bool_decide; set_solver.
    + intros x. rewrite H2. unfold visit_dependent. simpl.
      case_bool_decide; set_solver.
    + etrans; [exact H3|]. unfold visit_dependent. simpl.
      case_bool_decide; simpl; lia.
Qed.

Lemma sum_weights_cons vis kv (l : list (string * gset string)) :
  sum_list (edge_weight vis <$> kv :: l)
  = edge_weight vis kv + sum_list (edge_weight vis <$> l).
Proof. reflexivity. Qed.

Lemma edge_weight_mark vis cur k v :
  edge_weight (vis ∪ {[cur]}) (k, v)
  = if bool_decide (k = cur) then 0 else edge_weight vis (k, v).
Proof.
  unfold edge_weight. simpl. repeat case_bool_decide; set_solver.
Qed.

Lemma sum_weights_mark (l : list (string * gset string)) vis cur :
  NoDup l.*1 → cur ∉ vis →
  (∀ ups, (cur, ups) ∈ l →
     sum_list (edge_weight (vis ∪ {[cur]}) <$> l) + size ups
     = sum_list (edge_weight vis <$> l))
  ∧ (cur ∉ l.*1 →
     sum_list (edge_weight (vis ∪ {[cur]}) <$> l) = sum_list (edge_weight vis <$> l)).
Proof.
  intros Hnd Hcur. induction l as [|[k v] l IH].
  - split; [set_solver|done].
  - rewrite fmap_cons in Hnd. apply NoDup_cons in Hnd as [Hk Hnd].
    destruct (IH Hnd) as [IH1 IH2]. rewrite !sum_weights_cons, edge_weight_mark.
    split.
    + intros ups [[= <- <-]|Hin]%elem_of_cons.
      * rewrite IH2 by done. rewrite bool_decide_eq_true_2 by done.
        unfold edge_weight. simpl. rewrite bool_decide_eq_false_2 by done. lia.
      * assert (k ≠ cur) as Hne.
        { intros ->. apply Hk. apply list_elem_of_fmap. by exists (cur, ups). }
        rewrite <- (IH1 ups Hin). rewrite bool_decide_eq_false_2 by done. lia.
    + rewrite fmap_cons. intros Hnot. apply not_elem_of_cons in Hnot as [Hne Hnot].
      rewrite IH2 by done. simpl in Hne.
      rewrite bool_decide_eq_false_2 by done. done.
Qed.

Lemma pending_edges_mark g vis cur :
  cur ∉ vis →
  pending_edges g (vis ∪ {[cur]})
  + match dependents g !! cur with Some ups => size ups | None => 0 end
  = pending_edges g vis.
Proof.
  intros Hcur. unfold pending_edges.
  destruct (sum_weights_mark (map_to_list (dependents g)) vis cur) as [H1 H2];
    [apply NoDup_fst_map_to_list|done|].
  fold (edge_weight vis) (edge_weight (vis ∪ {[cur]})).
  destruct (dependents g !! cur) as [ups|] eqn:E.
  - apply H1. by apply elem_of_map_to_list.
  - rewrite Nat.add_0_r. apply H2.
    intros ([k v] & -> & Hin)%list_elem_of_fmap. simpl in *.
    apply elem_of_map_to_list in Hin. congruence.
Qed.

(** Every iteration lowers the number of stacked paths plus pending edges. *)
Lemma visit_decreases g cur w rest :
  length (stack (visit g cur w rest)) + pending_edges g (seen (visit g cur w rest))
  ≤ length rest + pending_edges g (seen w).
Proof.
  unfold visit.
  destruct (bool_decide (cur = ""%string) || bool_decide (cur ∈ seen w)) eqn:C.
  - simpl. lia.
  - apply orb_false_elim in C as [_ C]. apply bool_decide_eq_false in C.
    pose proof (pending_edges_mark g (seen w) cur C) as Hm.
    destruct (dependents g !! cur) as [ups|]; simpl.
    + destruct (visit_dependents_spec g (seen w ∪ {[cur]}) (elements ups)
        (if bool_decide (cur ∈ pages g) then result w ∪ {[cur]} else result w)
        rest) as (_ & _ & Hlen).
      simpl in Hlen. change (length (elements ups)) with (size ups) in Hlen. lia.
    + lia.
Qed.

Lemma walk_returns_fuel g fuel w :
  length (stack w) + pending_edges g (seen w) ≤ fuel → is_Some (walk fuel g w).
Proof.
  revert w. induction fuel as [|fuel IH]; intros w Hf;
    destruct w as [res vis [|cur rest]]; simpl in *; try done.
  - lia.
  - apply IH. etrans; [apply visit_decreases|]. simpl. lia.
Qed.

(** A larger budget does not change the result of the traversal. *)
Lemma walk_more_fuel g fuel fuel' w r :
  fuel ≤ fuel' → walk fuel g w = Some r → walk fuel' g w = Some r.
Proof.
  revert fuel' w. induction fuel as [|fuel IH]; intros fuel' [res vis stk] Hle;
    destruct stk as [|cur rest]; simpl; try done.
  - by destruct fuel'.
  - by destruct fuel'.
  - destruct fuel' as [|fuel']; [lia|]. simpl. apply IH. lia.
Qed.
Lemma getImpactedPages_run_returns env changedPaths g :
  getImpactedPages_run env changedPaths g
  = Some (getImpactedPages env changedPaths g).
Proof.
  unfold getImpactedPages.
  destruct (walk_returns_fuel g (walk_budget changedPaths g)
              (initial_walk env changedPaths)) as [r Hr].
  - unfold walk_budget, initial_walk, normalized. simpl.
    rewrite length_reverse, length_fmap. done.
  - unfold getImpactedPages_run. by rewrite Hr.
Qed.

Lemma reached_step g init x u :
  reached g init x → dependents_edge g x u → reached g init u.
Proof. intros (c & Hc & Hr) He. exists c. split; [done|]. by eapply rtc_r. Qed.

Lemma visit_inv g init cur rest res vis :
  (∀ b a, dependents_edge g b a → a ≠ ""%string) →
  walk_inv g init {| result := res; seen := vis; stack := cur :: rest |} →
  walk_inv g init (visit g cur {| result := res; seen := vis; stack := cur :: rest |} rest).
Proof.
  intros Hne [Hres Hseen Hstack Hinit Hclosed Hpages]. simpl in *.
  destruct (Hstack cur ltac:(set_solver)) as [Hcur Hcur_ne].
  unfold visit. simpl.
  rewrite (bool_decide_eq_false_2 (cur = ""%string)) by done. simpl.
  case_bool_decide as Hin.
  { split; simpl; try done.
    - intros x Hx. apply Hstack. set_solver.
    - intros c Hc. destruct (Hinit c Hc) as [?|[->|?]%elem_of_cons]; auto.
    - intros x u Hx He.
      destruct (Hclosed x u Hx He) as [?|[->|?]%elem_of_cons]; auto. }
  set (res' := if bool_decide (cur ∈ pages g) then res ∪ {[cur]} else res).
  assert (∀ x, x ∈ res' ↔ x ∈ res ∨ (x = cur ∧ cur ∈ pages g)) as Hres'.
  { intros x. unfold res'. case_bool_decide; set_solver. }
  destruct (dependents g !! cur) as [ups|] eqn:E.
  - destruct (visit_dependents_spec g (vis ∪ {[cur]}) (elements ups) res' rest)
      as (H1 & H2 & _).
    assert (∀ u, u ∈ ups ↔ dependents_edge g cur u) as Hups.
    { intros u. unfold dependents_edge, map_has. rewrite E. naive_solver. }
    split; simpl.
    + intros x [[Hx|[-> Hx]]%Hres'|[Hx Hp]]%H1; [by apply Hres|done|].
      split; [done|]. eapply reached_step; [exact Hcur|].
      apply Hups. by apply elem_of_elements.
    + intros x [Hx| ->%elem_of_singleton]%elem_of_union; [by apply Hseen|done].
    + intros x [Hx|[Hx _]]%H2; [apply Hstack; set_solver|].
      apply elem_of_elements, Hups in Hx. split; [by eapply reached_step|].
      by eapply Hne.
    + intros c Hc. destruct (Hinit c Hc) as [?|[->|?]%elem_of_cons].
      * left. set_solver.
      * left. set_solver.
      * right. apply H2. by left.
    + intros x u [Hx| ->%elem_of_singleton]%elem_of_union He.
      * destruct (Hclosed x u Hx He) as [?|[->|?]%elem_of_cons].
        -- left. set_solver.
        -- left. set_solver.
        -- right. apply H2. by left.
      * destruct (decide (u ∈ vis ∪ {[cur]})); [by left|].
        right. apply H2. right. split; [|done].
        by apply elem_of_elements, Hups.
    + intros x [Hx| ->%elem_of_singleton]%elem_of_union Hp; apply H1; left;
        apply Hres'; [left; by apply Hpages|by right].
  - split; simpl.
    + intros x [Hx|[-> Hx]]%Hres'; [by apply Hres|done].
    + intros x [Hx| ->%elem_of_singleton]%elem_of_union; [by apply Hseen|done].
    + intros x Hx. apply Hstack. set_solver.
    + intros c Hc. destruct (Hinit c Hc) as [?|[->|?]%elem_of_cons].
      * left. set_solver.
      * left. set_solver.
      * by right.
    + intros x u [Hx| ->%elem_of_singleton]%elem_of_union He.
      * destruct (Hclosed x u Hx He) as [?|[->|?]%elem_of_cons].
        -- left. set_solver.
        -- left. set_solver.
        -- by right.
      * destruct He as (deps & Hd & _). congruence.
    + intros x [Hx| ->%elem_of_singleton]%elem_of_union Hp; apply Hres';
        [left; by apply Hpages|by right].
Qed.

Lemma walk_inv_result g init fuel w r :
  (∀ b a, dependents_edge g b a → a ≠ ""%string) →
  walk_inv g init w → walk fuel g w = Some r →
  ∀ x, x ∈ r ↔ x ∈ pages g ∧ reached g init x.
Proof.
  intros Hne. revert w. induction fuel as [|fuel IH]; intros [res vis stk] Hinv;
    destruct stk as [|cur rest]; simpl; try done.
  3: { intros H. eapply IH; [|exact H]. by apply visit_inv. }
  all: intros [= <-] x; destruct Hinv as [Hres Hseen Hstack Hinit Hclosed Hpages];
    simpl in *; (split; [by apply Hres|]).
  all: intros [Hp (c & Hc & Hr)]; apply Hpages; [|done].
  all: assert (c ∈ vis) as Hcs by (destruct (Hinit c Hc); [done|set_solver]).
  all: clear Hc Hp; induction Hr as [|a b d Hab _ IHr]; [done|].
  all: apply IHr; destruct (Hclosed a b Hcs Hab); [done|set_solver].
Qed.

Lemma initial_walk_inv env g changedPaths :
  ""%string ∉ normalized env changedPaths →
  walk_inv g (normalized env changedPaths) (initial_walk env changedPaths).
Proof.
  intros Hne. unfold initial_walk.
  split; simpl; [set_solver|set_solver| | |set_solver|set_solver].
  - intros x Hx. rewrite elem_of_reverse in Hx. split.
    + exists x. split; [done|]. apply rtc_refl.
    + by intros ->.
  - intros c Hc. right. by rewrite elem_of_reverse.
Qed.

Lemma rtc_transposed g x c :
  transposed g → rtc (dependents_edge g) c x ↔ rtc (includes_edge g) x c.
Proof.
  intros Ht. split.
  - induction 1 as [|a b d Hab _ IH]; [apply rtc_refl|].
    eapply rtc_r; [exact IH|]. by apply Ht.
  - induction 1 as [|a b d Hab _ IH]; [apply rtc_refl|].
    eapply rtc_r; [exact IH|]. by apply Ht.
Qed.
Lemma seen_visit g cur w rest :
  seen (visit g cur w rest)
  = if bool_decide (cur = ""%string) || bool_decide (cur ∈ seen w) then seen w
    else seen w ∪ {[cur]}.
Proof.
  unfold visit. destruct (_ || _); [done|].
  by destruct (dependents g !! cur).
Qed.

(** No path passes the [seen] test twice. *)
Lemma processed_NoDup g fuel w :
  NoDup (processed fuel g w) ∧ ∀ x, x ∈ processed fuel g w → x ∉ seen w.
Proof.
  revert w. induction fuel as [|fuel IH]; intros [res vis [|cur rest]]; simpl;
    try (split; [constructor|set_solver]).
  destruct (IH (visit g cur {| result := res; seen := vis; stack := cur :: rest |} rest))
    as [Hnd Hnot].
  rewrite seen_visit in Hnot. simpl in Hnot.
  destruct (bool_decide (cur = ""%string) || bool_decide (cur ∈ vis)) eqn:C; simpl.
  - done.
  - apply orb_false_elim in C as [_ C]. apply bool_decide_eq_false in C.
    split.
    + apply NoDup_cons. split; [|done]. intros Hin%Hnot. set_solver.
    + intros x [->|Hin%Hnot]%elem_of_cons; set_solver.
Qed.

(** C1. In the graph returned by [buildDependencyGraph] the forward and the
    reverse map are exact transposes: for all files [a] and [b], [b] is in
    the include set of [a] if and only if [a] is in the dependent set of
    [b]. *)
Theorem buildDependencyGraph_transposed (env : Env) :
  transposed (buildDependencyGraph env).
Proof.
  intros a b. unfold includes_edge, dependents_edge, buildDependencyGraph. simpl.
  destruct (scan_files_spec env
    (elements (list_to_set (walkDir env (PAGES_DIR env))
               ∪ list_to_set (walkDir env (PARTIALS_DIR env)) : gset string)))
    as [H1 H2].
  by rewrite H1, H2.
Qed.

(** The graphs built from a directory walk that lists no empty path have no
    empty path in their reverse map. *)
Lemma buildDependencyGraph_paths_nonempty env :
  ""%string ∉ walkDir env (PAGES_DIR env) →
  ""%string ∉ walkDir env (PARTIALS_DIR env) →
  paths_nonempty (buildDependencyGraph env).
Proof.
  intros Hp Hq b deps Hb Hin. unfold buildDependencyGraph in Hb. simpl in Hb.
  destruct (scan_files_spec env
    (elements (list_to_set (walkDir env (PAGES_DIR env))
               ∪ list_to_set (walkDir env (PARTIALS_DIR env)) : gset string)))
    as [_ H2].
  assert (map_has (scan_files env
    (elements (list_to_set (walkDir env (PAGES_DIR env))
               ∪ list_to_set (walkDir env (PARTIALS_DIR env)) : gset string))).2
    b ""%string) as Hhas by (by exists deps).
  apply H2 in Hhas as [Hfile _]. set_solver.
Qed.
(** C6. [getImpactedPages] terminates for every graph and every list of
    changed paths, cyclic graphs included: the loop exits within
    [walk_budget] iterations (one per changed path and one per reverse
    edge), and no path passes the [seen] test more than once. *)
Theorem getImpactedPages_terminates (env : Env) (changedPaths : list string)
    (g : Graph) :
  (∃ r, walk (walk_budget changedPaths g) g (initial_walk env changedPaths) = Some r
        ∧ getImpactedPages env changedPaths g = r)
  ∧ ∀ fuel, NoDup (processed fuel g (initial_walk env changedPaths)).
Proof.
  split.
  - exists (getImpactedPages env changedPaths g). split; [|done].
    apply getImpactedPages_run_returns.
  - intros fuel. apply processed_NoDup.
Qed.

(** C2. [getImpactedPages] returns exactly the pages reached from a changed
    path along reverse edges, in zero or more steps, so a changed path that
    is a page is itself returned; when the two maps are transposes these are
    the pages from which a changed path is reached along include edges.  A
    changed path [p] counts as [pathResolve(CWD, p)], which is [p] itself
    when the paths given are absolute already.  Paths are not empty:
    [path.resolve] never returns the empty string, and no file path in the
    graph is empty. *)
Theorem getImpactedPages_exact (env : Env) (changedPaths : list string)
    (g : Graph) (x : string) :
  (∀ p, p ∈ changedPaths → pathResolve env (CWD env) p ≠ ""%string) →
  paths_nonempty g →
  (x ∈ getImpactedPages env changedPaths g
   ↔ x ∈ pages g
     ∧ ∃ p, p ∈ changedPaths
            ∧ rtc (dependents_edge g) (pathResolve env (CWD env) p) x)
  ∧ (transposed g →
     (x ∈ getImpactedPages env changedPaths g
      ↔ x ∈ pages g
        ∧ ∃ p, p ∈ changedPaths
               ∧ rtc (includes_edge g) x (pathResolve env (CWD env) p)))
  ∧ ((∀ p, p ∈ changedPaths → pathResolve env (CWD env) p = p) →
     (x ∈ getImpactedPages env changedPaths g
      ↔ x ∈ pages g ∧ ∃ p, p ∈ changedPaths ∧ rtc (dependents_edge g) p x)).
Proof.
  intros Hne Hg.
  assert (""%string ∉ normalized env changedPaths) as Hne'.
  { unfold normalized. intros (p & Hp & Hin)%list_elem_of_fmap.
    by apply (Hne p Hin). }
  assert (x ∈ getImpactedPages env changedPaths g
   ↔ x ∈ pages g
     ∧ ∃ p, p ∈ changedPaths
            ∧ rtc (dependents_edge g) (pathResolve env (CWD env) p) x) as H.
  { assert (x ∈ getImpactedPages env changedPaths g
            ↔ x ∈ pages g ∧ reached g (normalized env changedPaths) x) as ->.
    { eapply walk_inv_result.
      - intros b a (deps & Hd & Ha) ->. by apply (Hg b deps Hd).
      - by apply initial_walk_inv.
      - apply getImpactedPages_run_returns. }
    unfold reached, normalized. split; intros [Hp (c & Hc & Hr)]; (split; [done|]).
    + apply list_elem_of_fmap in Hc as (p & -> & Hin). by exists p.
    + exists (pathResolve env (CWD env) c). split; [|done].
      apply list_elem_of_fmap. by exists c. }
  split; [done|]. split.
  - intros Ht. rewrite H.
    split; intros [Hp (c & Hc & Hr)]; (split; [done|]); exists c; (split; [done|]);
      by apply (rtc_transposed g x _ Ht).
  - intros Habs. rewrite H.
    split; intros [Hp (c & Hc & Hr)]; (split; [done|]); exists c; (split; [done|]).
    + by rewrite <- (Habs c Hc).
    + by rewrite (Habs c Hc).
Qed.

(** C7. [resolveInclude] resolves the reference against the directory of the
    including file and returns, for every input: the resolved path when it
    already has the extension [.ejs]; otherwise the path with [.ejs]
    appended when that file exists; otherwise the bare resolved path when
    that exists; otherwise the path with [.ejs] appended. *)
Theorem resolveInclude_cases (env : Env) (fromFile includePath : string) :
  let base := pathResolve env (dirname env fromFile) includePath in
  let withExt := (base ++ ".ejs")%string in
  (extname env base = ".ejs"%string →
     resolveInclude env fromFile includePath = base)
  ∧ (extname env base ≠ ".ejs"%string → existsSync env withExt = true →
       resolveInclude env fromFile includePath = withExt)
  ∧ (extname env base ≠ ".ejs"%string → existsSync env withExt = false →
       existsSync env base = true →
       resolveInclude env fromFile includePath = base)
  ∧ (extname env base ≠ ".ejs"%string → existsSync env withExt = false →
       existsSync env base = false →
       resolveInclude env fromFile includePath = withExt).
Proof.
  intros base withExt. unfold resolveInclude. fold base. fold withExt.
  repeat split.
  - intros E. by rewrite bool_decide_eq_true_2.
  - intros E ->. by rewrite bool_decide_eq_false_2.
  - intros E -> ->. by rewrite bool_decide_eq_false_2.
  - intros E -> ->. by rewrite bool_decide_eq_false_2.
Qed.

End CompileEjs.

(** ** A site of four files: page [a] includes [nav], [nav] includes
    [logo], page [b] includes nothing *)
Module Site.
Import CompileEjs.
Local Open Scope string_scope.

Definition a_ejs : string := "/site/src/pages/a.ejs".
Definition b_ejs : string := "/site/src/pages/b.ejs".
Definition nav_ejs : string := "/site/src/partials/nav.ejs".
Definition logo_ejs : string := "/site/src/partials/logo.ejs".

Definition env : Env := {|
  pathResolve := λ from to,
    if String.eqb to "../partials/nav" then "/site/src/partials/nav"
    else if String.eqb to "logo" then "/site/src/partials/logo"
    else to;
  dirname := λ p,
    if String.eqb p a_ejs || String.eqb p b_ejs then "/site/src/pages"
    else "/site/src/partials";
  extname := λ p,
    if bool_decide (p ∈ [a_ejs; b_ejs; nav_ejs; logo_ejs]) then ".ejs" else "";
  existsSync := λ p, bool_decide (p ∈ [a_ejs; b_ejs; nav_ejs; logo_ejs]);
  readFileSync := λ p,
    if String.eqb p a_ejs
    then "<%# menu: <%- include('old') %> %><%- include('../partials/nav') %>"
    else if String.eqb p nav_ejs then "<nav><%- include('logo') %></nav>"
    else "<p>text</p>";
  walkDir := λ d,
    if String.eqb d "/site/src/pages" then [a_ejs; b_ejs]
    else if String.eqb d "/site/src/partials" then [nav_ejs; logo_ejs]
    else [];
  include_matches := λ src,
    if String.eqb src "<%- include('../partials/nav') %>" then ["../partials/nav"]
    else if String.eqb src "<nav><%- include('logo') %></nav>" then ["logo"]
    else [];
  CWD := "/site";
  PAGES_DIR := "/site/src/pages";
  PARTIALS_DIR := "/site/src/partials"
|}.

Definition graph : Graph := buildDependencyGraph env.

(** The comment of [a.ejs] holds an [include] that adds no edge. *)
Example graph_includes :
  map_to_list (elements <$> includes graph)
  = [(a_ejs, [nav_ejs]); (b_ejs, []); (nav_ejs, [logo_ejs]); (logo_ejs, [])].
Proof. vm_compute. reflexivity. Qed.

Example graph_dependents :
  map_to_list (elements <$> dependents graph)
  = [(nav_ejs, [a_ejs]); (logo_ejs, [nav_ejs])].
Proof. vm_compute. reflexivity. Qed.

(** A reference without extension resolves to the existing [.ejs] file; one
    that names no file resolves to the path with [.ejs] appended. *)
Example resolve_nav :
  resolveInclude env a_ejs "../partials/nav" = nav_ejs.
Proof. reflexivity. Qed.

Example resolve_missing :
  resolveInclude env a_ejs "/site/src/partials/footer"
  = "/site/src/partials/footer.ejs".
Proof. reflexivity. Qed.

(** Changing [logo] alone impacts exactly page [a], through [nav]. *)
Example impacted_logo : elements (getImpactedPages env [logo_ejs] graph) = [a_ejs].
Proof. vm_compute. reflexivity. Qed.

Example impacted_nav : elements (getImpactedPages env [nav_ejs] graph) = [a_ejs].
Proof. vm_compute. reflexivity. Qed.

Example impacted_page : elements (getImpactedPages env [b_ejs] graph) = [b_ejs].
Proof. vm_compute. reflexivity. Qed.

Example impacted_unknown :
  elements (getImpactedPages env ["/site/readme.ejs"] graph) = [].
Proof. vm_compute. reflexivity. Qed.

(** Two partials that include one another: the traversal still ends. *)
Definition cyclic : Graph :=
  {| pages := {[a_ejs]};
     partials := {[nav_ejs; logo_ejs]};
     includes := {[ a_ejs := {[nav_ejs]}; nav_ejs := {[logo_ejs]};
                    logo_ejs := {[nav_ejs]} ]};
     dependents := {[ nav_ejs := {[a_ejs; logo_ejs]}; logo_ejs := {[nav_ejs]} ]} |}.

Example impacted_cycle :
  elements (getImpactedPages env [logo_ejs] cyclic) = [a_ejs]
  ∧ processed (walk_budget [logo_ejs] cyclic) cyclic (initial_walk env [logo_ejs])
    = [logo_ejs; nav_ejs; a_ejs].
Proof. vm_compute. split; reflexivity. Qed.

Lemma getImpactedPages_exact_witness :
  (∀ p, p ∈ [logo_ejs] → pathResolve env (CWD env) p ≠ "")
  ∧ paths_nonempty graph
  ∧ (a_ejs ∈ getImpactedPages env [logo_ejs] graph
     ↔ a_ejs ∈ pages graph
       ∧ ∃ p, p ∈ [logo_ejs]
              ∧ rtc (dependents_edge graph) (pathResolve env (CWD env) p) a_ejs)
  ∧ (transposed graph →
     (a_ejs ∈ getImpactedPages env [logo_ejs] graph
      ↔ a_ejs ∈ pages graph
        ∧ ∃ p, p ∈ [logo_ejs]
               ∧ rtc (includes_edge graph) a_ejs (pathResolve env (CWD env) p)))
  ∧ ((∀ p, p ∈ [logo_ejs] → pathResolve env (CWD env) p = p) →
     (a_ejs ∈ getImpactedPages env [logo_ejs] graph
      ↔ a_ejs ∈ pages graph
        ∧ ∃ p, p ∈ [logo_ejs] ∧ rtc (dependents_edge graph) p a_ejs)).
Proof.
  assert (∀ p, p ∈ [logo_ejs] → pathResolve env (CWD env) p ≠ "") as H1.
  { intros p ->%list_elem_of_singleton. by_evaluation. }
  assert (paths_nonempty graph) as H2 by (unfold paths_nonempty; by_evaluation).
  split; [exact H1|]. split; [exact H2|].
  exact (getImpactedPages_exact env [logo_ejs] graph a_ejs H1 H2).
Defined.

End Site.

(** ** [vite.config.js]: the change scheduler of [ejsLiveReload] *)
Module ViteConfig.
Import CompileEjs.

(** What the plugin does to the outside, in order.  [Flush changed] marks an
    entry into [flush] with the array [changed]; the others are the calls
    [compileAll()], [compilePage(page)] and [server.ws.send(...)]. *)
Inductive Effect : Type :=
| Flush (changed : list string)
| CompileAll
| CompilePage (page : string)
| FullReload.

(** A timeout armed with [setTimeout] and not yet fired or cleared. *)
Record Timeout : Type := { handle : nat; due : nat }.

(** The closure variables of [ejsLiveReload] ([graph], [pending], [timer]),
    and the event loop around them: the clock in milliseconds, the armed
    timeouts, the next timer handle, and the log of effects. *)
Record World : Type := {
  graph : option Graph;
  pending : gset string;
  timer : option nat;
  now : nat;
  timeouts : list Timeout;
  next_handle : nat;
  log : list Effect
}.

(** What the plugin needs from its host: the Node environment of
    [compile-ejs.js]; [path.isAbsolute]; which collaborator calls throw; at
    which times [buildDependencyGraph()] rejects, a file-system call of its
    walk or of its reads having thrown; and the order in which [for ... of]
    goes through a [Set] of pages, its insertion order, which is some
    enumeration of its elements. *)
Record Host : Type := {
  env : Env;
  pathIsAbsolute : string → bool;
  throws : Effect → bool;
  graph_throws : nat → bool;
  page_order : gset string → list string;
  page_order_perm : ∀ pages, page_order pages ≡ₚ elements pages
}.

(** Computations on the world that may throw; the world reached before a
    throw is kept. *)
Definition M (A : Type) : Type := World → option A * World.

#[export] Instance M_ret : MRet M := λ A x w, (Some x, w).
#[export] Instance M_bind : MBind M := λ A B f m w,
  match m w with
  | (Some x, w') => f x w'
  | (None, w') => (None, w')
  end.

Definition gets {A} (f : World → A) : M A := λ w, (Some (f w), w).
Definition modify (f : World → World) : M unit := λ w, (Some (), f w).
Definition throw {A} : M A := λ w, (None, w).

(** A callback run by the event loop: what it throws does not reach the
    plugin. *)
Definition detached (m : M unit) : M unit := λ w, (Some (), (m w).2).

Fixpoint for_each {A} (l : list A) (body : A → M unit) : M unit :=
  match l with
  | [] => mret ()
  | x :: l' => body x;; for_each l' body
  end.

Definition set_graph (g : option Graph) (w : World) : World :=
  {| graph := g; pending := pending w; timer := timer w; now := now w;
     timeouts := timeouts w; next_handle := next_handle w; log := log w |}.
Definition set_pending (p : gset string) (w : World) : World :=
  {| graph := graph w; pending := p; timer := timer w; now := now w;
     timeouts := timeouts w; next_handle := next_handle w; log := log w |}.
Definition set_timer (t : option nat) (w : World) : World :=
  {| graph := graph w; pending := pending w; timer := t; now := now w;
     timeouts := timeouts w; next_handle := next_handle w; log := log w |}.
Definition set_now (t : nat) (w : World) : World :=
  {| graph := graph w; pending := pending w; timer := timer w; now := t;
     timeouts := timeouts w; next_handle := next_handle w; log := log w |}.
Definition set_timeouts (q : list Timeout) (w : World) : World :=
  {| graph := graph w; pending := pending w; timer := timer w; now := now w;
     timeouts := q; next_handle := next_handle w; log := log w |}.
Definition set_next_handle (n : nat) (w : World) : World :=
  {| graph := graph w; pending := pending w; timer := timer w; now := now w;
     timeouts := timeouts w; next_handle := n; log := log w |}.
Definition add_log (e : Effect) (w : World) : World :=
  {| graph := graph w; pending := pending w; timer := timer w; now := now w;
     timeouts := timeouts w; next_handle := next_handle w; log := log w ++ [e] |}.

(** A call to a collaborator: logged, and it may throw. *)
Definition call (host : Host) (e : Effect) : M unit :=
  modify (add_log e);;
  if throws host e then throw else mret ().

(** [setTimeout(callback, delay)]: the only callback of this file is
    [() => flush(server)]. *)
Definition setTimeout (delay : nat) : M nat :=
  h ← gets next_handle;
  t ← gets now;
  modify (λ w, set_timeouts (timeouts w ++ [{| handle := h; due := t + delay |}]) w);;
  modify (set_next_handle (S h));;
  mret h.

(** [clearTimeout(timer)]; [clearTimeout(null)] does nothing. *)
Definition clearTimeout (t : option nat) : M unit :=
  match t with
  | Some h =>
      modify (λ w, set_timeouts (filter (λ to, handle to ≠ h) (timeouts w)) w)
  | None => mret ()
  end.

(** [toAbs(p)] *)
Definition toAbs (host : Host) (p : string) : string :=
  if pathIsAbsolute host p then p
  else pathResolve (env host) (CWD (env host)) p.

(** [flush(server)].  The function is [async]; its steps are taken in one
    piece, without other callbacks between them.  When
    [buildDependencyGraph()] rejects, [graph] keeps its value and the
    function ends there. *)
Definition flush (host : Host) : M unit :=
  changed ← gets (λ w, elements (pending w));
  modify (add_log (Flush changed));;
  modify (set_pending ∅);;
  t ← gets timer;
  clearTimeout t;;
  modify (set_timer None);;
  time ← gets now;
  (if graph_throws host time then throw else mret ());;
  let g := buildDependencyGraph (env host) in
  modify (set_graph (Some g));;
  let impacted := getImpactedPages (env host) changed g in
  (if bool_decide (size impacted = 0) then call host CompileAll
   else for_each (page_order host impacted) (λ page, call host (CompilePage page)));;
  call host FullReload.

(** [schedule(server, file)] *)
Definition schedule (file : string) : M unit :=
  modify (λ w, set_pending (pending w ∪ {[file]}) w);;
  t ← gets timer;
  match t with
  | None => h ← setTimeout 25; modify (set_timer (Some h))
  | Some _ => mret ()
  end.

(** A watcher handler made by [mkHandler(type)], called with [file]. *)
Definition mkHandler (host : Host) (file : string) : M unit :=
  if bool_decide (suffix (String.list_ascii_of_string ".ejs")
                         (String.list_ascii_of_string file))
  then schedule (toAbs host file)
  else mret ().

(** The event loop fires, in arming order, the timeouts due at time [t];
    each runs [flush]. *)
Fixpoint fire_due (host : Host) (fuel t : nat) : M unit :=
  match fuel with
  | 0 => mret ()
  | S fuel' =>
      q ← gets timeouts;
      match list_find (λ to, due to ≤ t) q with
      | Some (i, _) =>
          modify (set_timeouts (delete i q));;
          detached (flush host);;
          fire_due host fuel' t
      | None => mret ()
      end
  end.

(** Time passes until [t]. *)
Definition advance (host : Host) (t : nat) : M unit :=
  q ← gets timeouts;
  fire_due host (length q) t;;
  modify (λ w, set_now (now w `max` t) w).

(** A change notification for [file] arrives at time [t]. *)
Definition notify (host : Host) (ev : nat * string) : M unit :=
  advance host ev.1;; schedule ev.2.

(** The effects a computation adds to the log of [w]. *)
Definition effects_of {A} (m : M A) (w : World) : list Effect :=
  drop (length (log w)) (log (m w).2).

Definition is_flush (e : Effect) : bool :=
  match e with Flush _ => true | _ => false end.

(** Number of entries into [flush]. *)
Definition flushes (l : list Effect) : nat := length (filter is_flush l).

Definition compiled_pages (l : list Effect) : list string :=
  omap (λ e, match e with CompilePage p => Some p | _ => None end) l.

Definition is_compile_all (e : Effect) : bool :=
  match e with CompileAll => true | _ => false end.

Definition compile_alls (l : list Effect) : nat :=
  length (filter is_compile_all l).

(** Idle: no timer, no armed timeout, nothing pending. *)
Definition idle (w : World) : Prop :=
  timer w = None ∧ timeouts w = [] ∧ pending w = ∅.

(** The effects logged by a sequence of calls: up to the first that throws. *)
Fixpoint attempted (host : Host) (es : list Effect) : list Effect :=
  match es with
  | [] => []
  | e :: es' => e :: (if throws host e then [] else attempted host es')
  end.

(** The compile calls [flush] sets out to make for an impacted set. *)
Definition plan (host : Host) (impacted : gset string) : list Effect :=
  if bool_decide (size impacted = 0) then [CompileAll]
  else CompilePage <$> page_order host impacted.

(** The calls of a flush entered in the world [w], after its entry: none
    when the graph cannot be rebuilt, else those of the plan up to the
    first that throws, and the reload if none did. *)
Definition flush_calls (host : Host) (w : World) : list Effect :=
  if graph_throws host (now w) then []
  else attempted host
         (plan host (getImpactedPages (env host) (elements (pending w))
                       (buildDependencyGraph (env host))) ++ [FullReload]).

Definition add_logs (es : list Effect) (w : World) : World :=
  {| graph := graph w; pending := pending w; timer := timer w; now := now w;
     timeouts := timeouts w; next_handle := next_handle w; log := log w ++ es |}.

(** [clearTimeout(timer)] on the list of armed timeouts. *)
Definition cleared (t : option nat) (q : list Timeout) : list Timeout :=
  match t with
  | Some h => filter (λ to, handle to ≠ h) q
  | None => q
  end.

(** *** Properties of the scheduler *)

(** Runs the monadic steps at the head of the goal. *)
Ltac run_M :=
  unfold mbind, M_bind, gets, modify, throw, mret, M_ret, detached; simpl.

Lemma add_logs_nil w : add_logs [] w = w.
Proof. destruct w. unfold add_logs. simpl. by rewrite app_nil_r. Qed.

Lemma add_logs_cons e es w : add_logs es (add_log e w) = add_logs (e :: es) w.
Proof. unfold add_logs, add_log. simpl. by rewrite <- app_assoc. Qed.

Lemma for_each_calls host (f : string → Effect) pages w :
  (for_each pages (λ p, call host (f p)) w).2
  = add_logs (attempted host (f <$> pages)) w.
Proof.
  revert w. induction pages as [|p pages IH]; intros w; simpl.
  - by rewrite add_logs_nil.
  - unfold call. run_M.
    destruct (throws host (f p)); simpl.
    + by rewrite <- add_logs_cons, add_logs_nil.
    + rewrite IH. by rewrite add_logs_cons.
Qed.

Lemma for_each_calls_ok host (f : string → Effect) pages w :
  (for_each pages (λ p, call host (f p)) w).1
  = if forallb (λ p, negb (throws host (f p))) pages then Some () else None.
Proof.
  revert w. induction pages as [|p pages IH]; intros w; simpl; [done|].
  unfold call. run_M.
  destruct (throws host (f p)); simpl; [done|]. apply IH.
Qed.

Lemma forallb_fmap_compile host (f : string → Effect) pages :
  forallb (λ e, negb (throws host e)) (f <$> pages)
  = forallb (λ p, negb (throws host (f p))) pages.
Proof.
  induction pages as [|p pages IH]; [done|].
  rewrite fmap_cons. cbn [forallb]. by rewrite IH.
Qed.

Lemma attempted_app host es es' :
  attempted host (es ++ es')
  = attempted host es
    ++ (if forallb (λ e, negb (throws host e)) es then attempted host es' else []).
Proof.
  induction es as [|e es IH]; simpl; [done|].
  destruct (throws host e); simpl; [done|]. by rewrite IH.
Qed.

Lemma clearTimeout_run t w :
  clearTimeout t w = (Some (), set_timeouts (cleared t (timeouts w)) w).
Proof. destruct t; [done|]. by destruct w. Qed.

(** The world after [flush], whether or not a call threw. *)
Lemma flush_world host w :
  (flush host w).2
  = {| graph := if graph_throws host (now w) then graph w
                else Some (buildDependencyGraph (env host));
       pending := ∅; timer := None; now := now w;
       timeouts := cleared (timer w) (timeouts w);
       next_handle := next_handle w;
       log := log w ++ Flush (elements (pending w)) :: flush_calls host w |}.
Proof.
  set (changed := elements (pending w)).
  set (g := buildDependencyGraph (env host)).
  set (impacted := getImpactedPages (env host) changed g).
  unfold flush, flush_calls.
  fold changed. fold g. fold impacted.
  unfold mbind, M_bind, gets, modify. cbn beta iota.
  fold changed. fold impacted.
  rewrite clearTimeout_run. cbn beta iota.
  change (now (set_timer None (set_timeouts (cleared (timer (set_pending ∅
            (add_log (Flush changed) w))) (timeouts (set_pending ∅
            (add_log (Flush changed) w)))) (set_pending ∅
            (add_log (Flush changed) w))))) with (now w).
  destruct (graph_throws host (now w)).
  { unfold throw. simpl. by destruct w. }
  unfold mret, M_ret. cbn beta iota.
  set (w1 := set_graph _ _).
  assert (∀ es, add_logs es w1 = {| graph := Some g; pending := ∅; timer := None;
       now := now w; timeouts := cleared (timer w) (timeouts w);
       next_handle := next_handle w; log := log w ++ Flush changed :: es |}) as Hlogs.
  { intros es. unfold w1, add_logs. simpl. by rewrite <- app_assoc. }
  rewrite attempted_app. unfold plan. fold impacted.
  case_bool_decide as Hsize.
  - unfold call at 1. run_M.
    destruct (throws host CompileAll); simpl.
    + rewrite <- Hlogs. unfold add_logs, add_log. simpl. done.
    + unfold call. run_M.
      rewrite <- Hlogs. unfold add_logs, add_log. simpl.
      rewrite <- app_assoc. by destruct (throws host FullReload).
  - pose proof (for_each_calls host CompilePage (page_order host impacted) w1) as H2.
    pose proof (for_each_calls_ok host CompilePage (page_order host impacted) w1) as H1.
    destruct (for_each (page_order host impacted)
                (λ page, call host (CompilePage page)) w1) as [r w2].
    simpl in H1, H2. subst r w2.
    rewrite forallb_fmap_compile.
    destruct (forallb _ (page_order host impacted)).
    + unfold call. run_M.
      rewrite <- Hlogs. unfold add_logs, add_log. simpl.
      rewrite <- app_assoc. by destruct (throws host FullReload).
    + simpl. by rewrite Hlogs, app_nil_r.
Qed.

Lemma effects_of_flush host w :
  effects_of (flush host) w = Flush (elements (pending w)) :: flush_calls host w.
Proof.
  unfold effects_of. rewrite flush_world. simpl. by rewrite drop_app_length.
Qed.

Lemma attempted_prefix host es : attempted host es `prefix_of` es.
Proof.
  induction es as [|e es IH]; simpl; [done|].
  destruct (throws host e); [|by apply prefix_cons].
  by exists es.
Qed.

Lemma attempted_all host es :
  forallb (λ e, negb (throws host e)) es = true → attempted host es = es.
Proof.
  induction es as [|e es IH]; simpl; [done|].
  destruct (throws host e); simpl; [done|]. intros H. by rewrite IH.
Qed.

Lemma compiled_pages_plan (pages : list string) :
  compiled_pages (CompilePage <$> pages) = pages.
Proof.
  induction pages as [|p pages IH]; [done|]. rewrite fmap_cons.
  change (p :: compiled_pages (CompilePage <$> pages) = p :: pages).
  by rewrite IH.
Qed.

Lemma compiled_pages_app (l k : list Effect) :
  compiled_pages (l ++ k) = compiled_pages l ++ compiled_pages k.
Proof. unfold compiled_pages. apply omap_app. Qed.

Lemma flushes_prefix_zero (l k : list Effect) :
  l `prefix_of` k → flushes k = 0 → flushes l = 0.
Proof.
  intros [r ->]. unfold flushes. rewrite filter_app, length_app. lia.
Qed.

Lemma compile_alls_prefix_zero (l k : list Effect) :
  l `prefix_of` k → compile_alls k = 0 → compile_alls l = 0.
Proof.
  intros [r ->]. unfold compile_alls. rewrite filter_app, length_app. lia.
Qed.

Lemma compiled_pages_prefix (l k : list Effect) :
  l `prefix_of` k → compiled_pages l `prefix_of` compiled_pages k.
Proof.
  intros [r ->]. unfold compiled_pages. rewrite omap_app. by eexists.
Qed.

Lemma flushes_pages (pages : list string) :
  flushes (CompilePage <$> pages) = 0 ∧ compile_alls (CompilePage <$> pages) = 0.
Proof.
  unfold flushes, compile_alls.
  induction pages as [|p pages [IH1 IH2]]; [done|]. rewrite fmap_cons.
  rewrite !filter_cons_False by (simpl; auto). done.
Qed.

Lemma flushes_plan host impacted :
  flushes (plan host impacted ++ [FullReload]) = 0.
Proof.
  unfold plan, flushes. rewrite filter_app, length_app.
  case_bool_decide; [done|].
  destruct (flushes_pages (page_order host impacted)) as [Hf _]. unfold flushes in Hf.
  by rewrite Hf.
Qed.

Lemma flushes_flush_calls host w : flushes (flush_calls host w) = 0.
Proof.
  unfold flush_calls. destruct (graph_throws host (now w)); [done|].
  eapply flushes_prefix_zero; [apply attempted_prefix|apply flushes_plan].
Qed.

(** The pages compiled by the calls of a plan are the pages of the plan in
    order, up to and including the first whose call throws. *)
Lemma compiled_pages_attempted host (pages : list string) :
  let compiled :=
    compiled_pages (attempted host ((CompilePage <$> pages) ++ [FullReload])) in
  compiled `prefix_of` pages
  ∧ (∀ i p, compiled !! i = Some p → S i < length compiled →
       throws host (CompilePage p) = false)
  ∧ (length compiled < length pages →
       ∃ p, last compiled = Some p ∧ throws host (CompilePage p) = true).
Proof.
  induction pages as [|p pages (IH1 & IH2 & IH3)].
  - simpl. destruct (throws host FullReload); simpl; (split; [done|]); split;
      try done; lia.
  - rewrite fmap_cons, <- app_comm_cons. cbn [attempted].
    destruct (throws host (CompilePage p)) eqn:E.
    + change (compiled_pages [CompilePage p]) with [p]. cbv zeta.
      split; [by exists pages|]. split.
      * intros i q Hi Hlt. simpl in Hlt. lia.
      * intros _. by exists p.
    + set (rest := attempted host ((CompilePage <$> pages) ++ [FullReload])) in *.
      change (compiled_pages (CompilePage p :: rest)) with (p :: compiled_pages rest).
      cbv zeta in *. split; [by apply prefix_cons|]. split.
      * intros [|i] q Hi Hlt; simpl in *; [by injection Hi as <-|].
        apply (IH2 i q Hi). lia.
      * intros Hlt. simpl in Hlt. destruct IH3 as (q & Hq & Hthrows); [lia|].
        exists q. split; [|done]. rewrite last_cons. by rewrite Hq.
Qed.

(** C3. In a flush in which the graph is rebuilt, with the impacted set
    computed for the pending paths on that graph: when it is empty
    [compileAll] is called, once, and no page is compiled on its own; when
    it is not empty [compileAll] is not called and [compilePage] is called
    on the pages of the impacted set in the order of the set, on none of
    them twice, up to and including the first page whose call throws; so
    when no call throws the pages compiled are exactly the impacted ones.
    When the graph cannot be rebuilt nothing is compiled. *)
Theorem flush_recompiles (host : Host) (w : World) :
  let changed := elements (pending w) in
  let impacted :=
    getImpactedPages (env host) changed (buildDependencyGraph (env host)) in
  let made := effects_of (flush host) w in
  let order := page_order host impacted in
  (graph_throws host (now w) = true →
     compile_alls made = 0 ∧ compiled_pages made = [])
  ∧ (graph_throws host (now w) = false →
     (impacted = ∅ → compile_alls made = 1 ∧ compiled_pages made = [])
     ∧ (impacted ≠ ∅ →
          compile_alls made = 0
          ∧ compiled_pages made `prefix_of` order
          ∧ NoDup (compiled_pages made)
          ∧ (∀ p, p ∈ compiled_pages made → p ∈ impacted)
          ∧ (∀ i p, compiled_pages made !! i = Some p →
               S i < length (compiled_pages made) →
               throws host (CompilePage p) = false)
          ∧ (length (compiled_pages made) < length order →
               ∃ p, last (compiled_pages made) = Some p
                    ∧ throws host (CompilePage p) = true)
          ∧ ((∀ p, p ∈ impacted → throws host (CompilePage p) = false) →
               ∀ p, p ∈ compiled_pages made ↔ p ∈ impacted))).
Proof.
  intros changed impacted made order. unfold made. rewrite effects_of_flush.
  unfold flush_calls. fold changed. fold impacted. split.
  { intros ->. done. }
  intros ->. split.
  - intros ->. unfold plan. rewrite bool_decide_eq_true_2 by done. simpl.
    destruct (throws host CompileAll); [done|]. simpl.
    by destruct (throws host FullReload).
  - intros Hne.
    assert (size impacted ≠ 0) as Hsize.
    { intros H. by apply size_empty_inv, leibniz_equiv in H. }
    unfold plan. rewrite bool_decide_eq_false_2 by done. fold order.
    set (calls := CompilePage <$> order).
    pose proof (attempted_prefix host (calls ++ [FullReload])) as Hpre.
    change (compile_alls (Flush changed :: attempted host (calls ++ [FullReload])))
      with (compile_alls (attempted host (calls ++ [FullReload]))).
    change (compiled_pages (Flush changed :: attempted host (calls ++ [FullReload])))
      with (compiled_pages (attempted host (calls ++ [FullReload]))).
    destruct (compiled_pages_attempted host order) as (Hpages & Hbefore & Hlast).
    fold calls in Hpages, Hbefore, Hlast.
    set (compiled := compiled_pages (attempted host (calls ++ [FullReload]))) in *.
    assert (NoDup order) as Hnd.
    { unfold order. rewrite page_order_perm. apply NoDup_elements. }
    assert (∀ p, p ∈ order ↔ p ∈ impacted) as Horder.
    { intros p. unfold order. rewrite page_order_perm. apply elem_of_elements. }
    assert (∀ p, p ∈ compiled → p ∈ impacted) as Hsub.
    { intros p Hp. apply Horder. destruct Hpages as [k Hk]. rewrite Hk.
      apply elem_of_app. by left. }
    split; [|split; [done|split; [|split; [done|split; [done|split; [done|]]]]]].
    + eapply compile_alls_prefix_zero; [exact Hpre|].
      unfold compile_alls. rewrite filter_app, length_app.
      destruct (flushes_pages order) as [_ H].
      unfold compile_alls in H. unfold calls. by rewrite H.
    + destruct Hpages as [k Hk]. rewrite Hk in Hnd.
      by apply NoDup_app in Hnd as [? _].
    + intros Hok p. split; [apply Hsub|]. intros Hp.
      assert (compiled = order) as ->; [|by apply Horder].
      destruct (decide (length compiled < length order)) as [Hlt|Hge].
      * destruct (Hlast Hlt) as (q & Hq & Hthrows).
        rewrite Hok in Hthrows; [done|]. apply Hsub.
        apply last_Some in Hq as [l' ->]. apply elem_of_app. right.
        apply list_elem_of_here.
      * destruct Hpages as [k Hk]. rewrite Hk, length_app in Hge.
        destruct k; [by rewrite Hk, app_nil_r|simpl in Hge; lia].
Qed.

Lemma cleared_length t q : length (cleared t q) ≤ length q.
Proof. destruct t; simpl; [apply length_filter|done]. Qed.

(** The budget of [advance] is enough: afterwards no armed timeout is due. *)
Lemma fire_due_all host fuel t w :
  length (timeouts w) ≤ fuel →
  Forall (λ to, t < due to) (timeouts (fire_due host fuel t w).2).
Proof.
  revert w. induction fuel as [|fuel IH]; intros w Hlen.
  - destruct (timeouts w) eqn:E; [|simpl in Hlen; lia]. simpl. by rewrite E.
  - simpl. run_M.
    destruct (list_find (λ to, due to ≤ t) (timeouts w)) as [[i to]|] eqn:E.
    + unfold modify, detached. simpl.
      apply list_find_Some in E as (Hi & _ & _).
      apply IH. rewrite flush_world. simpl.
      etrans; [apply cleared_length|]. rewrite length_delete by eauto.
      apply lookup_lt_Some in Hi. lia.
    + simpl. apply list_find_None in E. eapply Forall_impl; [exact E|].
      simpl. intros; lia.
Qed.

Lemma advance_all host t w :
  Forall (λ to, t < due to) (timeouts (advance host t w).2).
Proof.
  unfold advance. run_M.
  pose proof (fire_due_all host (length (timeouts w)) t w (le_n _)) as H.
  by destruct (fire_due host (length (timeouts w)) t w) as [[[]|] w'].
Qed.
Lemma fire_due_none host fuel t w :
  Forall (λ to, t < due to) (timeouts w) →
  fire_due host fuel t w = (Some (), w).
Proof.
  intros Hq. destruct fuel as [|fuel]; [done|]. simpl.
  run_M.
  destruct (list_find (λ to, due to ≤ t) (timeouts w)) as [[i to]|] eqn:E; [|done].
  apply list_find_Some in E as (Hi & Hdue & _).
  apply list_elem_of_lookup_2 in Hi.
  rewrite Forall_forall in Hq. specialize (Hq to Hi). lia.
Qed.

(** Time passing before any timeout is due only moves the clock. *)
Lemma advance_quiet host t w :
  Forall (λ to, t < due to) (timeouts w) →
  advance host t w = (Some (), set_now (now w `max` t) w).
Proof.
  intros Hq. unfold advance. run_M.
  by rewrite fire_due_none.
Qed.

(** When the one armed timeout is due, it is removed and [flush] runs. *)
Lemma advance_single host h d t w :
  timeouts w = [{| handle := h; due := d |}] → d ≤ t →
  let w' := (flush host (set_timeouts [] w)).2 in
  advance host t w = (Some (), set_now (now w' `max` t) w').
Proof.
  intros Hq Hd. unfold advance. run_M. rewrite Hq. simpl.
  run_M. rewrite Hq. simpl.
  rewrite decide_True by (simpl; lia). simpl.
  run_M.
  by destruct (flush host (set_timeouts [] w)) as [r wf].
Qed.

(** While a timer is armed, [schedule] only adds the path to [pending]. *)
Lemma schedule_armed file h w :
  timer w = Some h →
  schedule file w = (Some (), set_pending (pending w ∪ {[file]}) w).
Proof.
  intros Ht. unfold schedule. run_M. by rewrite Ht.
Qed.

(** With no timer, [schedule] also arms one, due 25 ms from now. *)
Lemma schedule_unarmed file w :
  timer w = None →
  schedule file w
  = (Some (),
     {| graph := graph w; pending := pending w ∪ {[file]};
        timer := Some (next_handle w); now := now w;
        timeouts := timeouts w ++ [{| handle := next_handle w; due := now w + 25 |}];
        next_handle := S (next_handle w); log := log w |}).
Proof.
  intros Ht. unfold schedule. run_M. by rewrite Ht.
Qed.

(** Notifications before the armed timeout is due leave it as it is. *)
Lemma burst_keeps_timer host h d rest w :
  timer w = Some h →
  timeouts w = [{| handle := h; due := d |}] →
  Forall (λ ev : nat * string, ev.1 < d) rest →
  let w' := (for_each rest (notify host) w).2 in
  timer w' = Some h
  ∧ timeouts w' = [{| handle := h; due := d |}]
  ∧ pending w' = pending w ∪ list_to_set rest.*2
  ∧ log w' = log w
  ∧ next_handle w' = next_handle w.
Proof.
  revert w. induction rest as [|[t f] rest IH]; intros w Ht Hq Hrest.
  - simpl. unfold mret, M_ret. simpl. repeat split; try done. set_solver.
  - apply Forall_cons in Hrest as [Hlt Hrest]. simpl in Hlt.
    set (W := set_pending (pending w ∪ {[f]}) (set_now (now w `max` t) w)).
    assert (for_each ((t, f) :: rest) (notify host) w
            = for_each rest (notify host) W) as Hstep.
    { cbn [for_each]. unfold notify. run_M. run_M.
      rewrite advance_quiet by (rewrite Hq; repeat constructor; simpl; lia).
      by rewrite (schedule_armed f h). }
    destruct (IH W) as (H1 & H2 & H3 & H4 & H5); [done..|].
    cbv zeta. rewrite Hstep.
    repeat split; try done. rewrite H3. unfold W. simpl. set_solver.
Qed.

Lemma flushes_app (l k : list Effect) : flushes (l ++ k) = flushes l + flushes k.
Proof. unfold flushes. by rewrite filter_app, length_app. Qed.

(** C9. From idle, the first notification arms the timer, due 25 ms later;
    every notification that arrives while a timer is armed only adds its
    path to [pending] and leaves the timer and its due time as they are; so
    after a burst of notifications inside the window the one timeout is
    still the first one, and when it fires there is exactly one flush, for
    all the paths of the burst, after which the scheduler is idle and no
    flush follows however long one waits. *)
Theorem burst_flushes_once (host : Host) (w : World) (t0 : nat) (f0 : string)
    (rest : list (nat * string)) (T : nat) :
  idle w → now w ≤ t0 →
  Forall (λ ev : nat * string, ev.1 < t0 + 25) rest →
  t0 + 25 ≤ T →
  let armed := [{| handle := next_handle w; due := t0 + 25 |}] in
  let files : gset string := {[f0]} ∪ list_to_set rest.*2 in
  let w1 := (notify host (t0, f0) w).2 in
  let w2 := (for_each rest (notify host) w1).2 in
  let w3 := (advance host T w2).2 in
  (timer w1 = Some (next_handle w) ∧ timeouts w1 = armed)
  ∧ (∀ w' h file, timer w' = Some h →
       (schedule file w').2 = set_pending (pending w' ∪ {[file]}) w')
  ∧ (timer w2 = Some (next_handle w) ∧ timeouts w2 = armed
     ∧ pending w2 = files ∧ log w2 = log w)
  ∧ (∃ calls, effects_of (advance host T) w2 = Flush (elements files) :: calls
              ∧ flushes calls = 0)
  ∧ flushes (log w3) = flushes (log w) + 1
  ∧ idle w3
  ∧ ∀ T', effects_of (advance host T') w3 = [].
Proof.
  intros (Ht & Hq & Hp) Hnow Hrest HT armed files w1 w2 w3.
  assert (w1 = {| graph := graph w; pending := {[f0]};
        timer := Some (next_handle w); now := t0;
        timeouts := armed;
        next_handle := S (next_handle w); log := log w |}) as Hw1.
  { unfold w1, notify. run_M.
    rewrite advance_quiet by (rewrite Hq; constructor).
    rewrite schedule_unarmed by done. simpl. rewrite Hq, Hp.
    replace (now w `max` t0) with t0 by lia.
    f_equal. set_solver. }
  destruct (burst_keeps_timer host (next_handle w) (t0 + 25) rest w1)
    as (H1 & H2 & H3 & H4 & H5); [first [by rewrite Hw1|done]..|].
  fold w2 in H1, H2, H3, H4, H5.
  assert (pending w2 = files) as Hfiles.
  { rewrite H3, Hw1. done. }
  assert (w3 = set_now (now (flush host (set_timeouts [] w2)).2 `max` T)
                 (flush host (set_timeouts [] w2)).2
          ∧ effects_of (advance host T) w2 = effects_of (flush host) (set_timeouts [] w2))
    as [Hw3 Heff].
  { unfold effects_of. fold w3. unfold w3.
    rewrite (advance_single host (next_handle w) (t0 + 25)) by done. done. }
  rewrite effects_of_flush in Heff. simpl in Heff. rewrite Hfiles in Heff.
  pose proof (flush_world host (set_timeouts [] w2)) as Hf. simpl in Hf.
  rewrite Hfiles in Hf.
  split; [by rewrite Hw1|]. split.
  { intros w' h file Hh. by rewrite (schedule_armed file h). }
  split.
  { split; [done|]. split; [done|]. split; [done|]. by rewrite H4, Hw1. }
  split.
  { eexists. split; [exact Heff|]. apply flushes_flush_calls. }
  assert (idle w3) as Hidle.
  { rewrite Hw3, Hf. unfold idle. simpl. by destruct (timer w2). }
  split; [|split; [done|]].
  - rewrite Hw3, Hf. simpl. rewrite H4, flushes_app, Hw1. simpl. f_equal.
    change (S (flushes (flush_calls host (set_timeouts [] w2))) = 1).
    f_equal. apply flushes_flush_calls.
  - intros T'. destruct Hidle as (_ & Hq3 & _). unfold effects_of.
    rewrite advance_quiet by (rewrite Hq3; constructor). simpl.
    by rewrite drop_all.
Qed.

(** The scheduler on the site of [Site]; no collaborator throws. *)
Definition site_host : Host :=
  {| env := Site.env; pathIsAbsolute := String.prefix "/"%string;
     throws := λ _, false; graph_throws := λ _, false;
     page_order := elements; page_order_perm := λ _, reflexivity _ |}.

(** The same host, where compiling page [a] throws. *)
Definition failing_host : Host :=
  {| env := Site.env; pathIsAbsolute := String.prefix "/"%string;
     throws := λ e, match e with
                    | CompilePage p => String.eqb p Site.a_ejs
                    | _ => false
                    end;
     graph_throws := λ _, false;
     page_order := elements; page_order_perm := λ _, reflexivity _ |}.

Definition start : World :=
  {| graph := None; pending := ∅; timer := None; now := 0; timeouts := [];
     next_handle := 1; log := [] |}.

Definition burst : list (nat * string) :=
  [(110, Site.logo_ejs); (120, Site.b_ejs)].

(** A burst on [logo] and [b]: one flush, pages [a] and [b] recompiled. *)
Example burst_then_flush :
  let made := log ((notify site_host (100, Site.logo_ejs);;
                    for_each burst (notify site_host);;
                    advance site_host 125) start).2 in
  flushes made = 1 ∧ compile_alls made = 0
  ∧ compiled_pages made ≡ₚ [Site.a_ejs; Site.b_ejs].
Proof. vm_compute. repeat split; reflexivity. Qed.

Example timer_not_rearmed :
  timeouts ((notify site_host (100, Site.logo_ejs);;
             for_each burst (notify site_host)) start).2
  = [{| handle := 1; due := 125 |}].
Proof. vm_compute. reflexivity. Qed.

(** A change that maps to no page: everything is rebuilt. *)
Example unmapped_change_rebuilds_all :
  effects_of (flush site_host) (set_pending {[ "/site/readme.ejs"%string ]} start)
  = [Flush ["/site/readme.ejs"%string]; CompileAll; FullReload].
Proof. vm_compute. reflexivity. Qed.

(** A call that throws ends the flush: no reload is sent. *)
Example throw_ends_flush :
  let made := effects_of (flush failing_host) (set_pending {[ Site.logo_ejs ]} start) in
  made = [Flush [Site.logo_ejs]; CompilePage Site.a_ejs].
Proof. vm_compute. reflexivity. Qed.

(** When the graph cannot be rebuilt the flush ends before any compile
    call, and no reload is sent. *)
Example graph_failure_ends_flush :
  effects_of
    (flush {| env := Site.env; pathIsAbsolute := String.prefix "/"%string;
              throws := λ _, false; graph_throws := λ _, true;
              page_order := elements; page_order_perm := λ _, reflexivity _ |})
    (set_pending {[ Site.logo_ejs ]} start)
  = [Flush [Site.logo_ejs]].
Proof. vm_compute. reflexivity. Qed.

Example other_extension_ignored :
  (mkHandler site_host "/site/src/main.css"%string start).2 = start.
Proof. reflexivity. Qed.

(** A host on which every call of [compilePage] throws, with the pages of a
    set taken in the order [order]. *)
Definition throwing_host (order : gset string → list string)
    (order_perm : ∀ pages, order pages ≡ₚ elements pages) : Host :=
  {| env := Site.env; pathIsAbsolute := String.prefix "/"%string;
     throws := λ e, match e with CompilePage _ => true | _ => false end;
     graph_throws := λ _, false;
     page_order := order; page_order_perm := order_perm |}.

(** Two pages are impacted and one only is compiled, in either order of the
    set: the call on the first page throws and ends the flush. *)
Lemma flush_skips_pages :
  let w := set_pending {[ Site.logo_ejs; Site.b_ejs ]} start in
  let impacted :=
    getImpactedPages Site.env (elements (pending w))
      (buildDependencyGraph Site.env) in
  let forwards := throwing_host elements (λ _, reflexivity _) in
  let backwards :=
    throwing_host (λ pages, reverse (elements pages))
      (λ pages, reverse_Permutation (elements pages)) in
  elements impacted ≡ₚ [Site.a_ejs; Site.b_ejs]
  ∧ length (compiled_pages (effects_of (flush forwards) w)) = 1
  ∧ length (compiled_pages (effects_of (flush backwards) w)) = 1
  ∧ compiled_pages (effects_of (flush forwards) w)
    ≠ compiled_pages (effects_of (flush backwards) w).
Proof.
  cbv zeta. split; [vm_compute; reflexivity|].
  split; [vm_compute; reflexivity|]. split; [vm_compute; reflexivity|].
  vm_compute. discriminate.
Qed.

Lemma burst_flushes_once_witness :
  idle start ∧ now start ≤ 100
  ∧ Forall (λ ev : nat * string, ev.1 < 100 + 25) burst
  ∧ 100 + 25 ≤ 125
  ∧ let w1 := (notify site_host (100, Site.logo_ejs) start).2 in
    let w2 := (for_each burst (notify site_host) w1).2 in
    let w3 := (advance site_host 125 w2).2 in
    timeouts w2 = [{| handle := next_handle start; due := 100 + 25 |}]
    ∧ flushes (log w3) = flushes (log start) + 1
    ∧ idle w3.
Proof.
  assert (idle start) as H1 by done.
  assert (now start ≤ 100) as H2 by (simpl; lia).
  assert (Forall (λ ev : nat * string, ev.1 < 100 + 25) burst) as H3
    by (repeat constructor; simpl; lia).
  assert (100 + 25 ≤ 125) as H4 by lia.
  split; [exact H1|]. split; [exact H2|]. split; [exact H3|]. split; [exact H4|].
  destruct (burst_flushes_once site_host start 100 Site.logo_ejs burst 125
              H1 H2 H3 H4) as (_ & _ & (_ & Hq & _) & _ & Hn & Hi & _).
  split; [exact Hq|]. split; [exact Hn|exact Hi].
Defined.

End ViteConfig.

(** ** [scripts/svg-sprite.js]: assembling the sprite *)
Module SvgSprite.

(** A [Dirent] of [readdir(..., { withFileTypes: true })]. *)
Record Dirent : Type := { name : string; isFile : bool }.

(** An element of the array [symbols]. *)
Record Symbol : Type := { fileName : string; symbol : string }.

(** [a < b] on strings: the lexicographic order of the code units.  The
    proofs use only that it is a strict total order. *)
Definition js_lt (a b : string) : bool := String.ltb a b.

(** The comparator of [symbols.sort(...)], on the compared keys; the default
    comparator of [.sort()] orders strings the same way. *)
Definition compare_names (a b : string) : Z :=
  if js_lt a b then (-1)%Z else if js_lt b a then 1%Z else 0%Z.

(** [Array.prototype.sort(cmp)] is a stable sort: every element goes behind
    the elements already placed that do not compare greater. *)
Fixpoint sort_insert {A} (cmp : A → A → Z) (x : A) (l : list A) : list A :=
  match l with
  | [] => [x]
  | y :: l' => if (cmp y x <=? 0)%Z then y :: sort_insert cmp x l' else x :: l
  end.

Definition sort {A} (cmp : A → A → Z) (l : list A) : list A :=
  foldl (λ acc x, sort_insert cmp x acc) [] l.

(** [strings.join(sep)] *)
Definition join (sep : string) (l : list string) : string := String.concat sep l.

(** A string of the one character [c]. *)
Definition char (c : ascii) : string := String c EmptyString.

Definition QUOTE : string := char "034".
Definition NL : string := char "010".

(** The opening tag of the sprite. *)
Definition SPRITE_OPEN : string :=
  ("<svg class=" ++ QUOTE ++ "svg_sprite" ++ QUOTE
   ++ " aria-hidden=" ++ QUOTE ++ "true" ++ QUOTE
   ++ " focusable=" ++ QUOTE ++ "false" ++ QUOTE
   ++ " style=" ++ QUOTE
   ++ "position:absolute;width:0;height:0;overflow:hidden" ++ QUOTE ++ ">")%string.

Section Sprite.

(** [path.extname] and [String.prototype.toLowerCase]; the contents of the
    files of the icons directory by name; and the two helpers of the
    module, which are built on regular expressions and are functions of
    their arguments. *)
Variable extname : string → string.
Variable toLowerCase : string → string.
Variable readFile : string → string.
Variable svgToSymbol : string → string → option string.
Variable makeSymbolId : string → string.

Definition is_svg (entry : Dirent) : bool :=
  isFile entry && bool_decide (toLowerCase (extname (name entry)) = ".svg"%string).

(** The names that pass the filter, in listing order. *)
Definition svg_names (dirEntries : list Dirent) : list string :=
  name <$> filter (λ entry, is_svg entry = true) dirEntries.

(** [svgFiles] *)
Definition svgFiles (dirEntries : list Dirent) : list string :=
  sort compare_names (svg_names dirEntries).

(** The callback of [svgFiles.map(async (fileName) => ...)], from the point
    where its read has completed: what it pushes on [symbols]. *)
Definition pushed (fileName : string) : option Symbol :=
  let raw := readFile fileName in
  let id := makeSymbolId fileName in
  match svgToSymbol id raw with
  | Some symbol => Some {| fileName := fileName; symbol := symbol |}
  | None => None
  end.

(** [symbols] after [Promise.all], when the reads complete in the order
    [completion]. *)
Definition collect (completion : list string) : list Symbol :=
  omap pushed completion.

(** The sprite text made from [symbols]. *)
Definition sprite_of (symbols : list Symbol) : string :=
  let symbols :=
    sort (λ a b, compare_names (fileName a) (fileName b)) symbols in
  let body :=
    if bool_decide (0 < length symbols)
    then (NL ++ join (NL ++ NL) (symbol <$> symbols) ++ NL ++ NL)%string
    else NL in
  (SPRITE_OPEN ++ body ++ "</svg>" ++ NL)%string.

(** The sprite computed by [generateSvgSprite] for a directory listing,
    when the reads complete in the order [completion], a permutation of
    [svgFiles]. *)
Definition sprite (completion : list string) : string :=
  sprite_of (collect completion).

End Sprite.

(** *** The order of strings *)

Definition str_le (a b : string) : Prop := js_lt b a = false.

Lemma js_lt_compare a b : js_lt a b = true ↔ String.compare a b = Lt.
Proof. unfold js_lt, String.ltb. destruct (String.compare a b); naive_solver. Qed.

Lemma js_lt_asym a b : js_lt a b = true → js_lt b a = false.
Proof.
  rewrite js_lt_compare. intros H. apply not_true_is_false.
  rewrite js_lt_compare, String.compare_antisym, H. done.
Qed.

Lemma js_lt_trans a b c : js_lt a b = true → js_lt b c = true → js_lt a c = true.
Proof.
  rewrite !js_lt_compare. intros H1 H2.
  exact (StrictOrder_Transitive (R := OrdersEx.String_as_OT.lt) a b c H1 H2).
Qed.

Lemma str_le_total a b : str_le a b ∨ str_le b a.
Proof.
  unfold str_le. destruct (js_lt b a) eqn:E; [|by left].
  right. by apply js_lt_asym.
Qed.

Lemma str_le_antisym a b : str_le a b → str_le b a → a = b.
Proof.
  unfold str_le. intros H1 H2. apply String.compare_eq_iff.
  destruct (String.compare a b) eqn:E; [done|..].
  - apply js_lt_compare in E. congruence.
  - assert (js_lt b a = true); [|congruence].
    apply js_lt_compare. by rewrite String.compare_antisym, E.
Qed.

Lemma str_le_trans a b c : str_le a b → str_le b c → str_le a c.
Proof.
  unfold str_le. intros H1 H2. apply not_true_is_false. intros H3.
  destruct (js_lt b a) eqn:E1; [done|]. destruct (js_lt c b) eqn:E2; [done|].
  destruct (String.compare a b) eqn:E.
  - apply String.compare_eq_iff in E as ->. congruence.
  - apply js_lt_compare in E. pose proof (js_lt_trans _ _ _ H3 E). congruence.
  - assert (js_lt b a = true); [|congruence].
    apply js_lt_compare. by rewrite String.compare_antisym, E.
Qed.

Lemma compare_names_le a b : (compare_names a b <=? 0)%Z = true ↔ str_le a b.
Proof.
  unfold compare_names, str_le. destruct (js_lt a b) eqn:E.
  - apply js_lt_asym in E. by rewrite E.
  - destruct (js_lt b a); simpl; naive_solver.
Qed.

(** *** Sorting by a string key *)
Section SortByKey.
Context {A : Type} (key : A → string).

Definition by_key (a b : A) : Z := compare_names (key a) (key b).
Definition key_le (a b : A) : Prop := str_le (key a) (key b).

#[local] Instance key_le_trans : Transitive key_le.
Proof. intros a b c. apply str_le_trans. Qed.

Lemma sort_insert_perm (x : A) l : sort_insert by_key x l ≡ₚ x :: l.
Proof.
  induction l as [|y l IH]; simpl; [done|].
  destruct (by_key y x <=? 0)%Z; [|done].
  rewrite IH. apply perm_swap.
Qed.

Lemma sort_acc_perm (l acc : list A) :
  foldl (λ acc x, sort_insert by_key x acc) acc l ≡ₚ acc ++ l.
Proof.
  revert acc. induction l as [|x l IH]; intros acc; simpl.
  - by rewrite app_nil_r.
  - rewrite IH, sort_insert_perm. simpl. apply Permutation_middle.
Qed.

Lemma sort_perm (l : list A) : sort by_key l ≡ₚ l.
Proof. apply sort_acc_perm. Qed.

Lemma sort_insert_sorted (x : A) l :
  StronglySorted key_le l → StronglySorted key_le (sort_insert by_key x l).
Proof.
  induction 1 as [|y l Hl IH Hy]; simpl.
  - repeat constructor.
  - destruct (by_key y x <=? 0)%Z eqn:E.
    + apply compare_names_le in E. constructor; [done|].
      rewrite Forall_forall. intros z Hz.
      rewrite sort_insert_perm in Hz. apply elem_of_cons in Hz as [->|Hz]; [done|].
      rewrite Forall_forall in Hy. by apply Hy.
    + assert (key_le x y) as Hxy.
      { destruct (str_le_total (key x) (key y)) as [?|H]; [done|].
        apply compare_names_le in H. unfold by_key in E. congruence. }
      constructor; [by constructor|]. constructor; [done|].
      eapply Forall_impl; [exact Hy|]. intros z Hz. by etrans.
Qed.

Lemma sort_acc_sorted (l acc : list A) :
  StronglySorted key_le acc →
  StronglySorted key_le (foldl (λ acc x, sort_insert by_key x acc) acc l).
Proof.
  revert acc. induction l as [|x l IH]; intros acc Hacc; simpl; [done|].
  by apply IH, sort_insert_sorted.
Qed.

Lemma sort_sorted (l : list A) : StronglySorted key_le (sort by_key l).
Proof. apply sort_acc_sorted. constructor. Qed.

(** With distinct keys the sorted array does not depend on the order of
    the input. *)
Lemma sort_unique (l1 l2 : list A) :
  NoDup (key <$> l1) → l1 ≡ₚ l2 → sort by_key l1 = sort by_key l2.
Proof.
  intros Hnd Hp. apply (StronglySorted_unique_strong key_le).
  - intros a b Ha Hb H1 H2. rewrite sort_perm in Ha. rewrite sort_perm, <- Hp in Hb.
    pose proof (str_le_antisym _ _ H1 H2) as Hk.
    apply list_elem_of_lookup in Ha as [i Hi], Hb as [j Hj].
    assert (i = j) as ->; [|congruence].
    eapply NoDup_lookup; [exact Hnd|..]; rewrite list_lookup_fmap.
    + by rewrite Hi.
    + rewrite Hj. simpl. by rewrite Hk.
  - apply sort_sorted.
  - apply sort_sorted.
  - by rewrite !sort_perm.
Qed.

End SortByKey.

Section SpriteFacts.
Context (extname toLowerCase readFile : string → string)
        (svgToSymbol : string → string → option string)
        (makeSymbolId : string → string).

Lemma pushed_fileName f s :
  pushed readFile svgToSymbol makeSymbolId f = Some s → fileName s = f.
Proof.
  clear extname toLowerCase. unfold pushed.
  destruct (svgToSymbol _ _); naive_solver.
Qed.

Lemma collect_NoDup completion :
  NoDup completion →
  NoDup (fileName <$> collect readFile svgToSymbol makeSymbolId completion).
Proof.
  clear extname toLowerCase.
  unfold collect. induction 1 as [|f l Hf Hl IH]; simpl; [constructor|].
  destruct (pushed readFile svgToSymbol makeSymbolId f) as [s|] eqn:E; [|done].
  rewrite fmap_cons. apply NoDup_cons. split; [|done].
  rewrite (pushed_fileName _ _ E). intros Hin. apply Hf.
  apply list_elem_of_fmap in Hin as (s' & -> & Hs').
  apply list_elem_of_omap in Hs' as (f' & Hf' & E').
  by rewrite (pushed_fileName _ _ E').
Qed.

Lemma svg_names_NoDup entries :
  NoDup (name <$> entries) → NoDup (svg_names extname toLowerCase entries).
Proof.
  clear readFile svgToSymbol makeSymbolId.
  unfold svg_names. intros H. eapply sublist_NoDup; [exact H|].
  apply fmap_sublist, sublist_filter.
Qed.

(** C10. The sprite is a function of the set of [.svg] file names of the
    icons directory and of their contents: for two listings of the
    directory with the same [.svg] names, in whatever order the listings
    enumerate the entries and in whatever order the reads complete, the
    sorted file lists are equal and the sprite strings are equal. *)
Theorem sprite_deterministic (entries1 entries2 : list Dirent)
    (completion1 completion2 : list string) :
  NoDup (name <$> entries1) → NoDup (name <$> entries2) →
  list_to_set (svg_names extname toLowerCase entries1)
    =@{gset string} list_to_set (svg_names extname toLowerCase entries2) →
  completion1 ≡ₚ svgFiles extname toLowerCase entries1 →
  completion2 ≡ₚ svgFiles extname toLowerCase entries2 →
  svgFiles extname toLowerCase entries1 = svgFiles extname toLowerCase entries2
  ∧ sprite readFile svgToSymbol makeSymbolId completion1
    = sprite readFile svgToSymbol makeSymbolId completion2.
Proof.
  intros Hnd1 Hnd2 Hset Hc1 Hc2.
  apply svg_names_NoDup in Hnd1, Hnd2.
  assert (svg_names extname toLowerCase entries1
          ≡ₚ svg_names extname toLowerCase entries2) as Hnames.
  { apply NoDup_Permutation; [done..|]. intros n.
    by rewrite <- !(elem_of_list_to_set (C := gset string)), Hset. }
  assert (svgFiles extname toLowerCase entries1
          = svgFiles extname toLowerCase entries2) as Hfiles.
  { unfold svgFiles. apply (sort_unique (λ n, n)); [|done].
    by rewrite list_fmap_id. }
  split; [done|].
  assert (completion1 ≡ₚ completion2) as Hc by (by rewrite Hc1, Hc2, Hfiles).
  assert (NoDup completion1) as Hndc.
  { rewrite Hc1. unfold svgFiles.
    rewrite (sort_perm (λ n, n)). done. }
  unfold sprite, sprite_of.
  assert (sort (λ a b, compare_names (fileName a) (fileName b))
            (collect readFile svgToSymbol makeSymbolId completion1)
          = sort (λ a b, compare_names (fileName a) (fileName b))
            (collect readFile svgToSymbol makeSymbolId completion2)) as ->; [|done].
  apply (sort_unique fileName).
  - by apply collect_NoDup.
  - unfold collect. by rewrite Hc.
Qed.

End SpriteFacts.

(** An icons directory listed in two orders, with reads completing in two
    orders. *)
Definition demo_extname (n : string) : string :=
  if bool_decide (n ∈ ["a.svg"; "b.SVG"]%string) then substring 1 4 n else "".
Definition demo_lower (e : string) : string :=
  if String.eqb e ".SVG" then ".svg" else e.
Definition demo_symbol (id raw : string) : option string :=
  Some ("<symbol id=" ++ id ++ ">" ++ raw ++ "</symbol>")%string.
Definition demo_id (n : string) : string := ("icon-" ++ substring 0 1 n)%string.

Example demo_sprite :
  sprite (λ n, n) demo_symbol demo_id ["b.SVG"; "a.svg"]%string
  = (SPRITE_OPEN ++ NL ++ "<symbol id=icon-a>a.svg</symbol>" ++ NL ++ NL
     ++ "<symbol id=icon-b>b.SVG</symbol>" ++ NL ++ NL ++ "</svg>" ++ NL)%string.
Proof. vm_compute. reflexivity. Qed.

Lemma sprite_deterministic_witness :
  let entries1 := [ {| name := "b.SVG"; isFile := true |};
                    {| name := "notes.txt"; isFile := true |};
                    {| name := "a.svg"; isFile := true |} ]%string in
  let entries2 := [ {| name := "a.svg"; isFile := true |};
                    {| name := "old.svg"; isFile := false |};
                    {| name := "b.SVG"; isFile := true |} ]%string in
  svgFiles demo_extname demo_lower entries1 = svgFiles demo_extname demo_lower entries2
  ∧ sprite (λ n, n) demo_symbol demo_id ["b.SVG"; "a.svg"]%string
    = sprite (λ n, n) demo_symbol demo_id ["a.svg"; "b.SVG"]%string.
Proof.
  intros entries1 entries2.
  apply (sprite_deterministic demo_extname demo_lower (λ n, n) demo_symbol demo_id
           entries1 entries2).
  - by_evaluation.
  - by_evaluation.
  - by_evaluation.
  - vm_compute. apply perm_swap.
  - vm_compute. reflexivity.
Defined.

End SvgSprite.

(** ** The comment scanner as a one-pass recursive function, and its laws *)
Module ScannerLaws.
Import JsString Scanner.

(** The scan of the text from the current index on, at nesting [depth]
    (0 outside a comment): what the two loops of [stripEjsComments] add to
    the output from there ([strip_scan]). *)
Fixpoint scan (depth : nat) (s : list ascii) {struct s} : list ascii :=
  match s with
  | [] => []
  | c :: r1 =>
      match depth with
      | 0 =>
          if startsWith s (chars "<%#") 0
          then match r1 with _ :: _ :: r3 => scan 1 r3 | _ => [] end
          else c :: scan 0 r1
      | S d =>
          if startsWith s (chars "<%%") 0
          then match r1 with _ :: _ :: r3 => scan depth r3 | _ => [] end
          else if startsWith s (chars "<%") 0
          then match r1 with _ :: r2 => scan (S depth) r2 | _ => [] end
          else if startsWith s (chars "%>") 0
          then match r1 with _ :: r2 => scan d r2 | _ => [] end
          else (if bool_decide (c = LF) then [LF] else []) ++ scan depth r1
      end
  end.

(** The newlines of a text, in order. *)
Definition only_newlines (s : list ascii) : list ascii := filter (λ c, c = LF) s.

(** Text with no [<] and no [%]: no delimiter can start in it. *)
Definition plain (s : list ascii) : Prop :=
  Forall (λ c, c ≠ "<"%char ∧ c ≠ "%"%char) s.

(** The same notions on strings. *)
Definition newlines_of (s : string) : string :=
  string_of_list_ascii (only_newlines (chars s)).

Definition plain_text (s : string) : Prop := plain (chars s).

(** No comment marker starts at an index of [p] in the text [p ++ s]. *)
Definition marker_free_prefix (p s : string) : Prop :=
  Forall (λ j, startsWith (chars (p ++ s)) (chars "<%#") j = false)
         (seq 0 (String.length p)).

Lemma only_newlines_cons x s :
  only_newlines (x :: s)
  = (if bool_decide (x = LF) then [LF] else []) ++ only_newlines s.
Proof.
  unfold only_newlines. rewrite filter_cons.
  destruct (decide (x = LF)) as [->|Hne].
  - by rewrite bool_decide_eq_true_2.
  - by rewrite bool_decide_eq_false_2.
Qed.

Lemma startsWith_at str pat i :
  startsWith str pat i = startsWith (drop i str) pat 0.
Proof. unfold startsWith. by rewrite drop_0. Qed.

Lemma startsWith_app_0 pat r : startsWith (pat ++ r) pat 0 = true.
Proof.
  apply startsWith_spec. rewrite drop_0. by rewrite take_app_length.
Qed.

Lemma startsWith_0_app s pat :
  startsWith s pat 0 = true → ∃ r, s = pat ++ r.
Proof.
  intros H. apply startsWith_drop in H. rewrite drop_0 in H. by eexists.
Qed.

Lemma scan_nil depth : scan depth [] = [].
Proof. by destruct depth. Qed.

Lemma scan_open r : scan 0 (chars "<%#" ++ r) = scan 1 r.
Proof. reflexivity. Qed.

Lemma scan_close d r : scan (S d) (chars "%>" ++ r) = scan d r.
Proof. reflexivity. Qed.

Lemma scan_escape d r : scan (S d) (chars "<%%" ++ r) = scan (S d) r.
Proof. reflexivity. Qed.

Lemma scan_nest d r :
  startsWith (chars "<%" ++ r) (chars "<%%") 0 = false →
  scan (S d) (chars "<%" ++ r) = scan (S (S d)) r.
Proof.
  change (chars "<%" ++ r) with ("<"%char :: "%"%char :: r).
  intros H. cbn [scan]. rewrite H.
  change ("<"%char :: "%"%char :: r) with (chars "<%" ++ r).
  by rewrite startsWith_app_0.
Qed.

Lemma scan_outside_step c r :
  startsWith (c :: r) (chars "<%#") 0 = false → scan 0 (c :: r) = c :: scan 0 r.
Proof. intros H. cbn [scan]. by rewrite H. Qed.

Lemma scan_inside_step d c r :
  startsWith (c :: r) (chars "<%%") 0 = false →
  startsWith (c :: r) (chars "<%") 0 = false →
  startsWith (c :: r) (chars "%>") 0 = false →
  scan (S d) (c :: r)
  = (if bool_decide (c = LF) then [LF] else []) ++ scan (S d) r.
Proof. intros H1 H2 H3. cbn [scan]. by rewrite H1, H2, H3. Qed.


Lemma inner_body_scan str i depth out :
  inner_guard str (i, depth, out) = true →
  let '(i', depth', out') := inner_body str (i, depth, out) in
  out' ++ scan depth' (drop i' str) = out ++ scan depth (drop i str).
Proof.
  unfold inner_guard, inner_body. intros [Hi Hd]%andb_prop.
  apply bool_decide_eq_true in Hi, Hd.
  destruct depth as [|d]; [lia|].
  destruct (startsWith str (chars "<%%") i) eqn:E1.
  { rewrite (startsWith_drop _ _ _ E1). by rewrite scan_escape. }
  destruct (startsWith str (chars "<%") i) eqn:E2.
  { rewrite startsWith_at in E1. rewrite (startsWith_drop _ _ _ E2) in *.
    replace (S d + 1) with (S (S d)) by lia. by rewrite scan_nest. }
  destruct (startsWith str (chars "%>") i) eqn:E3.
  { rewrite (startsWith_drop _ _ _ E3). replace (S d - 1) with d by lia.
    by rewrite scan_close. }
  destruct (lookup_lt_is_Some_2 str i Hi) as [c Hc].
  rewrite startsWith_at in E1, E2, E3.
  rewrite (drop_lookup_cons _ _ _ Hc) in *. rewrite Hc, Nat.add_1_r.
  rewrite (scan_inside_step _ _ _ E1 E2 E3).
  repeat case_bool_decide; simplify_eq; by rewrite <- ?app_assoc, ?app_nil_r.
Qed.

Lemma inner_loop_scan str fuel i depth out i' depth' out' :
  inner_loop fuel str (i, depth, out) = Some (i', depth', out') →
  out' ++ scan 0 (drop i' str) = out ++ scan depth (drop i str).
Proof.
  intros H.
  apply (inner_loop_inv
    (λ '(j, dj, oj), oj ++ scan dj (drop j str) = out ++ scan depth (drop i str)))
    in H as [H G]; [| |done].
  - rewrite <- H. f_equal. unfold inner_guard in G.
    apply andb_false_iff in G as [G|G]; apply bool_decide_eq_false in G.
    + rewrite drop_ge by lia. by rewrite !scan_nil.
    + by replace depth' with 0 by lia.
  - intros [[j dj] oj] G HP. pose proof (inner_body_scan str j dj oj G) as Hb.
    destruct (inner_body str (j, dj, oj)) as [[j1 d1] o1]. by rewrite Hb.
Qed.

(** The loops compute the recursive scan. *)
Lemma strip_scan str : strip str = scan 0 str.
Proof.
  pose proof (strip_run_returns str) as H. unfold strip_run in H.
  apply (outer_loop_inv (λ '(i, out), out ++ scan 0 (drop i str) = scan 0 str))
    in H; [| |done].
  - destruct H as (i & H & Hi). rewrite drop_ge in H by done.
    by rewrite scan_nil, app_nil_r in H.
  - intros [i out] [i' out'] Hi HP. simpl in Hi. unfold outer_body.
    destruct (startsWith str (chars "<%#") i) eqn:E.
    + destruct (inner_loop _ _ _) as [[[j d] o]|] eqn:L; [|done].
      simpl. intros [= <- <-]. apply inner_loop_scan in L. rewrite L, <- HP.
      f_equal. by rewrite (startsWith_drop _ _ _ E).
    + intros [= <- <-]. unfold append_at.
      destruct (lookup_lt_is_Some_2 str i Hi) as [c Hc]. rewrite Hc.
      rewrite <- HP. rewrite startsWith_at in E.
      rewrite (drop_lookup_cons _ _ _ Hc) in *.
      rewrite (scan_outside_step _ _ E), Nat.add_1_r. by rewrite <- app_assoc.
Qed.


Lemma scan_sublist_bounded n : ∀ depth s, length s ≤ n → scan depth s `sublist_of` s.
Proof.
  induction n as [|n IH]; intros depth s Hn.
  - destruct s; [|simpl in Hn; lia]. by rewrite scan_nil.
  - destruct s as [|c r1]; [by rewrite scan_nil|]. simpl in Hn.
    assert (∀ d x y r3, r1 = x :: y :: r3 → scan d r3 `sublist_of` c :: r1) as H3.
    { intros d x y r3 ->. do 3 apply sublist_cons. apply IH. simpl in Hn. lia. }
    assert (∀ d x r2, r1 = x :: r2 → scan d r2 `sublist_of` c :: r1) as H2.
    { intros d x r2 ->. do 2 apply sublist_cons. apply IH. simpl in Hn. lia. }
    assert (∀ d, scan d r1 `sublist_of` r1) as H1 by (intros; apply IH; lia).
    destruct depth as [|d]; cbn [scan].
    + destruct (startsWith _ _ 0).
      * destruct r1 as [|x [|y r3]]; try apply sublist_nil_l. by eapply H3.
      * by apply sublist_skip.
    + destruct (startsWith _ (chars "<%%") 0).
      { destruct r1 as [|x [|y r3]]; try apply sublist_nil_l. by eapply H3. }
      destruct (startsWith _ (chars "<%") 0).
      { destruct r1 as [|x r2]; try apply sublist_nil_l. by eapply H2. }
      destruct (startsWith _ (chars "%>") 0).
      { destruct r1 as [|x r2]; try apply sublist_nil_l. by eapply H2. }
      case_bool_decide as Hc; simpl.
      * subst c. by apply sublist_skip.
      * by apply sublist_cons.
Qed.

Lemma strip_sublist str : strip str `sublist_of` str.
Proof. rewrite strip_scan. by eapply scan_sublist_bounded. Qed.

Lemma startsWith_cons c l pat j :
  startsWith (c :: l) pat (S j) = startsWith l pat j.
Proof. reflexivity. Qed.

Lemma scan_prefix p s :
  (∀ j, j < length p → startsWith (p ++ s) (chars "<%#") j = false) →
  scan 0 (p ++ s) = p ++ scan 0 s.
Proof.
  induction p as [|c p IH]; intros H; [done|]. rewrite <- !app_comm_cons.
  rewrite scan_outside_step by (apply (H 0); simpl; lia).
  rewrite IH; [done|]. intros j Hj. rewrite <- (startsWith_cons c).
  apply H. simpl. lia.
Qed.

Lemma startsWith_head c r pat0 pat :
  c ≠ pat0 → startsWith (c :: r) (pat0 :: pat) 0 = false.
Proof.
  intros Hne. unfold startsWith. apply bool_decide_eq_false. simpl. congruence.
Qed.

Lemma scan_plain d c r :
  plain c → scan (S d) (c ++ r) = only_newlines c ++ scan (S d) r.
Proof.
  induction 1 as [|x c [Hlt Hpc] Hc IH]; [done|]. rewrite <- app_comm_cons.
  rewrite scan_inside_step by (by apply startsWith_head).
  by rewrite IH, only_newlines_cons, <- app_assoc.
Qed.

Lemma occurs_cons pat c s : occurs pat s → occurs pat (c :: s).
Proof. intros [p Hp]. exists (S p). by rewrite startsWith_cons. Qed.

Lemma scan_unterminated_bounded n :
  ∀ d t, length t ≤ n → ¬ occurs (chars "%>") t →
  scan (S d) t = only_newlines t.
Proof.
  induction n as [|n IH]; intros d t Hn Hno.
  - destruct t; [done|simpl in Hn; lia].
  - destruct t as [|c r1]; [done|]. simpl in Hn.
    assert (startsWith (c :: r1) (chars "%>") 0 = false) as E3.
    { apply not_true_is_false. intros E. apply Hno. by exists 0. }
    assert (¬ occurs (chars "%>") r1) as Hno1.
    { intros H. by apply Hno, occurs_cons. }
    cbn [scan]. rewrite E3.
    destruct (startsWith _ (chars "<%%") 0) eqn:E1.
    { apply startsWith_0_app in E1 as [r E1]. simpl in E1.
      injection E1 as -> ->. simpl in Hn. rewrite !only_newlines_cons. simpl.
      rewrite IH; [done|lia|].
      intros H. by apply Hno1, occurs_cons, occurs_cons. }
    destruct (startsWith _ (chars "<%") 0) eqn:E2.
    { apply startsWith_0_app in E2 as [r E2]. simpl in E2.
      injection E2 as -> ->. simpl in Hn. rewrite !only_newlines_cons. simpl.
      rewrite IH; [done|lia|].
      intros H. by apply Hno1, occurs_cons. }
    rewrite IH by (done || lia). by rewrite only_newlines_cons.
Qed.

(** Whether a text occurs in another is decided by trying every index. *)
Lemma occurs_existsb pat s :
  occurs pat s ↔ existsb (startsWith s pat) (seq 0 (S (length s))) = true.
Proof.
  rewrite existsb_exists. split.
  - intros [p Hp]. destruct (decide (p ≤ length s)).
    + exists p. split; [|done]. apply in_seq. lia.
    + exists 0. split; [apply in_seq; lia|].
      apply startsWith_spec in Hp. rewrite drop_ge, take_nil in Hp by lia.
      subst pat. apply startsWith_spec. simpl. by rewrite take_0.
  - intros (p & _ & Hp). by exists p.
Qed.

#[export] Instance occurs_dec pat s : Decision (occurs pat s).
Proof.
  refine (cast_if (decide (existsb (startsWith s pat) (seq 0 (S (length s))) = true)));
    by rewrite occurs_existsb.
Defined.


Lemma chars_app s t : chars (s ++ t) = chars s ++ chars t.
Proof. induction s as [|c s IH]; simpl; [done|]. by rewrite IH. Qed.

Lemma chars_length s : length (chars s) = String.length s.
Proof. induction s as [|c s IH]; simpl; [done|]. by rewrite IH. Qed.

Lemma string_of_chars_app l k :
  string_of_list_ascii (l ++ k)
  = (string_of_list_ascii l ++ string_of_list_ascii k)%string.
Proof. induction l as [|c l IH]; simpl; [done|]. by rewrite IH. Qed.

Lemma stripEjsComments_scan s :
  stripEjsComments s = string_of_list_ascii (scan 0 (chars s)).
Proof. unfold stripEjsComments. by rewrite strip_scan. Qed.

(** X1. [stripEjsComments] returns its input unchanged exactly when the
    input contains no comment marker [<%#]. *)
Theorem stripEjsComments_fixed_point (s : string) :
  stripEjsComments s = s ↔ ¬ includes s "<%#".
Proof.
  unfold includes. split.
  - intros Heq Hocc. apply strip_marker_shrinks in Hocc.
    apply (f_equal chars) in Heq. rewrite chars_stripEjsComments in Heq.
    rewrite Heq in Hocc. lia.
  - intros Hno. apply chars_inj. rewrite chars_stripEjsComments.
    by apply strip_no_marker.
Qed.

(** X2. [stripEjsComments] only deletes: the code units of the output are
    code units of the input, in the same order, so the output is never
    longer than the input. *)
Theorem stripEjsComments_only_deletes (s : string) :
  chars (stripEjsComments s) `sublist_of` chars s
  ∧ String.length (stripEjsComments s) ≤ String.length s.
Proof.
  rewrite chars_stripEjsComments. pose proof (strip_sublist (chars s)) as H.
  split; [done|]. rewrite <- !chars_length, chars_stripEjsComments.
  by apply sublist_length.
Qed.

(** X3. Text before the first comment marker is copied to the output as it
    is, and the scan of what follows does not depend on it. *)
Theorem stripEjsComments_copies_prefix (p s : string) :
  marker_free_prefix p s →
  stripEjsComments (p ++ s) = (p ++ stripEjsComments s)%string.
Proof.
  unfold marker_free_prefix. rewrite Forall_forall. intros H.
  rewrite !stripEjsComments_scan, chars_app, scan_prefix.
  - by rewrite string_of_chars_app, string_of_list_ascii_of_string.
  - intros j Hj. rewrite <- chars_app. apply H. apply list_elem_of_In, in_seq.
    rewrite chars_length in Hj. lia.
Qed.

Lemma stripEjsComments_copies_prefix_witness :
  marker_free_prefix "<p>1 < 2</p><" "<%# note %>x"
  ∧ stripEjsComments ("<p>1 < 2</p><" ++ "<%# note %>x")
    = ("<p>1 < 2</p><" ++ stripEjsComments "<%# note %>x")%string.
Proof.
  assert (marker_free_prefix "<p>1 < 2</p><" "<%# note %>x") as H
    by (unfold marker_free_prefix; by_evaluation).
  split; [exact H|].
  exact (stripEjsComments_copies_prefix "<p>1 < 2</p><" "<%# note %>x" H).
Defined.

(** X4. A comment whose text has no [<] and no [%] is replaced by the
    newlines of its text, and the scan goes on after its closing tag. *)
Theorem stripEjsComments_simple_comment (c q : string) :
  plain_text c →
  stripEjsComments ("<%#" ++ c ++ "%>" ++ q)
  = (newlines_of c ++ stripEjsComments q)%string.
Proof.
  intros Hc. rewrite !stripEjsComments_scan, !chars_app.
  rewrite scan_open, (scan_plain 0 _ _ Hc), scan_close.
  by rewrite string_of_chars_app.
Qed.

Lemma stripEjsComments_simple_comment_witness :
  plain_text (String "a" (String LF "b"))
  ∧ stripEjsComments ("<%#" ++ String "a" (String LF "b") ++ "%>" ++ "<b>x</b>")
    = (newlines_of (String "a" (String LF "b")) ++ stripEjsComments "<b>x</b>")%string.
Proof.
  assert (plain_text (String "a" (String LF "b"))) as H
    by (unfold plain_text, plain; by_evaluation).
  split; [exact H|].
  exact (stripEjsComments_simple_comment (String "a" (String LF "b")) "<b>x</b>" H).
Defined.

(** No tag delimiter, [<%] or [%>], starts at an index of [t] in the text
    [t ++ r]. *)
Definition tag_free (t r : string) : Prop :=
  Forall (λ j, startsWith (chars (t ++ r)) (chars "<%") j = false
               ∧ startsWith (chars (t ++ r)) (chars "%>") j = false)
         (seq 0 (String.length t)).

Lemma startsWith_escape_open s :
  startsWith s (chars "<%") 0 = false → startsWith s (chars "<%%") 0 = false.
Proof.
  intros H. apply not_true_is_false. intros E.
  apply startsWith_0_app in E as [r ->].
  change (chars "<%%" ++ r) with (chars "<%" ++ "%"%char :: r) in H.
  by rewrite startsWith_app_0 in H.
Qed.

(** Inside a comment, text in which no delimiter starts leaves its
    newlines only. *)
Lemma scan_tag_free d t r :
  (∀ j, j < length t → startsWith (t ++ r) (chars "<%") j = false
                      ∧ startsWith (t ++ r) (chars "%>") j = false) →
  scan (S d) (t ++ r) = only_newlines t ++ scan (S d) r.
Proof.
  induction t as [|c t IH]; intros H; [done|]. rewrite <- !app_comm_cons.
  destruct (H 0) as [H1 H2]; [simpl; lia|]. rewrite <- app_comm_cons in H1, H2.
  rewrite scan_inside_step by (done || by apply startsWith_escape_open).
  rewrite IH, only_newlines_cons, <- app_assoc; [done|].
  intros j Hj. apply (H (S j)). simpl. lia.
Qed.

Lemma tag_free_chars t r j :
  tag_free t r → j < length (chars t) →
  startsWith (chars t ++ chars r) (chars "<%") j = false
  ∧ startsWith (chars t ++ chars r) (chars "%>") j = false.
Proof.
  unfold tag_free. rewrite Forall_forall, chars_length, <- chars_app.
  intros H Hj. apply H, list_elem_of_In, in_seq. lia.
Qed.

Lemma scan_nested_tag d b r :
  (∀ j, j < length b → startsWith (b ++ chars "%>" ++ r) (chars "<%") j = false
                      ∧ startsWith (b ++ chars "%>" ++ r) (chars "%>") j = false) →
  startsWith b (chars "%") 0 = false →
  scan (S d) (chars "<%" ++ b ++ chars "%>" ++ r) = only_newlines b ++ scan (S d) r.
Proof.
  intros Hb Hhead. destruct b as [|x b].
  - change (chars "<%" ++ [] ++ chars "%>" ++ r)
      with (chars "<%%" ++ [">"%char] ++ r).
    rewrite scan_escape. by rewrite (scan_plain d [">"%char]) by (by repeat constructor).
  - rewrite scan_nest.
    + rewrite (scan_tag_free (S d) (x :: b)) by done.
      by rewrite scan_close.
    + unfold startsWith in *. apply bool_decide_eq_false.
      apply bool_decide_eq_false in Hhead. clear Hb. simpl in *.
      rewrite take_0 in *. congruence.
Qed.

(** X5. A tag nested in a comment does not end the comment: in the comment
    [<%#] a [<%] b [%>] c [%>], when no further [<%] or [%>] starts inside
    the texts a, b and c (a [<] or a [%] alone may stand there), and b does
    not begin with [%] (the tag is not the escape [<%%]), the comment ends
    at the second [%>]; the whole of it is replaced by the newlines of a,
    b and c, and the scan goes on after it. *)
Theorem stripEjsComments_nested_tag (a b c q : string) :
  tag_free a ("<%" ++ b ++ "%>" ++ c ++ "%>" ++ q) →
  tag_free b ("%>" ++ c ++ "%>" ++ q) →
  tag_free c ("%>" ++ q) →
  startsWith (chars b) (chars "%") 0 = false →
  stripEjsComments ("<%#" ++ a ++ "<%" ++ b ++ "%>" ++ c ++ "%>" ++ q)
  = (newlines_of a ++ newlines_of b ++ newlines_of c ++ stripEjsComments q)%string.
Proof.
  intros Ha Hb Hc Hhead. rewrite !stripEjsComments_scan.
  rewrite (chars_app "<%#"), scan_open.
  rewrite (chars_app a), (scan_tag_free 0 (chars a))
    by (intros j Hj; by apply tag_free_chars).
  rewrite (chars_app "<%"), (chars_app b), (chars_app "%>").
  rewrite (scan_nested_tag 0 (chars b)); [|
    intros j Hj; rewrite <- (chars_app "%>"); by apply tag_free_chars|done].
  rewrite (chars_app c), (scan_tag_free 0 (chars c))
    by (intros j Hj; by apply tag_free_chars).
  rewrite (chars_app "%>"), scan_close.
  by rewrite !string_of_chars_app.
Qed.

Lemma stripEjsComments_nested_tag_witness :
  tag_free " menu " ("<%" ++ "= 1 < 2 % 3 " ++ "%>" ++ " a > b " ++ "%>" ++ "<p>x</p>")
  ∧ tag_free "= 1 < 2 % 3 " ("%>" ++ " a > b " ++ "%>" ++ "<p>x</p>")
  ∧ tag_free " a > b " ("%>" ++ "<p>x</p>")
  ∧ startsWith (chars "= 1 < 2 % 3 ") (chars "%") 0 = false
  ∧ stripEjsComments ("<%#" ++ " menu " ++ "<%" ++ "= 1 < 2 % 3 " ++ "%>"
                      ++ " a > b " ++ "%>" ++ "<p>x</p>")
    = (newlines_of " menu " ++ newlines_of "= 1 < 2 % 3 "
       ++ newlines_of " a > b " ++ stripEjsComments "<p>x</p>")%string.
Proof.
  assert (tag_free " menu "
            ("<%" ++ "= 1 < 2 % 3 " ++ "%>" ++ " a > b " ++ "%>" ++ "<p>x</p>")) as H1
    by (unfold tag_free; by_evaluation).
  assert (tag_free "= 1 < 2 % 3 " ("%>" ++ " a > b " ++ "%>" ++ "<p>x</p>")) as H2
    by (unfold tag_free; by_evaluation).
  assert (tag_free " a > b " ("%>" ++ "<p>x</p>")) as H3
    by (unfold tag_free; by_evaluation).
  assert (startsWith (chars "= 1 < 2 % 3 ") (chars "%") 0 = false) as H4
    by (vm_compute; reflexivity).
  split; [exact H1|]. split; [exact H2|]. split; [exact H3|]. split; [exact H4|].
  exact (stripEjsComments_nested_tag " menu " "= 1 < 2 % 3 " " a > b " "<p>x</p>"
           H1 H2 H3 H4).
Defined.

(** X6. A comment that is never closed swallows the rest of the text: when
    no closing tag [%>] follows the marker, the output for that part is its
    newlines only, and no error is raised. *)
Theorem stripEjsComments_unterminated (t : string) :
  ¬ includes t "%>" →
  stripEjsComments ("<%#" ++ t) = newlines_of t.
Proof.
  unfold includes. intros Hno. rewrite stripEjsComments_scan, chars_app, scan_open.
  unfold newlines_of. f_equal. by eapply scan_unterminated_bounded.
Qed.

Lemma stripEjsComments_unterminated_witness :
  ¬ includes (String "a" (String LF "<% b")) "%>"
  ∧ stripEjsComments ("<%#" ++ String "a" (String LF "<% b"))
    = newlines_of (String "a" (String LF "<% b")).
Proof.
  assert (¬ includes (String "a" (String LF "<% b")) "%>") as H
    by (unfold includes; by_evaluation).
  split; [exact H|].
  exact (stripEjsComments_unterminated (String "a" (String LF "<% b")) H).
Defined.

End ScannerLaws.

(** ** More on the dependency graph and on the impact analysis *)
Module GraphLaws.
Import CompileEjs.

(** The files scanned by [buildDependencyGraph]. *)
Definition universe (env : Env) : gset string :=
  list_to_set (walkDir env (PAGES_DIR env))
  ∪ list_to_set (walkDir env (PARTIALS_DIR env)).

Lemma scanIncludes_fold env filePath (matches : list string) (acc : gset string) x :
  x ∈ foldl (λ (targets : gset string) inc,
               let resolved := resolveInclude env filePath inc in
               if existsSync env resolved then targets ∪ {[resolved]} else targets)
            acc matches
  ↔ x ∈ acc ∨ ∃ inc, inc ∈ matches ∧ resolveInclude env filePath inc = x
                      ∧ existsSync env x = true.
Proof.
  revert acc. induction matches as [|m matches IH]; intros acc; simpl.
  - set_solver.
  - rewrite IH. destruct (existsSync env (resolveInclude env filePath m)) eqn:E.
    + rewrite elem_of_union, elem_of_singleton. split.
      * intros [[?| ->]|(inc & ? & ? & ?)]; [by left| |].
        -- right. exists m. split; [by left|done].
        -- right. exists inc. split; [by right|done].
      * intros [?|(inc & [->|?]%elem_of_cons & <- & ?)]; [by left; left|..].
        -- by left; right.
        -- right. by exists inc.
    + split.
      * intros [?|(inc & ? & ? & ?)]; [by left|].
        right. exists inc. split; [by right|done].
      * intros [?|(inc & [->|?]%elem_of_cons & <- & ?)]; [by left|congruence|].
        right. by exists inc.
Qed.

(** X7. The targets [scanIncludes] returns for a file are exactly the
    resolved paths of the references matched in its comment-stripped text
    that exist on disk: a reference to a missing file adds no target. *)
Theorem scanIncludes_targets (env : Env) (filePath x : string) :
  x ∈ scanIncludes env filePath
  ↔ ∃ inc, inc ∈ include_matches env (readEjsFile env filePath)
           ∧ resolveInclude env filePath inc = x
           ∧ existsSync env x = true.
Proof.
  unfold scanIncludes. rewrite scanIncludes_fold. set_solver.
Qed.

Lemma scan_files_includes env files f :
  (scan_files env files).1 !! f
  = if bool_decide (f ∈ files) then Some (scanIncludes env f) else None.
Proof.
  unfold scan_files. induction files as [|file files IH] using rev_ind.
  - cbn [foldl fst]. rewrite lookup_empty, bool_decide_eq_false_2; [done|set_solver].
  - rewrite foldl_app. simpl. destruct (decide (f = file)) as [->|Hne].
    + rewrite lookup_insert_eq. rewrite bool_decide_eq_true_2; [done|].
      apply elem_of_app. right. by left.
    + rewrite lookup_insert_ne by done. rewrite IH.
      rewrite (bool_decide_ext (f ∈ files) (f ∈ files ++ [file])); [done|].
      set_solver.
Qed.

Lemma buildDependencyGraph_includes_lookup env f :
  includes (buildDependencyGraph env) !! f
  = if bool_decide (f ∈ universe env) then Some (scanIncludes env f) else None.
Proof.
  unfold buildDependencyGraph. simpl. rewrite scan_files_includes.
  fold (universe env).
  rewrite (bool_decide_ext (f ∈ elements (universe env)) (f ∈ universe env));
    [done|]. apply elem_of_elements.
Qed.

(** X8. In the built graph the forward map has an entry for every page and
    every partial found on disk, and for no other path; the entry of a file
    is the set of its scanned includes (an empty set when it includes
    nothing). *)
Theorem buildDependencyGraph_includes (env : Env) (f : string) :
  includes (buildDependencyGraph env) !! f
  = if bool_decide (f ∈ universe env) then Some (scanIncludes env f) else None.
Proof. apply buildDependencyGraph_includes_lookup. Qed.

Lemma add_dependent_nonempty file m t :
  map_Forall (λ _ (deps : gset string), deps ≠ ∅) m →
  map_Forall (λ _ (deps : gset string), deps ≠ ∅) (add_dependent file m t).
Proof.
  intros Hm. unfold add_dependent. destruct (m !! t) as [deps|] eqn:E.
  - rewrite E. apply map_Forall_insert_2; [set_solver|done].
  - rewrite lookup_insert_eq, insert_insert_eq.
    apply map_Forall_insert_2; [set_solver|done].
Qed.

Lemma scan_files_nonempty env files :
  map_Forall (λ _ (deps : gset string), deps ≠ ∅) (scan_files env files).2.
Proof.
  unfold scan_files. induction files as [|file files IH] using rev_ind.
  - apply map_Forall_empty.
  - rewrite foldl_app. simpl.
    generalize (elements (scanIncludes env file)).
    generalize dependent ((foldl (scan_file env) (∅, ∅) files).2).
    intros m Hm ts. revert m Hm.
    induction ts as [|t ts IHts]; intros m Hm; simpl; [done|].
    by apply IHts, add_dependent_nonempty.
Qed.

(** X9. The reverse map of the built graph has an entry for a path exactly
    when some scanned file includes it, and then the entry holds exactly the
    scanned files that include it: no entry is an empty set. *)
Theorem buildDependencyGraph_dependents (env : Env) (t : string) :
  (is_Some (dependents (buildDependencyGraph env) !! t)
   ↔ ∃ a, a ∈ universe env ∧ t ∈ scanIncludes env a)
  ∧ ∀ deps, dependents (buildDependencyGraph env) !! t = Some deps →
      deps ≠ ∅ ∧ ∀ a, a ∈ deps ↔ a ∈ universe env ∧ t ∈ scanIncludes env a.
Proof.
  unfold buildDependencyGraph. simpl. fold (universe env).
  destruct (scan_files_spec env (elements (universe env))) as [_ H2].
  pose proof (scan_files_nonempty env (elements (universe env))) as Hne.
  assert (∀ deps, (scan_files env (elements (universe env))).2 !! t = Some deps →
      deps ≠ ∅ ∧ ∀ a, a ∈ deps ↔ a ∈ universe env ∧ t ∈ scanIncludes env a) as Hd.
  { intros deps Hd. split; [by apply (Hne t)|]. intros a.
    rewrite <- (elem_of_elements (universe env)), <- H2. unfold map_has.
    rewrite Hd. naive_solver. }
  split; [|done]. split.
  - intros [deps Hdeps]. destruct (Hd deps Hdeps) as [Hn Hin].
    apply set_choose_L in Hn as [a Ha]. exists a. by apply Hin.
  - intros (a & Ha & Ht).
    assert (map_has (scan_files env (elements (universe env))).2 t a) as (deps & Hdeps & _).
    { apply H2. by rewrite elem_of_elements. }
    by exists deps.
Qed.

(** X10. Every edge of the built graph leaves a file of the universe and
    arrives at a file that exists on disk. *)
Theorem buildDependencyGraph_edges (env : Env) (a b : string) :
  includes_edge (buildDependencyGraph env) a b →
  a ∈ pages (buildDependencyGraph env) ∪ partials (buildDependencyGraph env)
  ∧ existsSync env b = true.
Proof.
  unfold includes_edge, map_has. intros (incs & Hi & Hb).
  rewrite buildDependencyGraph_includes_lookup in Hi.
  case_bool_decide as Hu; [|done]. injection Hi as <-. split; [done|].
  apply scanIncludes_fold in Hb as [Hb|(inc & _ & _ & He)]; [set_solver|done].
Qed.


Lemma buildDependencyGraph_edges_witness :
  includes_edge (buildDependencyGraph Site.env) Site.a_ejs Site.nav_ejs
  ∧ Site.a_ejs ∈ pages (buildDependencyGraph Site.env)
                 ∪ partials (buildDependencyGraph Site.env)
  ∧ existsSync Site.env Site.nav_ejs = true.
Proof.
  assert (includes_edge (buildDependencyGraph Site.env) Site.a_ejs Site.nav_ejs) as H.
  { exists (scanIncludes Site.env Site.a_ejs). split; [|by_evaluation].
    rewrite buildDependencyGraph_includes_lookup.
    rewrite bool_decide_eq_true_2; [done|by_evaluation]. }
  split; [exact H|].
  exact (buildDependencyGraph_edges Site.env Site.a_ejs Site.nav_ejs H).
Defined.

Lemma visit_result_pages g cur w rest :
  result w ⊆ pages g → result (visit g cur w rest) ⊆ pages g.
Proof.
  intros Hw. unfold visit. destruct (_ || _); [done|].
  set (res' := if bool_decide (cur ∈ pages g) then result w ∪ {[cur]} else result w).
  assert (res' ⊆ pages g) as Hres'.
  { unfold res'. case_bool_decide; set_solver. }
  destruct (dependents g !! cur) as [ups|]; [|done]. simpl.
  destruct (visit_dependents_spec g (seen w ∪ {[cur]}) (elements ups) res' rest)
    as (H1 & _ & _).
  intros x Hx. apply H1 in Hx as [Hx|[_ Hx]]; [by apply Hres'|done].
Qed.

Lemma walk_result_pages g fuel w r :
  result w ⊆ pages g → walk fuel g w = Some r → r ⊆ pages g.
Proof.
  revert w. induction fuel as [|fuel IH]; intros [res vis [|cur rest]] Hw; simpl;
    try done; try (by intros [= <-]).
  intros H. eapply IH; [|exact H]. by apply visit_result_pages.
Qed.

(** X11. [getImpactedPages] returns pages only, whatever the graph and the
    changed paths are. *)
Theorem getImpactedPages_pages (env : Env) (changedPaths : list string)
    (g : Graph) :
  getImpactedPages env changedPaths g ⊆ pages g.
Proof.
  eapply walk_result_pages; [|apply getImpactedPages_run_returns]. set_solver.
Qed.

(** A path the graph knows nothing of: no page, and no entry in the reverse
    map. *)
Definition unmapped (g : Graph) (p : string) : Prop :=
  (p ∉ pages g) ∧ dependents g !! p = None.

Lemma walk_unmapped g fuel w r :
  result w = ∅ → Forall (unmapped g) (stack w) → walk fuel g w = Some r → r = ∅.
Proof.
  revert w. induction fuel as [|fuel IH]; intros [res vis [|cur rest]] Hres Hst;
    simpl in *; try done; try (by intros [= <-]).
  intros H. eapply IH; [| |exact H].
  - apply Forall_cons in Hst as [[Hp Hd] _]. unfold visit. simpl.
    destruct (_ || _); [done|]. rewrite Hd. simpl.
    by rewrite bool_decide_eq_false_2.
  - apply Forall_cons in Hst as [[Hp Hd] Hrest]. unfold visit. simpl.
    destruct (_ || _); [done|]. by rewrite Hd.
Qed.

(** X12. When no changed path is a page or has an entry in the reverse map,
    [getImpactedPages] returns the empty set (the case in which [flush]
    rebuilds everything). *)
Theorem getImpactedPages_unmapped (env : Env) (changedPaths : list string)
    (g : Graph) :
  Forall (unmapped g) (normalized env changedPaths) →
  getImpactedPages env changedPaths g = ∅.
Proof.
  intros H. eapply walk_unmapped; [| |apply getImpactedPages_run_returns].
  - done.
  - simpl. by apply Forall_reverse.
Qed.

Lemma getImpactedPages_unmapped_witness :
  Forall (unmapped Site.graph)
         (normalized Site.env ["/site/README.ejs"; "/site/notes.ejs"]%string)
  ∧ getImpactedPages Site.env ["/site/README.ejs"; "/site/notes.ejs"]%string
      Site.graph = ∅.
Proof.
  assert (Forall (unmapped Site.graph)
            (normalized Site.env ["/site/README.ejs"; "/site/notes.ejs"]%string)) as H.
  { repeat constructor; by_evaluation. }
  split; [exact H|].
  exact (getImpactedPages_unmapped Site.env _ Site.graph H).
Defined.

Lemma getImpactedPages_reached env changedPaths g x :
  (""%string) ∉ normalized env changedPaths → paths_nonempty g →
  x ∈ getImpactedPages env changedPaths g
  ↔ x ∈ pages g ∧ reached g (normalized env changedPaths) x.
Proof.
  intros Hne Hg. eapply walk_inv_result.
  - intros b a (deps & Hd & Ha) ->. by apply (Hg b deps Hd).
  - by apply initial_walk_inv.
  - apply getImpactedPages_run_returns.
Qed.

(** X13. The impact of two lists of changes together is the union of their
    impacts (paths not being empty strings). *)
Theorem getImpactedPages_app (env : Env) (changed1 changed2 : list string)
    (g : Graph) :
  (""%string) ∉ normalized env (changed1 ++ changed2) → paths_nonempty g →
  getImpactedPages env (changed1 ++ changed2) g
  = getImpactedPages env changed1 g ∪ getImpactedPages env changed2 g.
Proof.
  intros Hne Hg. unfold normalized in Hne. rewrite fmap_app in Hne.
  apply not_elem_of_app in Hne as [Hne1 Hne2].
  apply set_eq. intros x. rewrite elem_of_union.
  rewrite !getImpactedPages_reached; try done.
  - unfold reached, normalized. rewrite fmap_app.
    setoid_rewrite elem_of_app. naive_solver.
  - unfold normalized. rewrite fmap_app. by apply not_elem_of_app.
Qed.

Lemma getImpactedPages_app_witness :
  ((""%string) ∉ normalized Site.env ([Site.logo_ejs] ++ [Site.b_ejs]))
  ∧ paths_nonempty Site.graph
  ∧ getImpactedPages Site.env ([Site.logo_ejs] ++ [Site.b_ejs]) Site.graph
    = getImpactedPages Site.env [Site.logo_ejs] Site.graph
      ∪ getImpactedPages Site.env [Site.b_ejs] Site.graph.
Proof.
  assert (""%string ∉ normalized Site.env ([Site.logo_ejs] ++ [Site.b_ejs])) as H1
    by by_evaluation.
  assert (paths_nonempty Site.graph) as H2 by (unfold paths_nonempty; by_evaluation).
  split; [exact H1|]. split; [exact H2|].
  exact (getImpactedPages_app Site.env [Site.logo_ejs] [Site.b_ejs] Site.graph H1 H2).
Defined.

End GraphLaws.

(** ** The scheduler over arbitrary runs of watcher events *)

Module SchedulerLaws.
Import CompileEjs ViteConfig.

(** [file.endsWith('.ejs')] *)
Definition is_ejs (file : string) : bool :=
  bool_decide (suffix (String.list_ascii_of_string ".ejs")
                      (String.list_ascii_of_string file)).

(** A watcher event: at time [ev.1] the watcher calls a handler made by
    [mkHandler] with the file [ev.2]. *)
Definition watch (host : Host) (ev : nat * string) : M unit :=
  advance host ev.1;; mkHandler host ev.2.

(** A run of watcher events, in order. *)
Definition run (host : Host) (evs : list (nat * string)) : M unit :=
  for_each evs (watch host).

(** The arrays [changed] of the flushes of a log, in order. *)
Definition flush_lists (l : list Effect) : list (list string) :=
  omap (λ e, match e with Flush changed => Some changed | _ => None end) l.

(** The paths handed to some flush. *)
Definition flushed (l : list Effect) : gset string :=
  list_to_set (concat (flush_lists l)).

(** The changes the plugin has been told of and has not dropped: those
    flushed and those pending. *)
Definition changes (w : World) : gset string := flushed (log w) ∪ pending w.

(** 1 when [timer] holds a handle, 0 when it is [null]. *)
Definition armed (w : World) : nat :=
  match timer w with Some _ => 1 | None => 0 end.

(** The paths the handlers schedule for a list of watched files. *)
Definition scheduled (host : Host) (files : list string) : list string :=
  toAbs host <$> filter (λ f, is_ejs f = true) files.

(** The state between two callbacks: with no timer nothing is armed and
    nothing is pending; with a timer exactly its timeout is armed, it is due
    within 25 ms, and something is pending. *)
Definition coherent (w : World) : Prop :=
  match timer w with
  | None => timeouts w = [] ∧ pending w = ∅
  | Some h =>
      pending w ≠ ∅
      ∧ ∃ d, timeouts w = [{| handle := h; due := d |}] ∧ d ≤ now w + 25
  end.

Lemma idle_coherent w : idle w → coherent w.
Proof. intros (Ht & Hq & Hp). unfold coherent. by rewrite Ht. Qed.

Lemma flush_lists_app l k : flush_lists (l ++ k) = flush_lists l ++ flush_lists k.
Proof. apply omap_app. Qed.

Lemma flushes_flush_lists l : flushes l = length (flush_lists l).
Proof.
  unfold flushes, flush_lists. induction l as [|e l IH]; [done|].
  destruct e.
  - rewrite filter_cons_True by done. simpl. by rewrite IH.
  - by rewrite filter_cons_False by (simpl; auto).
  - by rewrite filter_cons_False by (simpl; auto).
  - by rewrite filter_cons_False by (simpl; auto).
Qed.

Lemma flush_lists_none l : flushes l = 0 → flush_lists l = [].
Proof. rewrite flushes_flush_lists. apply nil_length_inv. Qed.

Lemma flush_lists_calls host w : flush_lists (flush_calls host w) = [].
Proof. apply flush_lists_none, flushes_flush_calls. Qed.

(** What one flush adds to the log. *)
Definition flush_effects (host : Host) (w : World) : list Effect :=
  Flush (elements (pending w)) :: flush_calls host w.

Lemma flush_lists_flush host w :
  flush_lists (flush_effects host w) = [elements (pending w)].
Proof.
  unfold flush_effects.
  change (elements (pending w) :: flush_lists (flush_calls host w)
          = [elements (pending w)]).
  by rewrite flush_lists_calls.
Qed.

Lemma flush_log host w : log (flush host w).2 = log w ++ flush_effects host w.
Proof. by rewrite flush_world. Qed.

Lemma flush_changes host w : changes (flush host w).2 = changes w.
Proof.
  unfold changes, flushed. rewrite flush_log, flush_lists_app, flush_lists_flush.
  rewrite flush_world. simpl. rewrite concat_app. simpl.
  rewrite app_nil_r, list_to_set_app_L, list_to_set_elements_L. set_solver.
Qed.

Lemma fire_due_S host fuel t w :
  fire_due host (S fuel) t w
  = match list_find (λ to, due to ≤ t) (timeouts w) with
    | Some (i, _) =>
        fire_due host fuel t
          (flush host (set_timeouts (delete i (timeouts w)) w)).2
    | None => (Some (), w)
    end.
Proof.
  simpl. run_M. by destruct (list_find _ (timeouts w)) as [[i to]|].
Qed.

Lemma fire_due_returns host fuel t w : (fire_due host fuel t w).1 = Some ().
Proof.
  revert w. induction fuel as [|fuel IH]; intros w; [done|].
  rewrite fire_due_S. by destruct (list_find _ (timeouts w)) as [[i to]|].
Qed.

Lemma fire_due_changes host fuel t w :
  changes (fire_due host fuel t w).2 = changes w.
Proof.
  revert w. induction fuel as [|fuel IH]; intros w; [done|].
  rewrite fire_due_S. destruct (list_find _ (timeouts w)) as [[i to]|]; [|done].
  by rewrite IH, flush_changes.
Qed.

Lemma advance_run host t w :
  advance host t w
  = (Some (), set_now (now (fire_due host (length (timeouts w)) t w).2 `max` t)
                      (fire_due host (length (timeouts w)) t w).2).
Proof.
  unfold advance. run_M.
  pose proof (fire_due_returns host (length (timeouts w)) t w) as H.
  by destruct (fire_due host (length (timeouts w)) t w) as [[[]|] w'].
Qed.

Lemma advance_changes host t w : changes (advance host t w).2 = changes w.
Proof. rewrite advance_run. simpl. apply fire_due_changes. Qed.

Lemma schedule_run file w :
  (schedule file w).1 = Some ()
  ∧ pending (schedule file w).2 = pending w ∪ {[file]}
  ∧ log (schedule file w).2 = log w.
Proof.
  destruct (timer w) as [h|] eqn:E.
  - by rewrite (schedule_armed file h).
  - by rewrite schedule_unarmed.
Qed.

Lemma mkHandler_changes host file w :
  (mkHandler host file w).1 = Some ()
  ∧ changes (mkHandler host file w).2
    = changes w ∪ list_to_set (scheduled host [file]).
Proof.
  unfold mkHandler, scheduled. fold (is_ejs file).
  destruct (is_ejs file) eqn:E.
  - rewrite filter_cons_True by done.
    destruct (schedule_run (toAbs host file) w) as (H1 & H2 & H3).
    split; [done|]. unfold changes. rewrite H2, H3. simpl. set_solver.
  - rewrite filter_cons_False by (by rewrite E). simpl. split; [done|]. set_solver.
Qed.

Lemma watch_run host ev w :
  watch host ev w = mkHandler host ev.2 (advance host ev.1 w).2.
Proof. unfold watch, mbind, M_bind. by rewrite advance_run. Qed.

Lemma run_cons host ev evs w :
  (watch host ev w).1 = Some () →
  run host (ev :: evs) w = run host evs (watch host ev w).2.
Proof.
  intros H. unfold run. cbn [for_each]. unfold mbind, M_bind.
  destruct (watch host ev w) as [[[]|] w']; done.
Qed.

Lemma scheduled_cons host f files :
  scheduled host (f :: files) = scheduled host [f] ++ scheduled host files.
Proof.
  unfold scheduled. destruct (is_ejs f) eqn:E.
  - by rewrite !filter_cons_True by done.
  - by rewrite !filter_cons_False by (by rewrite E).
Qed.

Lemma run_changes host evs w :
  (run host evs w).1 = Some ()
  ∧ changes (run host evs w).2 = changes w ∪ list_to_set (scheduled host evs.*2).
Proof.
  revert w. induction evs as [|ev evs IH]; intros w.
  - split; [done|]. unfold scheduled. simpl. set_solver.
  - destruct (mkHandler_changes host ev.2 (advance host ev.1 w).2) as [H1 H2].
    rewrite <- watch_run in H1, H2. rewrite run_cons by done.
    destruct (IH (watch host ev w).2) as [H3 H4]. split; [done|].
    rewrite fmap_cons, (scheduled_cons host ev.2 evs.*2), list_to_set_app_L.
    rewrite H4, H2, advance_changes. by rewrite (assoc_L (∪)).
Qed.

(** X14. No change is lost and none is invented: after any run of watcher
    events, from any state, the paths flushed or still pending are those
    there were before, with the absolute paths of the watched files that
    end in [.ejs]; files with another ending add nothing. *)
Theorem run_conserves_changes (host : Host) (evs : list (nat * string))
    (w : World) :
  changes (run host evs w).2 = changes w ∪ list_to_set (scheduled host evs.*2).
Proof. apply run_changes. Qed.

(** Time passing from a coherent state: either no timeout is due and only
    the clock moves, or the one armed timeout fires and [flush] runs on the
    pending paths, which are not empty. *)
Lemma advance_coherent host t w :
  coherent w →
  ((advance host t w).2 = set_now (now w `max` t) w
   ∧ ∀ to, to ∈ timeouts w → t < due to)
  ∨ (timer w ≠ None ∧ pending w ≠ ∅
     ∧ (advance host t w).2
       = set_now (now w `max` t) (flush host (set_timeouts [] w)).2).
Proof.
  unfold coherent. intros Hc. destruct (timer w) as [h|] eqn:Ht.
  - destruct Hc as (Hp & d & Hq & Hd).
    destruct (decide (d ≤ t)) as [Hdt|Hdt].
    + right. split; [done|]. split; [done|].
      rewrite (advance_single host h d) by done. simpl.
      by rewrite flush_world.
    + left. rewrite advance_quiet.
      * split; [done|]. rewrite Hq. intros to ->%list_elem_of_singleton.
        simpl. lia.
      * rewrite Hq. repeat constructor. simpl. lia.
  - destruct Hc as [Hq Hp]. left. rewrite advance_quiet.
    + split; [done|]. rewrite Hq. by intros to ?%elem_of_nil.
    + rewrite Hq. constructor.
Qed.

Lemma flush_coherent host w t :
  coherent (set_now t (flush host (set_timeouts [] w)).2).
Proof.
  unfold coherent. rewrite flush_world. simpl. by destruct (timer w).
Qed.

Lemma set_now_coherent w t : now w ≤ t → coherent w → coherent (set_now t w).
Proof.
  unfold coherent. simpl. destruct (timer w); [|done].
  intros Ht (Hp & d & Hq & Hd). split; [done|]. exists d. split; [done|]. lia.
Qed.

Lemma schedule_coherent file w : coherent w → coherent (schedule file w).2.
Proof.
  unfold coherent. intros Hc. destruct (timer w) as [h|] eqn:Ht.
  - rewrite (schedule_armed file h) by done. simpl. rewrite Ht.
    destruct Hc as (Hp & d & Hq & Hd). split; [set_solver|]. by exists d.
  - rewrite schedule_unarmed by done. simpl. destruct Hc as [-> Hp].
    split; [set_solver|]. by eexists.
Qed.

Lemma schedule_armed_after file w : armed (schedule file w).2 = 1.
Proof.
  unfold armed. destruct (timer w) as [h|] eqn:Ht.
  - rewrite (schedule_armed file h) by done. simpl. by rewrite Ht.
  - by rewrite schedule_unarmed.
Qed.

(** The invariant of a run: the state is coherent, the log has only grown,
    every flush added was for a non-empty array, and the flushes added,
    with the timer if it is armed, are covered by [budget]. *)
Record run_inv (w0 w : World) (budget : nat) : Prop := {
  run_coherent : coherent w;
  run_log : ∃ es, log w = log w0 ++ es
                  ∧ Forall (λ changed, changed ≠ []) (flush_lists es)
                  ∧ flushes es + armed w ≤ budget
}.

Lemma advance_inv host t w0 w budget :
  run_inv w0 w budget → run_inv w0 (advance host t w).2 budget.
Proof.
  intros [Hc (es & Hlog & Hne & Hn)].
  destruct (advance_coherent host t w Hc) as [[-> _]|(Ht & Hp & ->)].
  - split; [apply set_now_coherent; [lia|done]|]. by exists es.
  - split; [apply flush_coherent|].
    exists (es ++ flush_effects host w). simpl. rewrite flush_log. simpl.
    rewrite Hlog, <- app_assoc. split; [done|].
    rewrite flush_lists_app, flushes_app, !flushes_flush_lists.
    change (flush_effects host w) with (flush_effects host (set_timeouts [] w)).
    rewrite flush_lists_flush. simpl. split.
    + apply Forall_app. split; [done|]. constructor; [|done].
      intros H. apply Hp. apply elements_empty_inv in H. by apply leibniz_equiv.
    + rewrite flushes_flush_lists in Hn. unfold armed in *.
      rewrite flush_world. simpl. destruct (timer w); [lia|done].
Qed.

Lemma mkHandler_inv host file w0 w budget :
  run_inv w0 w budget →
  run_inv w0 (mkHandler host file w).2
    (budget + length (filter (λ f, is_ejs f = true) [file])).
Proof.
  intros [Hc (es & Hlog & Hne & Hn)].
  unfold mkHandler. fold (is_ejs file). destruct (is_ejs file) eqn:E.
  - rewrite filter_cons_True by done. simpl.
    split; [by apply schedule_coherent|].
    exists es. destruct (schedule_run (toAbs host file) w) as (_ & _ & ->).
    split; [done|]. split; [done|]. rewrite schedule_armed_after. lia.
  - rewrite filter_cons_False by (by rewrite E). simpl.
    split; [done|]. exists es. split; [done|]. split; [done|]. lia.
Qed.

Lemma run_inv_run host evs w0 w budget :
  run_inv w0 w budget →
  run_inv w0 (run host evs w).2
    (budget + length (filter (λ f, is_ejs f = true) evs.*2)).
Proof.
  revert w budget. induction evs as [|ev evs IH]; intros w budget Hinv.
  - simpl. by rewrite Nat.add_0_r.
  - destruct (mkHandler_changes host ev.2 (advance host ev.1 w).2) as [H1 _].
    rewrite <- watch_run in H1. rewrite run_cons by done.
    rewrite fmap_cons.
    assert (length (filter (λ f, is_ejs f = true) (ev.2 :: evs.*2))
            = length (filter (λ f, is_ejs f = true) [ev.2])
              + length (filter (λ f, is_ejs f = true) evs.*2)) as ->.
    { change (ev.2 :: evs.*2) with ([ev.2] ++ evs.*2).
      by rewrite filter_app, length_app. }
    rewrite Nat.add_assoc. apply IH. rewrite watch_run.
    by apply mkHandler_inv, advance_inv.
Qed.

Lemma run_inv_start w : coherent w → run_inv w w (armed w).
Proof.
  intros Hc. split; [done|]. exists []. rewrite app_nil_r.
  split; [done|]. split; [constructor|]. simpl. lia.
Qed.

(** X15. Between callbacks the scheduler is always coherent: after any run
    of watcher events from a coherent state, either there is no timer, no
    armed timeout and nothing pending, or the timer is the one armed
    timeout, due at most 25 ms from now, and something is pending. *)
Theorem run_coherent_state (host : Host) (evs : list (nat * string)) (w : World) :
  coherent w → coherent (run host evs w).2.
Proof.
  intros Hc.
  by destruct (run_inv_run host evs w w (armed w) (run_inv_start w Hc)) as [H _].
Qed.

(** X16. In any run of watcher events from a coherent state, every flush
    is entered with a non-empty array of changed paths, and there are at
    most as many flushes as events on [.ejs] files, with one more when a
    timer was armed at the start. *)
Theorem run_flushes_bounded (host : Host) (evs : list (nat * string)) (w : World) :
  coherent w →
  let made := effects_of (run host evs) w in
  Forall (λ changed, changed ≠ []) (flush_lists made)
  ∧ flushes made ≤ armed w + length (filter (λ f, is_ejs f = true) evs.*2).
Proof.
  intros Hc made.
  destruct (run_inv_run host evs w w (armed w) (run_inv_start w Hc))
    as [_ (es & Hlog & Hne & Hn)].
  assert (made = es) as ->.
  { unfold made, effects_of. by rewrite Hlog, drop_app_length. }
  split; [done|]. lia.
Qed.

(** X17. From a coherent state, 25 ms without events are enough for
    everything pending to be flushed: afterwards the scheduler is idle and
    every change it was told of has been handed to a flush. *)
Theorem advance_flushes_pending (host : Host) (w : World) (T : nat) :
  coherent w → now w + 25 ≤ T →
  let w' := (advance host T w).2 in
  idle w' ∧ flushed (log w') = changes w.
Proof.
  intros Hc HT w'.
  assert (idle w') as Hidle.
  { unfold w'. destruct (advance_coherent host T w Hc) as [[-> Hq]|(_ & _ & ->)].
    - unfold coherent in Hc. unfold idle. simpl.
      destruct (timer w) as [h|]; [|done].
      destruct Hc as (_ & d & Hq' & Hd). exfalso.
      specialize (Hq {| handle := h; due := d |}). rewrite Hq' in Hq.
      specialize (Hq (list_elem_of_here _ _)). simpl in Hq. lia.
    - unfold idle. rewrite flush_world. simpl. by destruct (timer w). }
  split; [done|].
  pose proof (advance_changes host T w) as H. fold w' in H.
  unfold changes in H at 1. destruct Hidle as (_ & _ & Hp).
  rewrite Hp in H. rewrite <- H. by rewrite (right_id_L ∅ (∪)).
Qed.

Lemma attempted_no_reload host es :
  FullReload ∉ es → FullReload ∉ attempted host es.
Proof.
  intros H Hin. apply H.
  destruct (attempted_prefix host es) as [k ->]. apply elem_of_app. by left.
Qed.

Lemma plan_no_reload host impacted : FullReload ∉ plan host impacted.
Proof.
  unfold plan. case_bool_decide.
  - by intros ?%list_elem_of_singleton.
  - intros (p & ? & _)%list_elem_of_fmap. done.
Qed.

(** X18. A flush sends the reload exactly when the graph is rebuilt and
    none of its compile calls throws: [compileAll] when no page is
    impacted, [compilePage] for each impacted page otherwise. *)
Theorem flush_reloads_iff (host : Host) (w : World) :
  let impacted :=
    getImpactedPages (env host) (elements (pending w))
      (buildDependencyGraph (env host)) in
  FullReload ∈ effects_of (flush host) w
  ↔ graph_throws host (now w) = false
    ∧ ∀ e, e ∈ plan host impacted → throws host e = false.
Proof.
  intros impacted. rewrite effects_of_flush. unfold flush_calls. fold impacted.
  destruct (graph_throws host (now w)).
  { split; [|by intros [? _]]. intros [?|H]%elem_of_cons; [done|].
    by apply elem_of_nil in H. }
  rewrite attempted_app, elem_of_cons, elem_of_app.
  pose proof (attempted_no_reload host _ (plan_no_reload host impacted)) as Hno.
  destruct (forallb (λ e, negb (throws host e)) (plan host impacted)) eqn:E.
  - split.
    + intros _. split; [done|]. intros e He. rewrite forallb_forall in E.
      apply list_elem_of_In, E in He. by apply negb_true_iff.
    + intros _. right. right. simpl. destruct (throws host FullReload); set_solver.
  - split.
    + intros [?|[?|H]]; [done..|]. by apply elem_of_nil in H.
    + intros [_ H]. exfalso. apply not_true_iff_false in E. apply E.
      apply forallb_forall. intros e He%list_elem_of_In.
      by rewrite H.
Qed.

(** A session on the site of [Site]: a partial, a style sheet and a page
    in a burst, and later another partial. *)
Definition session : list (nat * string) :=
  [(100, Site.logo_ejs); (110, "/site/src/main.css"%string);
   (120, Site.b_ejs); (200, Site.nav_ejs)].

Example session_flushes :
  (∃ changed, flush_lists (log (run site_host session start).2) = [changed]
              ∧ changed ≡ₚ [Site.logo_ejs; Site.b_ejs])
  ∧ elements (pending (run site_host session start).2) = [Site.nav_ejs].
Proof.
  split; [|vm_compute; reflexivity].
  eexists. split; [vm_compute; reflexivity|apply perm_swap].
Qed.

Lemma run_coherent_state_witness :
  coherent start ∧ coherent (run site_host session start).2.
Proof.
  assert (coherent start) as H by (apply idle_coherent; done).
  split; [exact H|]. exact (run_coherent_state site_host session start H).
Defined.

Lemma run_flushes_bounded_witness :
  coherent start
  ∧ let made := effects_of (run site_host session) start in
    Forall (λ changed, changed ≠ []) (flush_lists made)
    ∧ flushes made
      ≤ armed start + length (filter (λ f, is_ejs f = true) session.*2).
Proof.
  assert (coherent start) as H by (apply idle_coherent; done).
  split; [exact H|]. exact (run_flushes_bounded site_host session start H).
Defined.

Lemma advance_flushes_pending_witness :
  let w := (schedule Site.logo_ejs start).2 in
  coherent w ∧ now w + 25 ≤ 30
  ∧ let w' := (advance site_host 30 w).2 in
    idle w' ∧ flushed (log w') = changes w.
Proof.
  intros w.
  assert (coherent w) as H1 by (apply schedule_coherent, idle_coherent; done).
  assert (now w + 25 ≤ 30) as H2 by (simpl; lia).
  split; [exact H1|]. split; [exact H2|].
  exact (advance_flushes_pending site_host w 30 H1 H2).
Defined.

End SchedulerLaws.

(** ** [scripts/watch-icons.js]: the debounced sprite rebuild *)

Module WatchIcons.

(** A timeout armed with [setTimeout] and not yet fired or cleared. *)
Record Timer : Type := { ident : nat; fires_at : nat }.

(** What the script prints, with the time on the clock: the line of the
    watcher callback for an [.svg] file, and the outcome of [rebuild()]. *)
Inductive Entry : Type :=
| Seen (t : nat)
| Rebuilt (t : nat).

(** The module variable [debounceTimer] and the event loop around it. *)
Record State : Type := {
  debounceTimer : option nat;
  clock : nat;
  timers : list Timer;
  next_ident : nat;
  trace : list Entry
}.

Definition DEBOUNCE_MS : nat := 20.

(** The state when the module has been loaded. *)
Definition init : State :=
  {| debounceTimer := None; clock := 0; timers := []; next_ident := 1;
     trace := [] |}.

Definition set_debounceTimer (t : option nat) (s : State) : State :=
  {| debounceTimer := t; clock := clock s; timers := timers s;
     next_ident := next_ident s; trace := trace s |}.
Definition set_clock (t : nat) (s : State) : State :=
  {| debounceTimer := debounceTimer s; clock := t; timers := timers s;
     next_ident := next_ident s; trace := trace s |}.
Definition set_timers (q : list Timer) (s : State) : State :=
  {| debounceTimer := debounceTimer s; clock := clock s; timers := q;
     next_ident := next_ident s; trace := trace s |}.
Definition add_entry (e : Entry) (s : State) : State :=
  {| debounceTimer := debounceTimer s; clock := clock s; timers := timers s;
     next_ident := next_ident s; trace := trace s ++ [e] |}.

(** [clearTimeout(h)] *)
Definition clearTimeout (h : nat) (s : State) : State :=
  set_timers (filter (λ to, ident to ≠ h) (timers s)) s.

(** [setTimeout(callback, delay)]: the handle and the new state.  The only
    callback of the script is the one of [scheduleRebuild]. *)
Definition setTimeout (delay : nat) (s : State) : nat * State :=
  (next_ident s,
   {| debounceTimer := debounceTimer s; clock := clock s;
      timers := timers s ++ [{| ident := next_ident s; fires_at := clock s + delay |}];
      next_ident := S (next_ident s); trace := trace s |}).

(** [rebuild()]: it catches what [generateSvgSprite] throws. *)
Definition rebuild (s : State) : State := add_entry (Rebuilt (clock s)) s.

(** The callback armed by [scheduleRebuild]. *)
Definition on_timeout (s : State) : State :=
  rebuild (set_debounceTimer None s).

(** [scheduleRebuild()] *)
Definition scheduleRebuild (s : State) : State :=
  let s1 := match debounceTimer s with
            | Some h => clearTimeout h s
            | None => s
            end in
  let (h, s2) := setTimeout DEBOUNCE_MS s1 in
  set_debounceTimer (Some h) s2.

(** [filename.endsWith('.svg')] *)
Definition svg_name (filename : string) : bool :=
  bool_decide (suffix (String.list_ascii_of_string ".svg")
                      (String.list_ascii_of_string filename)).

(** The callback given to [fs.watch]; [filename] may be [null]. *)
Definition on_watch (filename : option string) (s : State) : State :=
  match filename with
  | Some f =>
      if svg_name f then scheduleRebuild (add_entry (Seen (clock s)) s) else s
  | None => s
  end.

(** The event loop fires the timeouts that are due at time [t], each when
    the clock has reached the time it is due. *)
Fixpoint fire_timers (fuel t : nat) (s : State) : State :=
  match fuel with
  | 0 => s
  | S fuel' =>
      match list_find (λ to, fires_at to ≤ t) (timers s) with
      | Some (i, to) =>
          fire_timers fuel' t
            (on_timeout (set_clock (clock s `max` fires_at to)
                           (set_timers (delete i (timers s)) s)))
      | None => s
      end
  end.

(** Time passes until [t]. *)
Definition elapse (t : nat) (s : State) : State :=
  let s' := fire_timers (length (timers s)) t s in
  set_clock (clock s' `max` t) s'.

(** At time [ev.1] the watcher reports the file name [ev.2]. *)
Definition report (s : State) (ev : nat * option string) : State :=
  on_watch ev.2 (elapse ev.1 s).

Definition replay (evs : list (nat * option string)) (s : State) : State :=
  foldl report s evs.

(** The times of the rebuilds of a trace. *)
Definition rebuilds (tr : list Entry) : list nat :=
  omap (λ e, match e with Rebuilt t => Some t | Seen _ => None end) tr.

(** An event on an [.svg] file. *)
Definition svg_event (ev : nat * option string) : bool :=
  match ev.2 with Some f => svg_name f | None => false end.

(** Each time is at or after the one before, and less than [DEBOUNCE_MS]
    after it. *)
Fixpoint chained (t0 : nat) (times : list nat) : Prop :=
  match times with
  | [] => True
  | t :: times' => t0 ≤ t < t0 + DEBOUNCE_MS ∧ chained t times'
  end.

(** No timer and no armed timeout. *)
Definition quiet (s : State) : Prop :=
  debounceTimer s = None ∧ timers s = [].

(** The state between two callbacks: with no timer nothing is armed; with a
    timer exactly its timeout is armed, due [DEBOUNCE_MS] after the last
    line of the trace, which is that of an [.svg] event. *)
Definition tidy (s : State) : Prop :=
  match debounceTimer s with
  | None => timers s = []
  | Some h =>
      ∃ tr t, trace s = tr ++ [Seen t]
              ∧ timers s = [{| ident := h; fires_at := t + DEBOUNCE_MS |}]
              ∧ clock s ≤ t + DEBOUNCE_MS
  end.


(** *** Properties *)

(** At most one timeout is armed, the one of [debounceTimer]. *)
Definition single (s : State) : Prop :=
  match debounceTimer s with
  | None => timers s = []
  | Some h => ∃ d, timers s = [{| ident := h; fires_at := d |}]
  end.

Lemma tidy_single s : tidy s → single s.
Proof.
  unfold tidy, single. destruct (debounceTimer s); [|done].
  intros (tr & t & _ & Hq & _). by eexists.
Qed.

Lemma scheduleRebuild_single s :
  single s →
  scheduleRebuild s
  = {| debounceTimer := Some (next_ident s); clock := clock s;
       timers := [{| ident := next_ident s; fires_at := clock s + DEBOUNCE_MS |}];
       next_ident := S (next_ident s); trace := trace s |}.
Proof.
  unfold single, scheduleRebuild. intros Hs.
  destruct (debounceTimer s) as [h|] eqn:E; simpl.
  - destruct Hs as [d ->]. simpl.
    rewrite filter_cons_False by (simpl; auto). done.
  - by rewrite Hs.
Qed.

Lemma on_watch_svg s f :
  single s → svg_name f = true →
  on_watch (Some f) s
  = {| debounceTimer := Some (next_ident s); clock := clock s;
       timers := [{| ident := next_ident s; fires_at := clock s + DEBOUNCE_MS |}];
       next_ident := S (next_ident s); trace := trace s ++ [Seen (clock s)] |}.
Proof.
  intros Hs Hf. simpl. rewrite Hf. by rewrite scheduleRebuild_single.
Qed.

Lemma on_watch_tidy s filename : tidy s → tidy (on_watch filename s).
Proof.
  intros Ht. destruct filename as [f|]; [|done].
  destruct (svg_name f) eqn:Hf; [|by simpl; rewrite Hf].
  rewrite on_watch_svg by (done || by apply tidy_single).
  unfold tidy. simpl. exists (trace s), (clock s). split; [done|]. split; [done|]. lia.
Qed.

(** Time passing from a tidy state: either nothing is due and only the
    clock moves, or the armed timeout fires, at the time it is due. *)
Lemma advance_tidy t s :
  tidy s →
  (elapse t s = set_clock (clock s `max` t) s
   ∧ ∀ to, to ∈ timers s → t < fires_at to)
  ∨ (∃ tr t0, trace s = tr ++ [Seen t0] ∧ t0 + DEBOUNCE_MS ≤ t
       ∧ debounceTimer s ≠ None
       ∧ elapse t s
         = {| debounceTimer := None; clock := t; timers := [];
              next_ident := next_ident s;
              trace := trace s ++ [Rebuilt (t0 + DEBOUNCE_MS)] |}).
Proof.
  unfold tidy, elapse. intros Ht. destruct (debounceTimer s) as [h|] eqn:E.
  - destruct Ht as (tr & t0 & Htr & Hq & Hc). rewrite Hq. simpl. rewrite Hq. simpl.
    destruct (decide (t0 + DEBOUNCE_MS ≤ t)) as [Hd|Hd].
    + right. exists tr, t0. split; [done|]. split; [done|]. split; [done|].
      simpl. unfold on_timeout, rebuild, add_entry, set_clock. simpl.
      f_equal; [lia|]. do 3 f_equal. lia.
    + left. split; [done|]. intros to ->%list_elem_of_singleton. simpl. lia.
  - rewrite Ht. simpl. left. split; [done|]. by intros to ?%elem_of_nil.
Qed.

Lemma advance_preserves_tidy t s : tidy s → tidy (elapse t s).
Proof.
  intros Ht. destruct (advance_tidy t s Ht) as [[-> Hq]|(tr & t0 & _ & _ & _ & ->)];
    [|done].
  unfold tidy in *. simpl. destruct (debounceTimer s) as [h|]; [|done].
  destruct Ht as (tr & t0 & Htr & Hq' & Hc). exists tr, t0.
  split; [done|]. split; [done|].
  specialize (Hq {| ident := h; fires_at := t0 + DEBOUNCE_MS |}).
  rewrite Hq' in Hq. simpl in Hq. specialize (Hq (list_elem_of_here _ _)). lia.
Qed.

Lemma watch_tidy s ev : tidy s → tidy (report s ev).
Proof. intros Ht. by apply on_watch_tidy, advance_preserves_tidy. Qed.

Lemma run_tidy evs s : tidy s → tidy (replay evs s).
Proof.
  revert s. induction evs as [|ev evs IH]; intros s Ht; [done|].
  apply IH. by apply watch_tidy.
Qed.






Lemma rebuilds_app l k : rebuilds (l ++ k) = rebuilds l ++ rebuilds k.
Proof. apply omap_app. Qed.

(** A chain of [.svg] events after an armed timer re-arms it each time. *)
Lemma chain_rearms rest s t0 tr :
  tidy s → debounceTimer s ≠ None → trace s = tr ++ [Seen t0] → clock s = t0 →
  Forall (λ ev, svg_event ev = true) rest → chained t0 rest.*1 →
  let s' := replay rest s in
  let t1 := default t0 (last rest.*1) in
  rebuilds (trace s') = rebuilds (trace s)
  ∧ tidy s' ∧ debounceTimer s' ≠ None ∧ clock s' = t1
  ∧ ∃ tr', trace s' = tr' ++ [Seen t1].
Proof.
  revert s t0 tr. induction rest as [|[t fo] rest IH]; intros s t0 tr Ht Hd Htr Hc Hsvg Hch.
  - simpl. repeat split; try done. by exists tr.
  - apply Forall_cons in Hsvg as [Hf Hsvg]. unfold svg_event in Hf. simpl in Hf.
    destruct fo as [f|]; [|done].
    rewrite fmap_cons in Hch. destruct Hch as [Hlt Hch]. simpl in Hlt.
    assert (elapse t s = set_clock t s) as Hadv.
    { destruct (advance_tidy t s Ht) as [[-> _]|(tr1 & t1 & Htr1 & Hle & _ & _)].
      - f_equal. lia.
      - rewrite Htr in Htr1. apply app_inj_tail in Htr1 as [_ [= <-]]. lia. }
    assert (report s (t, Some f)
            = {| debounceTimer := Some (next_ident s); clock := t;
                 timers := [{| ident := next_ident s; fires_at := t + DEBOUNCE_MS |}];
                 next_ident := S (next_ident s);
                 trace := trace s ++ [Seen t] |}) as Hw.
    { unfold report. simpl fst. simpl snd. rewrite Hadv.
      rewrite on_watch_svg; [by simpl| |done].
      by apply tidy_single in Ht. }
    cbv zeta. change (replay ((t, Some f) :: rest) s) with (replay rest (report s (t, Some f))).
    destruct (IH (report s (t, Some f)) t (trace s)) as (H1 & H2 & H3 & H4 & H5);
      [|by rewrite Hw..|done|done|].
    { rewrite Hw. unfold tidy. simpl. exists (trace s), t.
      split; [done|]. split; [done|]. lia. }
    assert (default t0 (last ((t, Some f) :: rest).*1) = default t (last rest.*1)) as ->.
    { rewrite fmap_cons. simpl fst. destruct (rest.*1) as [|t' l] eqn:E; [done|].
      rewrite last_cons_cons. destruct (last (t' :: l)) eqn:E'; [done|].
      by apply last_None in E'. }
    split; [|done]. rewrite H1, Hw. simpl. rewrite rebuilds_app. simpl.
    by rewrite app_nil_r.
Qed.

(** X20. A burst of [.svg] events, each less than [DEBOUNCE_MS] after the
    one before, starts no rebuild while it lasts and leaves one timeout
    armed, due [DEBOUNCE_MS] after its last event; when that time has come
    there is exactly one rebuild, at that time, and the timer is free. *)
Theorem burst_rebuilds_once (s : State) (t0 : nat) (f0 : string)
    (rest : list (nat * option string)) (T : nat) :
  quiet s → clock s ≤ t0 → svg_name f0 = true →
  Forall (λ ev, svg_event ev = true) rest → chained t0 rest.*1 →
  default t0 (last rest.*1) + DEBOUNCE_MS ≤ T →
  let t1 := default t0 (last rest.*1) in
  let s1 := replay ((t0, Some f0) :: rest) s in
  let s2 := elapse T s1 in
  rebuilds (trace s1) = rebuilds (trace s)
  ∧ (∃ h, debounceTimer s1 = Some h
          ∧ timers s1 = [{| ident := h; fires_at := t1 + DEBOUNCE_MS |}])
  ∧ rebuilds (trace s2) = rebuilds (trace s) ++ [t1 + DEBOUNCE_MS]
  ∧ quiet s2.
Proof.
  intros [Hd Hq] Hc Hf Hsvg Hch HT t1 s1 s2.
  assert (tidy s) as Ht by (unfold tidy; by rewrite Hd).
  assert (report s (t0, Some f0)
          = {| debounceTimer := Some (next_ident s); clock := t0;
               timers := [{| ident := next_ident s; fires_at := t0 + DEBOUNCE_MS |}];
               next_ident := S (next_ident s);
               trace := trace s ++ [Seen t0] |}) as Hw.
  { unfold report. simpl fst. simpl snd.
    assert (elapse t0 s = set_clock t0 s) as ->.
    { unfold elapse. rewrite Hq. simpl. f_equal. lia. }
    rewrite on_watch_svg; [by simpl| |done].
    unfold single. simpl. by rewrite Hd. }
  destruct (chain_rearms rest (report s (t0, Some f0)) t0 (trace s))
    as (H1 & H2 & H3 & H4 & tr' & H5); [|by rewrite Hw..|done|done|].
  { rewrite Hw. unfold tidy. simpl. exists (trace s), t0.
    split; [done|]. split; [done|]. lia. }
  change (replay rest (report s (t0, Some f0))) with s1 in *. fold t1 in H4, H5.
  assert (rebuilds (trace s1) = rebuilds (trace s)) as Hr.
  { rewrite H1, Hw. simpl. rewrite rebuilds_app. simpl. by rewrite app_nil_r. }
  split; [done|]. split.
  { unfold tidy in H2. destruct (debounceTimer s1) as [h|]; [|done].
    destruct H2 as (tr2 & t2 & Htr2 & Hq2 & _). exists h. split; [done|].
    rewrite H5 in Htr2. apply app_inj_tail in Htr2 as [_ [= ->]]. done. }
  destruct (advance_tidy T s1 H2) as [[_ Hno]|(tr2 & t2 & Htr2 & _ & _ & Hadv)].
  - exfalso. unfold tidy in H2. destruct (debounceTimer s1) as [h|]; [|done].
    destruct H2 as (tr2 & t2 & Htr2 & Hq2 & _).
    rewrite H5 in Htr2. apply app_inj_tail in Htr2 as [_ [= <-]].
    specialize (Hno {| ident := h; fires_at := t1 + DEBOUNCE_MS |}).
    rewrite Hq2 in Hno. specialize (Hno (list_elem_of_here _ _)). simpl in Hno.
    unfold t1 in Hno. lia.
  - unfold s2. rewrite Hadv. simpl.
    rewrite H5 in Htr2. apply app_inj_tail in Htr2 as [_ [= <-]].
    split; [|done]. rewrite rebuilds_app, Hr. done.
Qed.

(** Three saves of icons in a row, and a fourth a while later. *)
Definition saves : list (nat * option string) :=
  [(100, Some "a.svg"%string); (110, Some "b.svg"%string);
   (115, Some "notes.txt"%string); (125, Some "c.svg"%string);
   (300, Some "a.svg"%string); (400, None)].

Example saves_trace :
  trace (replay saves init)
  = [Seen 100; Seen 110; Seen 125; Rebuilt 145; Seen 300; Rebuilt 320].
Proof. vm_compute. reflexivity. Qed.


Lemma burst_rebuilds_once_witness :
  let rest := [(110, Some "b.svg"%string); (125, Some "c.svg"%string)] in
  quiet init ∧ clock init ≤ 100 ∧ svg_name "a.svg" = true
  ∧ Forall (λ ev, svg_event ev = true) rest ∧ chained 100 rest.*1
  ∧ default 100 (last rest.*1) + DEBOUNCE_MS ≤ 150
  ∧ let s1 := replay ((100, Some "a.svg"%string) :: rest) init in
    rebuilds (trace (elapse 150 s1)) = rebuilds (trace init) ++ [125 + DEBOUNCE_MS]
    ∧ quiet (elapse 150 s1).
Proof.
  intros rest.
  assert (quiet init) as H1 by done.
  assert (clock init ≤ 100) as H2 by (simpl; lia).
  assert (svg_name "a.svg" = true) as H3 by (vm_compute; reflexivity).
  assert (Forall (λ ev, svg_event ev = true) rest) as H4
    by (unfold rest; repeat constructor; vm_compute; reflexivity).
  assert (chained 100 rest.*1) as H5
    by (unfold rest; cbn [chained fmap list_fmap fst]; unfold DEBOUNCE_MS; lia).
  assert (default 100 (last rest.*1) + DEBOUNCE_MS ≤ 150) as H6
    by (change (125 + 20 ≤ 150); lia).
  split; [exact H1|]. split; [exact H2|]. split; [exact H3|]. split; [exact H4|].
  split; [exact H5|]. split; [exact H6|].
  destruct (burst_rebuilds_once init 100 "a.svg" rest 150 H1 H2 H3 H4 H5 H6)
    as (_ & _ & Hr & Hq).
  split; [exact Hr|exact Hq].
Defined.

End WatchIcons.

(** ** [generateSvgSprite]: the sprite and the file it is written to *)

Module SpriteFile.
Import SvgSprite.

(** The calls of [node:fs/promises] that [generateSvgSprite] awaits after
    [readdir], each of which can reject: the read of an icon, and the three
    steps of the write. *)
Inductive FsCall : Type :=
| ReadIcon (fileName : string)
| Mkdir
| WriteTmp
| RenameTmp.

(** What the module takes from Node and from its two helpers: the text of
    the icons by file name, and which of the awaited calls reject. *)
Record Tools : Type := {
  extname : string → string;
  toLowerCase : string → string;
  readFile : string → string;
  svgToSymbol : string → string → option string;
  makeSymbolId : string → string;
  rejects : FsCall → bool
}.

(** The outcome of [readdir(iconsDirAbs, { withFileTypes: true })]. *)
Inductive Listing : Type :=
| Entries (dirEntries : list Dirent)
| NoSuchDir
| ReaddirError.

(** The files by path, and the paths written or renamed so far, which is
    what a watcher is told of. *)
Record Disk : Type := { files : gmap string string; touched : list string }.

(** The sprite written when the icons directory does not exist. *)
Definition EMPTY_SPRITE : string := (SPRITE_OPEN ++ "</svg>" ++ NL)%string.

(** [writeFile(path, text, 'utf8')] *)
Definition writeFile (path text : string) (disk : Disk) : Disk :=
  {| files := <[path := text]> (files disk); touched := touched disk ++ [path] |}.

(** [rename(from, to)]; it rejects when [from] does not exist. *)
Definition rename (from to : string) (disk : Disk) : option Disk :=
  match files disk !! from with
  | Some text =>
      Some {| files := <[to := text]> (delete from (files disk));
              touched := touched disk ++ [from; to] |}
  | None => None
  end.

(** The end of both branches of [generateSvgSprite]: the text is compared
    with the file as it is, read as the empty string when it cannot be
    read, and written through a temporary file when it differs.  [mkdir]
    makes directories only, which hold no text.  [None] when one of the
    three steps rejects; what is on the disk then is not followed. *)
Definition write_if_changed (tools : Tools) (outputFileAbs text : string)
    (disk : Disk) : option Disk :=
  let existing := default ""%string (files disk !! outputFileAbs) in
  if bool_decide (existing = text) then Some disk
  else if rejects tools Mkdir then None
  else
    let tmpFile := (outputFileAbs ++ ".tmp")%string in
    if rejects tools WriteTmp then None
    else if rejects tools RenameTmp then None
    else rename tmpFile outputFileAbs (writeFile tmpFile text disk).

(** The text [generateSvgSprite] sets out to write, when the reads of the
    icons complete in the order [completion]; [None] when it rethrows the
    error of [readdir]. *)
Definition sprite_text (tools : Tools) (listing : Listing)
    (completion : list string) : option string :=
  match listing with
  | Entries _ =>
      Some (sprite (readFile tools) (svgToSymbol tools) (makeSymbolId tools)
              completion)
  | NoSuchDir => Some EMPTY_SPRITE
  | ReaddirError => None
  end.

(** Whether [Promise.all] rejects: the read of one of the icons does.  All
    the reads are started, those of the files of [completion]. *)
Definition reads_reject (tools : Tools) (listing : Listing)
    (completion : list string) : bool :=
  match listing with
  | Entries _ =>
      bool_decide (Exists (λ f, rejects tools (ReadIcon f) = true) completion)
  | NoSuchDir | ReaddirError => false
  end.

(** [generateSvgSprite(iconsDirPath, outputFilePath)], on the listing of
    the icons directory and the resolved output path; [None] when the
    promise rejects. *)
Definition generateSvgSprite (tools : Tools) (listing : Listing)
    (completion : list string) (outputFileAbs : string) (disk : Disk) : option Disk :=
  if reads_reject tools listing completion then None
  else
    match sprite_text tools listing completion with
    | Some text => write_if_changed tools outputFileAbs text disk
    | None => None
    end.

(** *** Properties *)


Lemma append_cancel (s a b : string) : (s ++ a = s ++ b)%string → a = b.
Proof. induction s as [|c s IH]; simpl; [done|]. intros [= H]. by apply IH. Qed.




Lemma sprite_body_differs symbols : sprite_of symbols ≠ EMPTY_SPRITE.
Proof.
  unfold sprite_of, EMPTY_SPRITE. intros H. apply append_cancel in H.
  by case_bool_decide.
Qed.






(** X22. The sprite of an icons directory that exists is never the text
    written for a missing directory, whatever the icons are: between the two
    situations the output file is always rewritten. *)
Theorem sprite_never_empty_sprite (tools : Tools) (dirEntries : list Dirent)
    (completion completion' : list string) :
  bool_decide (sprite_text tools (Entries dirEntries) completion
               = sprite_text tools NoSuchDir completion') = false.
Proof.
  apply bool_decide_eq_false_2. simpl. intros H.
  assert (sprite (readFile tools) (svgToSymbol tools) (makeSymbolId tools)
            completion = EMPTY_SPRITE) as H' by congruence.
  by apply sprite_body_differs in H'.
Qed.






(** A directory of two icons and a text file; the icon [b.SVG] has no
    [<svg>] tag. *)
Definition demo_tools : Tools :=
  {| extname := demo_extname; toLowerCase := demo_lower; readFile := λ n, n;
     svgToSymbol := λ id raw, if String.eqb raw "b.SVG" then None
                              else demo_symbol id raw;
     makeSymbolId := demo_id; rejects := λ _, false |}.

Definition demo_entries : list Dirent :=
  [ {| name := "b.SVG"; isFile := true |};
    {| name := "notes.txt"; isFile := true |};
    {| name := "a.svg"; isFile := true |} ]%string.

Definition demo_out : string := "/site/src/partials/svg-sprite.ejs".

Definition demo_disk : Disk := {| files := ∅; touched := [] |}.

Example demo_first_run :
  let disk1 := generateSvgSprite demo_tools (Entries demo_entries)
               ["b.SVG"; "a.svg"]%string demo_out demo_disk in
  (touched <$> disk1)
  = Some [(demo_out ++ ".tmp")%string; (demo_out ++ ".tmp")%string; demo_out]
  ∧ ((λ disk, map_to_list (files disk)) <$> disk1)
    = Some [(demo_out,
             (SPRITE_OPEN ++ NL ++ "<symbol id=icon-a>a.svg</symbol>" ++ NL ++ NL
              ++ "</svg>" ++ NL)%string)].
Proof. vm_compute. split; reflexivity. Qed.

(** The read of one icon rejects: nothing is written. *)
Example demo_read_rejects :
  generateSvgSprite
    {| extname := demo_extname; toLowerCase := demo_lower; readFile := λ n, n;
       svgToSymbol := demo_symbol; makeSymbolId := demo_id;
       rejects := λ call, match call with
                          | ReadIcon f => String.eqb f "a.svg"
                          | _ => false
                          end |}
    (Entries demo_entries) ["b.SVG"; "a.svg"]%string demo_out demo_disk
  = None.
Proof. vm_compute. reflexivity. Qed.



End SpriteFile.

(** ** Walking directories: [walkDir] and [findCssFiles] *)

Module FsWalk.

(** What a call of [node:fs] throws: an error with a [code], or something
    else. *)
Inductive Err : Type :=
| Coded (code : string)
| Uncoded.

Definition ENOENT : Err := Coded "ENOENT".

(** The synchronous file-system calls the walks make, and [path.join];
    [isDirectory p] is [statSync(p).isDirectory()]. *)
Record Fs : Type := {
  existsSync : string → bool;
  readdirSync : string → Err + list string;
  isDirectory : string → Err + bool;
  join : string → string → string
}.

(** How a call ends: it returns, it throws, or the budget of nested
    calls of the model is used up. *)
Inductive Outcome (A : Type) : Type :=
| Returns (x : A)
| Throws (e : Err)
| OutOfFuel.
Arguments Returns {A} x.
Arguments Throws {A} e.
Arguments OutOfFuel {A}.

#[export] Instance Outcome_ret : MRet Outcome := λ A x, Returns x.
#[export] Instance Outcome_bind : MBind Outcome := λ A B f m,
  match m with
  | Returns x => f x
  | Throws e => Throws e
  | OutOfFuel => OutOfFuel
  end.

(** The result of a file-system call, as an outcome. *)
Definition lift {A} (r : Err + A) : Outcome A :=
  match r with inl e => Throws e | inr x => Returns x end.

(** [for (const x of l) body], on the array being filled. *)
Fixpoint for_of {A B} (l : list A) (acc : B) (body : B → A → Outcome B) : Outcome B :=
  match l with
  | [] => mret acc
  | x :: l' => acc' ← body acc x; for_of l' acc' body
  end.

(** The same loop inside a [try] block: the array as it is when the block
    is left, and what was thrown, if anything. *)
Fixpoint for_of_try {A B} (l : list A) (acc : B) (body : B → A → Outcome B) :
    Outcome (B * option Err) :=
  match l with
  | [] => Returns (acc, None)
  | x :: l' =>
      match body acc x with
      | Returns acc' => for_of_try l' acc' body
      | Throws e => Returns (acc, Some e)
      | OutOfFuel => OutOfFuel
      end
  end.

(** [s.endsWith(ending)] *)
Definition endsWith (s ending : string) : bool :=
  bool_decide (suffix (String.list_ascii_of_string ending)
                      (String.list_ascii_of_string s)).

(** [walkDir(dir)] of [compile-ejs.js] *)
Fixpoint walkDir (fs : Fs) (fuel : nat) (dir : string) : Outcome (list string) :=
  match fuel with
  | 0 => OutOfFuel
  | S fuel' =>
      if negb (existsSync fs dir) then mret []
      else
        entries ← lift (readdirSync fs dir);
        for_of entries [] (λ out entry,
          let p := join fs dir entry in
          d ← lift (isDirectory fs p);
          if d : bool then sub ← walkDir fs fuel' p; mret (out ++ sub)
          else if endsWith p ".ejs" then mret (out ++ [p])
          else mret out)
  end.

(** The [catch] of [findCssFiles]: an error is thrown again when it has a
    code other than [ENOENT]. *)
Definition rethrown (e : Err) : bool :=
  match e with
  | Coded code => bool_decide (code ≠ "ENOENT"%string)
  | Uncoded => false
  end.

(** [findCssFiles(dir)] of [minify-css.js] *)
Fixpoint findCssFiles (fs : Fs) (fuel : nat) (dir : string) : Outcome (list string) :=
  match fuel with
  | 0 => OutOfFuel
  | S fuel' =>
      '(files, thrown) ←
        match readdirSync fs dir with
        | inl e => Returns ([], Some e)
        | inr entries =>
            for_of_try entries [] (λ files entry,
              let fullPath := join fs dir entry in
              d ← lift (isDirectory fs fullPath);
              if d : bool then
                sub ← findCssFiles fs fuel' fullPath; mret (files ++ sub)
              else if endsWith entry ".css" then mret (files ++ [fullPath])
              else mret files)
        end;
      match thrown with
      | Some e => if rethrown e then Throws e else Returns files
      | None => Returns files
      end
  end.

(** Below [dir] the directories are nested to a depth of at most
    [depth dir]: no directory is reached again from inside itself. *)
Definition nested (fs : Fs) (depth : string → nat) : Prop :=
  ∀ dir entries entry,
    readdirSync fs dir = inr entries → entry ∈ entries →
    isDirectory fs (join fs dir entry) = inr true →
    depth (join fs dir entry) < depth dir.

(** *** Properties *)

Lemma for_of_inv {A B} (P : B → Prop) (l : list A) acc (body : B → A → Outcome B) out :
  P acc →
  (∀ acc x acc', x ∈ l → P acc → body acc x = Returns acc' → P acc') →
  for_of l acc body = Returns out → P out.
Proof.
  revert acc. induction l as [|x l IH]; intros acc Hacc Hbody; simpl.
  - by intros [= <-].
  - unfold mbind, Outcome_bind. destruct (body acc x) as [acc'| |] eqn:E; [|done..].
    apply IH.
    + eapply Hbody; [apply list_elem_of_here|done..].
    + intros a y a' Hy. apply Hbody. by apply list_elem_of_further.
Qed.

Lemma for_of_try_inv {A B} (P : B → Prop) (l : list A) acc
    (body : B → A → Outcome B) out thrown :
  P acc →
  (∀ acc x acc', x ∈ l → P acc → body acc x = Returns acc' → P acc') →
  for_of_try l acc body = Returns (out, thrown) → P out.
Proof.
  revert acc. induction l as [|x l IH]; intros acc Hacc Hbody; simpl.
  - by intros [= <- _].
  - destruct (body acc x) as [acc'|e|] eqn:E; [|by intros [= <- _]|done].
    apply IH.
    + eapply Hbody; [apply list_elem_of_here|done..].
    + intros a y a' Hy. apply Hbody. by apply list_elem_of_further.
Qed.

Lemma for_of_try_thrown {A B} (Q : Err → Prop) (l : list A) acc
    (body : B → A → Outcome B) out e :
  (∀ acc x e, x ∈ l → body acc x = Throws e → Q e) →
  for_of_try l acc body = Returns (out, Some e) → Q e.
Proof.
  revert acc. induction l as [|x l IH]; intros acc Hbody; simpl; [done|].
  destruct (body acc x) as [acc'|e'|] eqn:E; [| |done].
  - apply IH. intros a y e' Hy. apply Hbody. by apply list_elem_of_further.
  - intros [= _ <-]. eapply Hbody; [apply list_elem_of_here|done].
Qed.

Lemma for_of_try_catches {A B} (l : list A) acc (body : B → A → Outcome B) e :
  for_of_try l acc body ≠ Throws e.
Proof.
  revert acc. induction l as [|x l IH]; intros acc; simpl; [done|].
  by destruct (body acc x).
Qed.

Lemma walkDir_files fs fuel dir out :
  walkDir fs fuel dir = Returns out →
  Forall (λ p, endsWith p ".ejs" = true ∧ isDirectory fs p = inr false) out.
Proof.
  revert dir out. induction fuel as [|fuel IH]; intros dir out; [done|]. simpl.
  destruct (existsSync fs dir); simpl; [|by intros [= <-]].
  destruct (readdirSync fs dir) as [e|entries]; [done|]. simpl.
  apply for_of_inv; [constructor|].
  intros acc entry acc' _ Hacc. unfold mbind, Outcome_bind.
  destruct (isDirectory fs (join fs dir entry)) as [e|[]] eqn:Hd; simpl; [done|..].
  - destruct (walkDir fs fuel (join fs dir entry)) as [sub| |] eqn:Hsub; [|done..].
    intros [= <-]. apply Forall_app. split; [done|]. by apply IH in Hsub.
  - destruct (endsWith (join fs dir entry) ".ejs") eqn:He; intros [= <-]; [|done].
    apply Forall_app. split; [done|]. by repeat constructor.
Qed.

(** X25. Every path [walkDir] returns ends in [.ejs] and was reported by
    [statSync] as something other than a directory. *)
Theorem walkDir_only_ejs_files (fs : Fs) (fuel : nat) (dir : string)
    (out : list string) :
  walkDir fs fuel dir = Returns out →
  Forall (λ p, endsWith p ".ejs" = true ∧ isDirectory fs p = inr false) out.
Proof. apply walkDir_files. Qed.

Lemma for_of_fuel {A B} (l : list A) acc (body : B → A → Outcome B) :
  (∀ acc x, x ∈ l → body acc x ≠ OutOfFuel) → for_of l acc body ≠ OutOfFuel.
Proof.
  revert acc. induction l as [|x l IH]; intros acc Hbody; simpl; [done|].
  unfold mbind, Outcome_bind. destruct (body acc x) as [acc'| |] eqn:E; [|done|].
  - apply IH. intros a y Hy. apply Hbody. by apply list_elem_of_further.
  - by destruct (Hbody acc x (list_elem_of_here _ _)).
Qed.

Lemma for_of_agree {A B} (l : list A) acc (body body' : B → A → Outcome B) :
  (∀ acc x, x ∈ l → body acc x ≠ OutOfFuel → body' acc x = body acc x) →
  for_of l acc body ≠ OutOfFuel → for_of l acc body' = for_of l acc body.
Proof.
  revert acc. induction l as [|x l IH]; intros acc Hbody; simpl; [done|].
  unfold mbind, Outcome_bind. intros Hr.
  rewrite (Hbody acc x (list_elem_of_here _ _)) by (by destruct (body acc x)).
  destruct (body acc x) as [acc'| |] eqn:E; [|done..].
  apply IH; [|done]. intros a y Hy. apply Hbody. by apply list_elem_of_further.
Qed.

Lemma walkDir_fuel fs depth :
  nested fs depth →
  ∀ fuel dir, depth dir < fuel → walkDir fs fuel dir ≠ OutOfFuel.
Proof.
  intros Hn. induction fuel as [|fuel IH]; intros dir Hd; [lia|]. simpl.
  destruct (existsSync fs dir); simpl; [|done].
  destruct (readdirSync fs dir) as [e|entries] eqn:Hdir; [done|]. simpl.
  apply for_of_fuel. intros acc entry Hentry. unfold mbind, Outcome_bind.
  destruct (isDirectory fs (join fs dir entry)) as [e|[]] eqn:Hp; simpl; [done|..].
  - pose proof (Hn dir entries entry Hdir Hentry Hp) as Hlt.
    specialize (IH (join fs dir entry)).
    destruct (walkDir fs fuel (join fs dir entry)); [done..|]. apply IH. lia.
  - by destruct (endsWith _ _).
Qed.

Lemma walkDir_more_fuel fs fuel dir :
  walkDir fs fuel dir ≠ OutOfFuel →
  walkDir fs (S fuel) dir = walkDir fs fuel dir.
Proof.
  revert dir. induction fuel as [|fuel IH]; intros dir; [done|].
  change (walkDir fs (S (S fuel)) dir) with
    (if negb (existsSync fs dir) then mret []
     else entries ← lift (readdirSync fs dir);
          for_of entries [] (λ out entry,
            let p := join fs dir entry in
            d ← lift (isDirectory fs p);
            if d : bool then sub ← walkDir fs (S fuel) p; mret (out ++ sub)
            else if endsWith p ".ejs" then mret (out ++ [p])
            else mret out)).
  change (walkDir fs (S fuel) dir) with
    (if negb (existsSync fs dir) then mret []
     else entries ← lift (readdirSync fs dir);
          for_of entries [] (λ out entry,
            let p := join fs dir entry in
            d ← lift (isDirectory fs p);
            if d : bool then sub ← walkDir fs fuel p; mret (out ++ sub)
            else if endsWith p ".ejs" then mret (out ++ [p])
            else mret out)).
  destruct (negb (existsSync fs dir)); [done|].
  destruct (readdirSync fs dir) as [e|entries]; [done|].
  unfold mbind at 1 3. unfold Outcome_bind at 1 3. cbn [lift].
  apply for_of_agree. intros acc entry _. cbv zeta. unfold mbind, Outcome_bind.
  destruct (isDirectory fs (join fs dir entry)) as [e|[]]; cbn [lift]; [done| |done].
  intros Hr. rewrite IH; [done|].
  by destruct (walkDir fs fuel (join fs dir entry)).
Qed.

(** X26. Where directories are nested to a bounded depth, [walkDir] ends:
    it returns or throws what a file-system call threw, and the outcome
    is the same for every budget above the depth. *)
Theorem walkDir_ends (fs : Fs) (depth : string → nat) (dir : string) :
  nested fs depth →
  ∃ outcome, outcome ≠ OutOfFuel
    ∧ ∀ fuel, depth dir < fuel → walkDir fs fuel dir = outcome.
Proof.
  intros Hn. exists (walkDir fs (S (depth dir)) dir).
  split; [apply (walkDir_fuel fs depth Hn); lia|].
  intros fuel Hfuel.
  assert (∃ k, fuel = k + S (depth dir)) as [k ->] by (exists (fuel - S (depth dir)); lia).
  clear Hfuel. induction k as [|k IH]; [done|].
  change (S k + S (depth dir)) with (S (k + S (depth dir))).
  rewrite walkDir_more_fuel; [done|]. rewrite IH.
  apply (walkDir_fuel fs depth Hn). lia.
Qed.

Lemma findCssFiles_spec fs fuel dir :
  match findCssFiles fs fuel dir with
  | Returns out => Forall (λ p, isDirectory fs p = inr false) out
  | Throws e => rethrown e = true
  | OutOfFuel => True
  end.
Proof.
  revert dir. induction fuel as [|fuel IH]; intros dir; [done|]. simpl.
  unfold mbind, Outcome_bind.
  destruct (readdirSync fs dir) as [e|entries].
  { destruct (rethrown e) eqn:E; [done|constructor]. }
  set (body := λ (files : list string) (entry : string), _).
  destruct (for_of_try entries [] body) as [[files [e|]]|e|] eqn:Hloop;
    [| |by apply for_of_try_catches in Hloop|done].
  - destruct (rethrown e) eqn:E; [done|].
    eapply (for_of_try_inv (Forall (λ p, isDirectory fs p = inr false)));
      [| |exact Hloop]; [constructor|].
    intros acc entry acc' _ Hacc. unfold body, mbind, Outcome_bind.
    destruct (isDirectory fs (join fs dir entry)) as [e'|[]] eqn:Hd; simpl; [done|..].
    + specialize (IH (join fs dir entry)).
      destruct (findCssFiles fs fuel (join fs dir entry)) as [sub| |]; [|done..].
      intros [= <-]. by apply Forall_app.
    + destruct (endsWith entry ".css"); intros [= <-]; [|done].
      apply Forall_app. split; [done|]. by repeat constructor.
  - eapply (for_of_try_inv (Forall (λ p, isDirectory fs p = inr false)));
      [| |exact Hloop]; [constructor|].
    intros acc entry acc' _ Hacc. unfold body, mbind, Outcome_bind.
    destruct (isDirectory fs (join fs dir entry)) as [e'|[]] eqn:Hd; simpl; [done|..].
    + specialize (IH (join fs dir entry)).
      destruct (findCssFiles fs fuel (join fs dir entry)) as [sub| |]; [|done..].
      intros [= <-]. by apply Forall_app.
    + destruct (endsWith entry ".css"); intros [= <-]; [|done].
      apply Forall_app. split; [done|]. by repeat constructor.
Qed.

(** X27. [findCssFiles] never throws [ENOENT], nor an error without a
    code: whatever it throws has a code other than [ENOENT]; and what it
    returns are paths [statSync] reported as something other than a
    directory. *)
Theorem findCssFiles_never_enoent (fs : Fs) (fuel : nat) (dir : string) :
  match findCssFiles fs fuel dir with
  | Returns out => Forall (λ p, isDirectory fs p = inr false) out
  | Throws e => ∃ code, e = Coded code ∧ code ≠ "ENOENT"%string
  | OutOfFuel => True
  end.
Proof.
  pose proof (findCssFiles_spec fs fuel dir) as H.
  destruct (findCssFiles fs fuel dir) as [out|[code|]|]; [done| |done|done].
  simpl in H. apply bool_decide_eq_true_1 in H. by exists code.
Qed.

Lemma for_of_try_fuel {A B} (l : list A) acc (body : B → A → Outcome B) :
  (∀ acc x, x ∈ l → body acc x ≠ OutOfFuel) → for_of_try l acc body ≠ OutOfFuel.
Proof.
  revert acc. induction l as [|x l IH]; intros acc Hbody; simpl; [done|].
  destruct (body acc x) as [acc'| |] eqn:E; [|done|].
  - apply IH. intros a y Hy. apply Hbody. by apply list_elem_of_further.
  - by destruct (Hbody acc x (list_elem_of_here _ _)).
Qed.

Lemma for_of_try_agree {A B} (l : list A) acc (body body' : B → A → Outcome B) :
  (∀ acc x, x ∈ l → body acc x ≠ OutOfFuel → body' acc x = body acc x) →
  for_of_try l acc body ≠ OutOfFuel →
  for_of_try l acc body' = for_of_try l acc body.
Proof.
  revert acc. induction l as [|x l IH]; intros acc Hbody; simpl; [done|].
  intros Hr.
  rewrite (Hbody acc x (list_elem_of_here _ _)) by (by destruct (body acc x)).
  destruct (body acc x) as [acc'| |] eqn:E; [|done..].
  apply IH; [|done]. intros a y Hy. apply Hbody. by apply list_elem_of_further.
Qed.

(** The [try] block of [findCssFiles] for a budget of nested calls. *)
Definition css_block (fs : Fs) (dir : string)
    (nested_call : string → Outcome (list string)) :
    Outcome (list string * option Err) :=
  match readdirSync fs dir with
  | inl e => Returns ([], Some e)
  | inr entries =>
      for_of_try entries [] (λ files entry,
        let fullPath := join fs dir entry in
        d ← lift (isDirectory fs fullPath);
        if d : bool then sub ← nested_call fullPath; mret (files ++ sub)
        else if endsWith entry ".css" then mret (files ++ [fullPath])
        else mret files)
  end.

Lemma findCssFiles_S fs fuel dir :
  findCssFiles fs (S fuel) dir
  = match css_block fs dir (findCssFiles fs fuel) with
    | Returns (files, Some e) => if rethrown e then Throws e else Returns files
    | Returns (files, None) => Returns files
    | Throws e => Throws e
    | OutOfFuel => OutOfFuel
    end.
Proof.
  cbn [findCssFiles]. unfold css_block, mbind at 1, Outcome_bind at 1.
  destruct (readdirSync fs dir) as [e|entries]; [done|].
  by destruct (for_of_try _ _ _) as [[files [e|]]| |].
Qed.

Lemma findCssFiles_fuel fs depth :
  nested fs depth →
  ∀ fuel dir, depth dir < fuel → findCssFiles fs fuel dir ≠ OutOfFuel.
Proof.
  intros Hn. induction fuel as [|fuel IH]; intros dir Hd; [lia|].
  rewrite findCssFiles_S.
  assert (css_block fs dir (findCssFiles fs fuel) ≠ OutOfFuel) as Hb.
  { unfold css_block. destruct (readdirSync fs dir) as [e|entries] eqn:Hdir; [done|].
    apply for_of_try_fuel. intros acc entry Hentry. unfold mbind, Outcome_bind.
    destruct (isDirectory fs (join fs dir entry)) as [e|[]] eqn:Hp; cbn [lift]; [done|..].
    - pose proof (Hn dir entries entry Hdir Hentry Hp) as Hlt.
      specialize (IH (join fs dir entry)).
      destruct (findCssFiles fs fuel (join fs dir entry)); [done..|]. apply IH. lia.
    - by destruct (endsWith _ _). }
  destruct (css_block fs dir (findCssFiles fs fuel)) as [[files [e|]]| |]; [|done..].
  by destruct (rethrown e).
Qed.

Lemma findCssFiles_more_fuel fs fuel dir :
  findCssFiles fs fuel dir ≠ OutOfFuel →
  findCssFiles fs (S fuel) dir = findCssFiles fs fuel dir.
Proof.
  revert dir. induction fuel as [|fuel IH]; intros dir; [done|].
  rewrite (findCssFiles_S fs (S fuel)), (findCssFiles_S fs fuel). intros Hr.
  assert (css_block fs dir (findCssFiles fs (S fuel))
          = css_block fs dir (findCssFiles fs fuel)) as ->; [|done].
  unfold css_block in *. destruct (readdirSync fs dir) as [e|entries]; [done|].
  apply for_of_try_agree.
  - intros acc entry _. cbv zeta. unfold mbind, Outcome_bind.
    destruct (isDirectory fs (join fs dir entry)) as [e|[]]; cbn [lift]; [done| |done].
    intros Hsub. rewrite IH; [done|].
    by destruct (findCssFiles fs fuel (join fs dir entry)).
  - by destruct (for_of_try _ _ _).
Qed.

(** X28. Where directories are nested to a bounded depth, [findCssFiles]
    ends, with the same outcome for every budget above the depth. *)
Theorem findCssFiles_ends (fs : Fs) (depth : string → nat) (dir : string) :
  nested fs depth →
  ∃ outcome, outcome ≠ OutOfFuel
    ∧ ∀ fuel, depth dir < fuel → findCssFiles fs fuel dir = outcome.
Proof.
  intros Hn. exists (findCssFiles fs (S (depth dir)) dir).
  split; [apply (findCssFiles_fuel fs depth Hn); lia|].
  intros fuel Hfuel.
  assert (∃ k, fuel = k + S (depth dir)) as [k ->] by (exists (fuel - S (depth dir)); lia).
  clear Hfuel. induction k as [|k IH]; [done|].
  change (S k + S (depth dir)) with (S (k + S (depth dir))).
  rewrite findCssFiles_more_fuel; [done|]. rewrite IH.
  apply (findCssFiles_fuel fs depth Hn). lia.
Qed.

(** A pages directory with a page, a folder of posts and a text file; the
    style sheets of a build lie in the same shape. *)
Definition demo_root : string := "/site/src/pages".
Definition demo_blog : string := "/site/src/pages/blog".

Definition demo_fs : Fs :=
  {| existsSync := λ p, String.eqb p demo_root || String.eqb p demo_blog;
     readdirSync := λ p,
       if String.eqb p demo_root then inr ["index.ejs"; "blog"; "main.css"]%string
       else if String.eqb p demo_blog then inr ["post.ejs"; "post.css"; "gone"]%string
       else inl (Coded "ENOTDIR");
     isDirectory := λ p,
       if String.eqb p demo_blog then inr true
       else if String.eqb p "/site/src/pages/blog/gone" then inl ENOENT
       else inr false;
     join := λ d e, (d ++ "/" ++ e)%string |}.

Definition demo_depth (p : string) : nat :=
  if String.eqb p demo_root then 1 else 0.

(** [walkDir] throws at the entry that is gone; [findCssFiles] returns what
    it found before it. *)
Example demo_walks :
  walkDir demo_fs 2 demo_blog = Throws ENOENT
  ∧ findCssFiles demo_fs 2 demo_root
    = Returns ["/site/src/pages/blog/post.css"; "/site/src/pages/main.css"]%string.
Proof. vm_compute. split; reflexivity. Qed.

Lemma demo_nested : nested demo_fs demo_depth.
Proof.
  intros dir entries entry Hdir Hentry Hd. simpl in Hdir.
  destruct (String.eqb_spec dir demo_root) as [->|_];
    [|destruct (String.eqb_spec dir demo_blog) as [->|_]; [|done]].
  all: injection Hdir as <-.
  all: repeat (apply elem_of_cons in Hentry as [->|Hentry]).
  all: try (by apply elem_of_nil in Hentry).
  all: try (vm_compute in Hd; discriminate).
  by_evaluation.
Qed.

Lemma walkDir_only_ejs_files_witness :
  let fs := {| existsSync := existsSync demo_fs; readdirSync := readdirSync demo_fs;
               isDirectory := λ p, if String.eqb p demo_blog then inr true
                                   else inr false;
               join := join demo_fs |} in
  let out := ["/site/src/pages/index.ejs"; "/site/src/pages/blog/post.ejs"]%string in
  walkDir fs 2 demo_root = Returns out
  ∧ Forall (λ p, endsWith p ".ejs" = true ∧ isDirectory fs p = inr false) out.
Proof.
  intros fs out.
  assert (walkDir fs 2 demo_root = Returns out) as H by (vm_compute; reflexivity).
  split; [exact H|]. exact (walkDir_only_ejs_files fs 2 demo_root out H).
Defined.

Lemma walkDir_ends_witness :
  nested demo_fs demo_depth
  ∧ ∃ outcome, outcome ≠ OutOfFuel
      ∧ ∀ fuel, demo_depth demo_root < fuel → walkDir demo_fs fuel demo_root = outcome.
Proof.
  split; [exact demo_nested|]. exact (walkDir_ends demo_fs demo_depth demo_root demo_nested).
Defined.

Lemma findCssFiles_ends_witness :
  nested demo_fs demo_depth
  ∧ ∃ outcome, outcome ≠ OutOfFuel
      ∧ ∀ fuel, demo_depth demo_root < fuel
          → findCssFiles demo_fs fuel demo_root = outcome.
Proof.
  split; [exact demo_nested|].
  exact (findCssFiles_ends demo_fs demo_depth demo_root demo_nested).
Defined.

End FsWalk.
